(** * Kubernetes service discovery: the endpoints join and the watch client

    A shallow embedding of [lib/promscrape/discovery/kubernetes/endpoints.go]
    and of the watch client of the same package, with the properties of the
    target builder, of the event dispatch, of the reconnect loop and of the
    framed reader proved about it. *)

From Stdlib Require Import ZArith String Ascii List Lia Permutation.
From stdpp Require Import base option list gmap strings pretty fin_maps.

Local Open Scope Z_scope.

(** ** Go values *)

(** A target is a [map[string]string]. *)
Abbreviation labelMap := (gmap string string).

(** A Go slice is either [nil] or backed by an array: [None] is the nil slice,
    [Some []] an empty slice that is not nil. *)
Definition slice (A : Type) : Type := option (list A).

Definition elems {A} (s : slice A) : list A := default [] s.

(** [append(s, x)]: the result is never nil. *)
Definition go_append {A} (s : slice A) (x : A) : slice A := Some (elems s ++ [x]).

Definition go_appends {A} (s : slice A) (xs : list A) : slice A := foldl go_append s xs.

(** A [*Pod]: pods live on the heap and the pod cache holds pointers to them. *)
Abbreviation ptr := nat (only parsing).

(** ** Object shapes *)

(** Modelled from the spec: ObjectMeta is declared in a file of the package
    that is not among the sources; the fields are those of section 3. *)
Record ObjectMeta := {
  om_Name : string;
  om_Namespace : string;
  om_UID : string;
  om_Labels : list (string * string);
  om_Annotations : list (string * string) }.

Record ObjectReference := {
  or_Kind : string;
  or_Name : string;
  or_Namespace : string }.

Record EndpointAddress := {
  ea_Hostname : string;
  ea_IP : string;
  ea_NodeName : string;
  ea_TargetRef : ObjectReference }.

Record EndpointPort := {
  epp_AppProtocol : string;
  epp_Name : string;
  epp_Port : Z;
  epp_Protocol : string }.

Record EndpointSubset := {
  ess_Addresses : list EndpointAddress;
  ess_NotReadyAddresses : list EndpointAddress;
  ess_Ports : list EndpointPort }.

Record Endpoints := {
  eps_Metadata : ObjectMeta;
  eps_Subsets : list EndpointSubset }.

(** Modelled from the spec: Pod, its containers and their ports are declared
    in pod.go, which is not among the sources (section 3, entity Pod). *)
Record ContainerPort := {
  cp_Name : string;
  cp_ContainerPort : Z;
  cp_Protocol : string }.

Record Container := {
  c_Name : string;
  c_Image : string;
  c_Ports : list ContainerPort }.

Record PodSpec := {
  pspec_NodeName : string;
  pspec_Containers : list Container }.

Record PodStatus := {
  pstat_Phase : string;
  pstat_PodIP : string;
  pstat_HostIP : string }.

Record Pod := {
  pod_Metadata : ObjectMeta;
  pod_Spec : PodSpec;
  pod_Status : PodStatus }.

(** Modelled from the spec: Service is declared in service.go, which is not
    among the sources (section 3, entity Service). *)
Record ServiceSpec := {
  sspec_Type : string;
  sspec_ClusterIP : string;
  sspec_ExternalName : string }.

Record Service := {
  svc_Metadata : ObjectMeta;
  svc_Spec : ServiceSpec }.

Definition Endpoints_key (eps : Endpoints) : string :=
  om_Namespace (eps_Metadata eps) +:+ "/" +:+ om_Name (eps_Metadata eps).

Definition ObjectReference_key (o : ObjectReference) : string :=
  or_Namespace o +:+ "/" +:+ or_Name o.

(** Modelled from the spec: the key methods of Pod and Service are not among
    the sources; the glossary gives the key of a namespaced object as
    "namespace/name". *)
Definition Pod_key (p : Pod) : string :=
  om_Namespace (pod_Metadata p) +:+ "/" +:+ om_Name (pod_Metadata p).

Definition Service_key (s : Service) : string :=
  om_Namespace (svc_Metadata s) +:+ "/" +:+ om_Name (svc_Metadata s).

(** ** The label writers of the other kinds *)

(** Modelled from the spec: the functions that overlay the labels of a
    service, of an object's metadata and of a pod onto a target are not among
    the sources (section 4.4 names them overlays). Each is taken as the
    sequence of assignments [m[k] = v] it performs, in order. *)
Class LabelWriters := {
  JoinHostPort : string → Z → string;
  Service_appendCommonLabels : Service → list (string * string);
  registerLabelsAndAnnotations : string → ObjectMeta → list (string * string);
  Pod_appendCommonLabels : Pod → list (string * string);
  Pod_appendContainerLabels : Pod → Container → ContainerPort → list (string * string) }.

(** [m[k] = v] for every pair, first to last. *)
Definition setAll (kvs : list (string * string)) (m : labelMap) : labelMap :=
  foldl (λ m kv, <[kv.1 := kv.2]> m) m kvs.

(** The order in which [for p, ports := range podPortsSeen] visits a map: Go
    leaves it unspecified, so it is a parameter of every run. *)
Definition rangeOrder : Type := gmap ptr (list Z) → list (ptr * list Z).

Definition rangeAdmissible (ord : rangeOrder) : Prop :=
  ∀ m, ord m ≡ₚ map_to_list m.

(** ** endpoints.go *)

Section Builder.
Context `{W : LabelWriters}.

Definition getEndpointLabels (om : ObjectMeta) (ea : EndpointAddress)
    (epp : EndpointPort) (ready : string) : labelMap :=
  let addr := JoinHostPort (ea_IP ea) (epp_Port epp) in
  let m : labelMap :=
    setAll [("__address__", addr);
            ("__meta_kubernetes_namespace", om_Namespace om);
            ("__meta_kubernetes_endpoints_name", om_Name om);
            ("__meta_kubernetes_endpoint_ready", ready);
            ("__meta_kubernetes_endpoint_port_name", epp_Name epp);
            ("__meta_kubernetes_endpoint_port_protocol", epp_Protocol epp)] ∅ in
  let m :=
    if decide (or_Kind (ea_TargetRef ea) ≠ "")
    then setAll [("__meta_kubernetes_endpoint_address_target_kind", or_Kind (ea_TargetRef ea));
                 ("__meta_kubernetes_endpoint_address_target_name", or_Name (ea_TargetRef ea))] m
    else m in
  let m :=
    if decide (ea_NodeName ea ≠ "")
    then <["__meta_kubernetes_endpoint_node_name" := ea_NodeName ea]> m
    else m in
  if decide (ea_Hostname ea ≠ "")
  then <["__meta_kubernetes_endpoint_hostname" := ea_Hostname ea]> m
  else m.

(** The inner loop of getEndpointLabelsForAddressAndPort over the ports of one
    container: the first port equal to the endpoint port writes the container
    labels, records the port for the pod and leaves the loop. *)
Fixpoint containerPortsLoop (p : ptr) (pod : Pod) (c : Container) (epp : EndpointPort)
    (cps : list ContainerPort) (st : labelMap * gmap ptr (list Z))
    : labelMap * gmap ptr (list Z) :=
  match cps with
  | [] => st
  | cp :: cps' =>
      if bool_decide (cp_ContainerPort cp = epp_Port epp)
      then (setAll (Pod_appendContainerLabels pod c cp) st.1,
            <[p := default [] (st.2 !! p) ++ [cp_ContainerPort cp]]> st.2)
      else containerPortsLoop p pod c epp cps' st
  end.

Definition getEndpointLabelsForAddressAndPort (podPortsSeen : gmap ptr (list Z))
    (heap : ptr → Pod) (eps : Endpoints) (ea : EndpointAddress) (epp : EndpointPort)
    (p : option ptr) (svc : option Service) (ready : string)
    : labelMap * gmap ptr (list Z) :=
  let m := getEndpointLabels (eps_Metadata eps) ea epp ready in
  let m := match svc with
           | Some s => setAll (Service_appendCommonLabels s) m
           | None => m
           end in
  let m := setAll (registerLabelsAndAnnotations "__meta_kubernetes_endpoints" (eps_Metadata eps)) m in
  match p with
  | Some pp =>
      if decide (or_Kind (ea_TargetRef ea) ≠ "Pod") then (m, podPortsSeen)
      else
        let pod := heap pp in
        let m := setAll (Pod_appendCommonLabels pod) m in
        foldl (λ st c, containerPortsLoop pp pod c epp (c_Ports c) st)
              (m, podPortsSeen) (pspec_Containers (pod_Spec pod))
  | None => (m, podPortsSeen)
  end.

Definition appendEndpointLabelsForAddresses (ms : slice labelMap)
    (podPortsSeen : gmap ptr (list Z)) (heap : ptr → Pod) (eps : Endpoints)
    (eas : list EndpointAddress) (epp : EndpointPort) (podsCache : gmap string ptr)
    (svc : option Service) (ready : string) : slice labelMap * gmap ptr (list Z) :=
  foldl (λ st ea,
           let p := podsCache !! ObjectReference_key (ea_TargetRef ea) in
           let r := getEndpointLabelsForAddressAndPort st.2 heap eps ea epp p svc ready in
           (go_append st.1 r.1, r.2))
        (ms, podPortsSeen) eas.

Fixpoint portSeen (port : Z) (ports : list Z) : bool :=
  match ports with
  | [] => false
  | p :: ports' => if bool_decide (p = port) then true else portSeen port ports'
  end.

(** The target of a container port that pass 1 skipped. *)
Definition skippedPortLabels (pod : Pod) (c : Container) (cp : ContainerPort)
    (svc : option Service) : labelMap :=
  let addr := JoinHostPort (pstat_PodIP (pod_Status pod)) (cp_ContainerPort cp) in
  let m : labelMap := <["__address__" := addr]> ∅ in
  let m := setAll (Pod_appendCommonLabels pod) m in
  let m := setAll (Pod_appendContainerLabels pod c cp) m in
  match svc with
  | Some s => setAll (Service_appendCommonLabels s) m
  | None => m
  end.

Definition appendTargetLabels (ord : rangeOrder) (eps : Endpoints) (ms : slice labelMap)
    (podsCache : gmap string ptr) (heap : ptr → Pod) (servicesCache : gmap string Service)
    : slice labelMap :=
  let svc := servicesCache !! Endpoints_key eps in
  let st :=
    foldl (λ st ess,
             foldl (λ st epp,
                      let st := appendEndpointLabelsForAddresses st.1 st.2 heap eps
                                  (ess_Addresses ess) epp podsCache svc "true" in
                      appendEndpointLabelsForAddresses st.1 st.2 heap eps
                        (ess_NotReadyAddresses ess) epp podsCache svc "false")
                   st (ess_Ports ess))
          (ms, ∅) (eps_Subsets eps) in
  foldl (λ ms pp,
           let pod := heap pp.1 in
           foldl (λ ms c,
                    foldl (λ ms cp,
                             if portSeen (cp_ContainerPort cp) pp.2 then ms
                             else go_append ms (skippedPortLabels pod c cp svc))
                          ms (c_Ports c))
                 ms (pspec_Containers (pod_Spec pod)))
        st.1 (ord st.2).

End Builder.

(** ** What the builder emits, stated without the loops *)

Section BuilderSpec.
Context `{W : LabelWriters}.

(** The iterations of pass 1, in order: for a subset, each of its ports is
    paired with every ready address and then with every not-ready address. *)
Definition pass1Pairs (eps : Endpoints) : list (EndpointAddress * EndpointPort * string) :=
  flat_map (λ ess,
    flat_map (λ epp,
      map (λ ea, (ea, epp, "true")) (ess_Addresses ess) ++
      map (λ ea, (ea, epp, "false")) (ess_NotReadyAddresses ess))
    (ess_Ports ess))
  (eps_Subsets eps).

(** The target that pass 1 builds in one iteration. *)
Definition endpointTarget (podsCache : gmap string ptr) (heap : ptr → Pod)
    (eps : Endpoints) (svc : option Service)
    (t : EndpointAddress * EndpointPort * string) : labelMap :=
  (getEndpointLabelsForAddressAndPort ∅ heap eps t.1.1 t.1.2
     (podsCache !! ObjectReference_key (ea_TargetRef t.1.1)) svc t.2).1.

(** The address names the pod [q]: its targetRef has kind Pod and its key is
    bound to [q] in the pod cache. *)
Definition refersTo (podsCache : gmap string ptr) (ea : EndpointAddress) (q : ptr) : Prop :=
  or_Kind (ea_TargetRef ea) = "Pod" ∧
  podsCache !! ObjectReference_key (ea_TargetRef ea) = Some q.

#[global] Instance refersTo_dec podsCache ea q : Decision (refersTo podsCache ea q).
Proof. unfold refersTo. apply _. Defined.

Definition hasPort (c : Container) (port : Z) : bool :=
  existsb (λ cp, bool_decide (cp_ContainerPort cp = port)) (c_Ports c).

(** What one iteration of pass 1 records for the pod: the port, once for each
    container that exposes it. *)
Definition containerHits (pod : Pod) (port : Z) : list Z :=
  flat_map (λ c, if hasPort c port then [port] else []) (pspec_Containers (pod_Spec pod)).

Definition pairHits (podsCache : gmap string ptr) (heap : ptr → Pod)
    (t : EndpointAddress * EndpointPort * string) (q : ptr) : list Z :=
  if decide (refersTo podsCache t.1.1 q) then containerHits (heap q) (epp_Port t.1.2) else [].

(** The ports recorded for the pod [q] by the whole of pass 1. *)
Definition portsHit (podsCache : gmap string ptr) (heap : ptr → Pod)
    (eps : Endpoints) (q : ptr) : list Z :=
  flat_map (λ t, pairHits podsCache heap t q) (pass1Pairs eps).

(** Every container port of a pod, container by container. *)
Definition containerPorts (pod : Pod) : list (Container * ContainerPort) :=
  flat_map (λ c, map (λ cp, (c, cp)) (c_Ports c)) (pspec_Containers (pod_Spec pod)).

(** The targets pass 2 adds for a pod whose recorded ports are [ports]. *)
Definition skippedTargets (pod : Pod) (ports : list Z) (svc : option Service) : list labelMap :=
  flat_map (λ ccp, if portSeen (cp_ContainerPort ccp.2) ports then []
                   else [skippedPortLabels pod ccp.1 ccp.2 svc])
           (containerPorts pod).

(** The claim's count for a pod, in the spec's words: one target per pair of a
    subset port and an address of the pod, plus one per container port of the
    pod that no port recorded for it covers. *)
Definition claimedTargetsOfPod (podsCache : gmap string ptr) (heap : ptr → Pod)
    (eps : Endpoints) (q : ptr) : nat :=
  length (filter (λ t, refersTo podsCache t.1.1 q) (pass1Pairs eps)) +
  length (filter (λ ccp, cp_ContainerPort ccp.2 ∉ portsHit podsCache heap eps q)
                 (containerPorts (heap q))).

End BuilderSpec.

(** ** Auxiliary notions for the proofs about the builder *)

(** The value last assigned to [k] by a sequence of assignments, if any. *)
Fixpoint lastWrite (k : string) (kvs : list (string * string)) : option string :=
  match kvs with
  | [] => None
  | kv :: kvs' =>
      match lastWrite k kvs' with
      | Some v => Some v
      | None => if decide (kv.1 = k) then Some kv.2 else None
      end
  end.

(** A map entry exists once something has been recorded under it. *)
Definition optList {A} (l : list A) : option (list A) :=
  match l with [] => None | _ => Some l end.

(** [seen] holds, for every pod, exactly the ports that [R] lists for it. *)
Definition seenOf (R : ptr → list Z) (seen : gmap ptr (list Z)) : Prop :=
  ∀ q, seen !! q = optList (R q).

Section BuilderAux.
Context `{W : LabelWriters}.

(** The effect of one iteration of pass 1 on podPortsSeen. *)
Definition seenStep (podsCache : gmap string ptr) (heap : ptr → Pod) (eps : Endpoints)
    (svc : option Service) (seen : gmap ptr (list Z))
    (t : EndpointAddress * EndpointPort * string) : gmap ptr (list Z) :=
  (getEndpointLabelsForAddressAndPort seen heap eps t.1.1 t.1.2
     (podsCache !! ObjectReference_key (ea_TargetRef t.1.1)) svc t.2).2.

End BuilderAux.

(** ** A concrete set of label writers, and example objects *)

Definition isAlnum (a : Ascii.ascii) : bool :=
  let n := Ascii.nat_of_ascii a in
  ((48 <=? n) && (n <=? 57) || (65 <=? n) && (n <=? 90) || (97 <=? n) && (n <=? 122))%nat.

(** Modelled from the spec: label names are normalized, every character that
    is not alphanumeric being replaced with an underscore (section 4.4). *)
Fixpoint sanitizeLabelName (s : string) : string :=
  match s with
  | EmptyString => EmptyString
  | String a s' => String (if isAlnum a then a else "_"%char) (sanitizeLabelName s')
  end.

(** Modelled from the spec: the labels and annotations of an object are
    emitted as [<prefix>_label_<k>], [<prefix>_labelpresent_<k>] and the
    annotation variants (section 4.4). *)
Definition metaLabels (prefix : string) (om : ObjectMeta) : list (string * string) :=
  flat_map (λ kv, [(prefix +:+ "_label_" +:+ sanitizeLabelName kv.1, kv.2);
                   (prefix +:+ "_labelpresent_" +:+ sanitizeLabelName kv.1, "true")])
           (om_Labels om) ++
  flat_map (λ kv, [(prefix +:+ "_annotation_" +:+ sanitizeLabelName kv.1, kv.2);
                   (prefix +:+ "_annotationpresent_" +:+ sanitizeLabelName kv.1, "true")])
           (om_Annotations om).

(** Modelled from the spec: the writers of section 4.4 under the label names
    of the Prometheus conventions. The address is [host:port]; a service
    writes its name, cluster IP, type, external name, labels and annotations;
    a pod writes its name, node name, host IP, pod IP, phase, uid, labels and
    annotations; a container port writes the container name and image and the
    port name, number and protocol. *)
#[global] Instance promWriters : LabelWriters := {|
  JoinHostPort host port := host +:+ ":" +:+ pretty port;
  Service_appendCommonLabels s :=
    [("__meta_kubernetes_service_name", om_Name (svc_Metadata s));
     ("__meta_kubernetes_service_cluster_ip", sspec_ClusterIP (svc_Spec s));
     ("__meta_kubernetes_service_type", sspec_Type (svc_Spec s));
     ("__meta_kubernetes_service_external_name", sspec_ExternalName (svc_Spec s))] ++
    metaLabels "__meta_kubernetes_service" (svc_Metadata s);
  registerLabelsAndAnnotations := metaLabels;
  Pod_appendCommonLabels p :=
    [("__meta_kubernetes_pod_name", om_Name (pod_Metadata p));
     ("__meta_kubernetes_pod_node_name", pspec_NodeName (pod_Spec p));
     ("__meta_kubernetes_pod_host_ip", pstat_HostIP (pod_Status p));
     ("__meta_kubernetes_pod_ip", pstat_PodIP (pod_Status p));
     ("__meta_kubernetes_pod_phase", pstat_Phase (pod_Status p));
     ("__meta_kubernetes_pod_uid", om_UID (pod_Metadata p))] ++
    metaLabels "__meta_kubernetes_pod" (pod_Metadata p);
  Pod_appendContainerLabels p c cp :=
    [("__meta_kubernetes_pod_container_name", c_Name c);
     ("__meta_kubernetes_pod_container_image", c_Image c);
     ("__meta_kubernetes_pod_container_port_name", cp_Name cp);
     ("__meta_kubernetes_pod_container_port_number", pretty (cp_ContainerPort cp));
     ("__meta_kubernetes_pod_container_port_protocol", cp_Protocol cp)] |}.

Definition exMeta (ns name : string) : ObjectMeta :=
  {| om_Name := name; om_Namespace := ns; om_UID := ""; om_Labels := [];
     om_Annotations := [] |}.

Definition exPort (name : string) (port : Z) : ContainerPort :=
  {| cp_Name := name; cp_ContainerPort := port; cp_Protocol := "TCP" |}.

(** A pod with one container exposing the given ports. *)
Definition exPod (ns name ip : string) (ports : list ContainerPort) : Pod :=
  {| pod_Metadata := exMeta ns name;
     pod_Spec := {| pspec_NodeName := "node1";
                    pspec_Containers := [ {| c_Name := "c1"; c_Image := "img"; c_Ports := ports |} ] |};
     pod_Status := {| pstat_Phase := "Running"; pstat_PodIP := ip; pstat_HostIP := "192.168.0.1" |} |}.

Definition exAddress (ip kind ns name : string) : EndpointAddress :=
  {| ea_Hostname := ""; ea_IP := ip; ea_NodeName := "";
     ea_TargetRef := {| or_Kind := kind; or_Name := name; or_Namespace := ns |} |}.

Definition exEndpointPort (name : string) (port : Z) : EndpointPort :=
  {| epp_AppProtocol := ""; epp_Name := name; epp_Port := port; epp_Protocol := "TCP" |}.

(** Scenario S2: endpoints ns1/svc1 with one ready address backed by pod
    ns1/p1 and one port, 8080; the pod also exposes 9090. *)
Definition exEndpoints : Endpoints :=
  {| eps_Metadata := exMeta "ns1" "svc1";
     eps_Subsets := [ {| ess_Addresses := [exAddress "10.0.0.1" "Pod" "ns1" "p1"];
                         ess_NotReadyAddresses := [];
                         ess_Ports := [exEndpointPort "http" 8080] |} ] |}.

Definition exPod1 : Pod := exPod "ns1" "p1" "10.0.0.1" [exPort "http" 8080; exPort "" 9090].

Definition exService : Service :=
  {| svc_Metadata := exMeta "ns1" "svc1";
     svc_Spec := {| sspec_Type := "ClusterIP"; sspec_ClusterIP := "10.96.0.1";
                    sspec_ExternalName := "" |} |}.

Definition exPodsCache : gmap string ptr := {[ "ns1/p1" := 0%nat ]}.

Definition exHeap : ptr → Pod := λ _, exPod1.

Definition exServicesCache : gmap string Service := {[ "ns1/svc1" := exService ]}.

(** The same endpoints over a pod none of whose container ports is the
    endpoint port: the pod exposes only 9090. *)
Definition exPodUnmatched : Pod := exPod "ns1" "p1" "10.0.0.1" [exPort "metrics" 9090].

Definition exHeapUnmatched : ptr → Pod := λ _, exPodUnmatched.

(** ** Events, caches and the state of a run *)

Record SyncEvent := {
  se_Key : string;
  se_Labels : slice labelMap;
  se_ConfigSectionSet : string }.

Definition buildSyncKey (objType setName objKey : string) : string :=
  objType +:+ "/" +:+ setName +:+ "/" +:+ objKey.

(** Modelled from the spec: EndpointSlice, Node and Ingress are declared in
    files that are not among the sources; the orchestrator only needs their
    keys (section 3). *)
Record EndpointSlice := { es_Metadata : ObjectMeta }.

Record Node := { node_Metadata : ObjectMeta }.

Record Ingress := { ig_Metadata : ObjectMeta }.

Definition EndpointSlice_key (e : EndpointSlice) : string :=
  om_Namespace (es_Metadata e) +:+ "/" +:+ om_Name (es_Metadata e).

Definition Node_key (n : Node) : string := om_Name (node_Metadata n).

Definition Ingress_key (i : Ingress) : string :=
  om_Namespace (ig_Metadata i) +:+ "/" +:+ om_Name (ig_Metadata i).

(** Modelled from the spec: SharedKubernetesCache is declared in a file that
    is not among the sources; it holds one concurrent map per cached kind
    (section 4.3). The pod cache holds pointers, which the builder compares. *)
Record SharedKubernetesCache := {
  sc_Pods : gmap string ptr;
  sc_Services : gmap string Service;
  sc_Endpoints : gmap string Endpoints;
  sc_EndpointsSlices : gmap string EndpointSlice }.

(** What a run does that other goroutines or the API server can observe, in
    program order. *)
Inductive Event :=
  | EvSend (e : SyncEvent)
      (** [cfg.targetChan <- e] *)
  | EvList (objectName path : string)
      (** [cfg.wc.getBlockingAPIResponse(path)] *)
  | EvSpawn (objectName path version : string)
      (** [cfg.wc.wg.Add(1); go cfg.wc.startWatchForResource(ctx, path, wh, version)] *)
  | EvCache (objectName key action : string)
      (** a call of the cache update function of the kind *)
  | EvCall (fn key action : string)
      (** a call of a process function defined outside these files *).

Record World := {
  w_sc : SharedKubernetesCache;
  w_heap : ptr → Pod;
  w_next : ptr;
  w_ms : slice labelMap;
  w_trace : list Event }.

Definition emit (e : Event) (w : World) : World :=
  {| w_sc := w_sc w; w_heap := w_heap w; w_next := w_next w; w_ms := w_ms w;
     w_trace := w_trace w ++ [e] |}.

Definition withCache (sc : SharedKubernetesCache) (w : World) : World :=
  {| w_sc := sc; w_heap := w_heap w; w_next := w_next w; w_ms := w_ms w;
     w_trace := w_trace w |}.

Definition withMs (ms : slice labelMap) (w : World) : World :=
  {| w_sc := w_sc w; w_heap := w_heap w; w_next := w_next w; w_ms := ms;
     w_trace := w_trace w |}.

(** [&p] for a pod value: a cell of its own holding the value. *)
Definition newPod (p : Pod) (w : World) : ptr * World :=
  (w_next w,
   {| w_sc := w_sc w;
      w_heap := λ q, if decide (q = w_next w) then p else w_heap w q;
      w_next := S (w_next w); w_ms := w_ms w; w_trace := w_trace w |}).

(** The events sent on the target channel so far, oldest first. *)
Definition sent (w : World) : list SyncEvent :=
  omap (λ e, match e with EvSend s => Some s | _ => None end) (w_trace w).

(** Modelled from the spec: the cache update functions are not among the
    sources; section 4.3 gives their semantics: ADDED and MODIFIED store the
    object under its key, DELETED deletes the key, anything else is a no-op. *)
Definition updateCache {V} (cache : gmap string V) (key : string) (v : V)
    (action : string) : gmap string V :=
  if decide (action = "ADDED" ∨ action = "MODIFIED") then <[key := v]> cache
  else if decide (action = "DELETED") then delete key cache
  else cache.

Definition updatePodCache (p : Pod) (action : string) (w : World) : World :=
  let pw := newPod p w in
  let sc := w_sc pw.2 in
  emit (EvCache "pods" (Pod_key p) action)
    (withCache {| sc_Pods := updateCache (sc_Pods sc) (Pod_key p) pw.1 action;
                  sc_Services := sc_Services sc; sc_Endpoints := sc_Endpoints sc;
                  sc_EndpointsSlices := sc_EndpointsSlices sc |} pw.2).

(** [*q = p] for a pod variable at the address [q]. *)
Definition writePod (q : ptr) (p : Pod) (w : World) : World :=
  {| w_sc := w_sc w;
     w_heap := λ q', if decide (q' = q) then p else w_heap w q';
     w_next := w_next w; w_ms := w_ms w; w_trace := w_trace w |}.

(** updatePodCache for the pod at the address [q]: the address itself is what
    the cache stores, under the key of the pod that is there at the call. *)
Definition updatePodCacheAt (q : ptr) (action : string) (w : World) : World :=
  let sc := w_sc w in
  let key := Pod_key (w_heap w q) in
  emit (EvCache "pods" key action)
    (withCache {| sc_Pods := updateCache (sc_Pods sc) key q action;
                  sc_Services := sc_Services sc; sc_Endpoints := sc_Endpoints sc;
                  sc_EndpointsSlices := sc_EndpointsSlices sc |} w).

Definition updateServiceCache (s : Service) (action : string) (w : World) : World :=
  let sc := w_sc w in
  emit (EvCache "services" (Service_key s) action)
    (withCache {| sc_Pods := sc_Pods sc;
                  sc_Services := updateCache (sc_Services sc) (Service_key s) s action;
                  sc_Endpoints := sc_Endpoints sc;
                  sc_EndpointsSlices := sc_EndpointsSlices sc |} w).

Definition updateEndpointsCache (e : Endpoints) (action : string) (w : World) : World :=
  let sc := w_sc w in
  emit (EvCache "endpoints" (Endpoints_key e) action)
    (withCache {| sc_Pods := sc_Pods sc; sc_Services := sc_Services sc;
                  sc_Endpoints := updateCache (sc_Endpoints sc) (Endpoints_key e) e action;
                  sc_EndpointsSlices := sc_EndpointsSlices sc |} w).

Definition updateEndpointsSliceCache (e : EndpointSlice) (action : string) (w : World) : World :=
  let sc := w_sc w in
  emit (EvCache "endpointslices" (EndpointSlice_key e) action)
    (withCache {| sc_Pods := sc_Pods sc; sc_Services := sc_Services sc;
                  sc_Endpoints := sc_Endpoints sc;
                  sc_EndpointsSlices :=
                    updateCache (sc_EndpointsSlices sc) (EndpointSlice_key e) e action |} w).

(** The caches of services and of Endpoints objects are kept by value, as
    what the stored addresses lead to. Assigning a variable whose address was
    stored under [keys] therefore shows under each of these keys. *)
Definition writeThrough {V} (keys : list string) (v : V) (cache : gmap string V)
    : gmap string V :=
  foldr (λ k c, <[k := v]> c) cache keys.

(** [svc = s] for a service variable whose address the cache holds under
    [keys]. *)
Definition assignServiceVar (keys : list string) (s : Service) (w : World) : World :=
  let sc := w_sc w in
  withCache {| sc_Pods := sc_Pods sc;
               sc_Services := writeThrough keys s (sc_Services sc);
               sc_Endpoints := sc_Endpoints sc;
               sc_EndpointsSlices := sc_EndpointsSlices sc |} w.

(** [ep = e] for an Endpoints variable whose address the cache holds under
    [keys]. *)
Definition assignEndpointsVar (keys : list string) (e : Endpoints) (w : World) : World :=
  let sc := w_sc w in
  withCache {| sc_Pods := sc_Pods sc; sc_Services := sc_Services sc;
               sc_Endpoints := writeThrough keys e (sc_Endpoints sc);
               sc_EndpointsSlices := sc_EndpointsSlices sc |} w.

Section Dispatch.
Context `{W : LabelWriters}.

(** processEndpoints of endpoints.go; [ord] is the order the range over
    podPortsSeen takes in this call. The ERROR case does nothing and the
    default case only logs. *)
Definition processEndpoints (ord : rangeOrder) (setName : string) (p : Endpoints)
    (action : string) (w : World) : World :=
  let key := buildSyncKey "endpoints" setName (Endpoints_key p) in
  if decide (action = "ADDED" ∨ action = "MODIFIED") then
    let lbs := appendTargetLabels ord p None (sc_Pods (w_sc w)) (w_heap w)
                 (sc_Services (w_sc w)) in
    emit (EvSend {| se_Labels := lbs; se_Key := key; se_ConfigSectionSet := setName |}) w
  else if decide (action = "DELETED") then
    emit (EvSend {| se_Labels := None; se_Key := key; se_ConfigSectionSet := setName |}) w
  else w.

End Dispatch.

Definition emptyCache : SharedKubernetesCache :=
  {| sc_Pods := ∅; sc_Services := ∅; sc_Endpoints := ∅; sc_EndpointsSlices := ∅ |}.

(** A fresh run: NewSharedKubernetesCache(), nothing on the channel. *)
Definition emptyWorld : World :=
  {| w_sc := emptyCache; w_heap := λ _, exPod1; w_next := 0%nat; w_ms := None;
     w_trace := [] |}.

(** An Endpoints object without subsets. *)
Definition exEndpointsEmpty : Endpoints :=
  {| eps_Metadata := exMeta "ns1" "svc1"; eps_Subsets := [] |}.

(** ** The overlays of one target *)

Section OverlaySpec.
Context `{W : LabelWriters}.

Definition serviceWrites (svc : option Service) : list (string * string) :=
  match svc with Some s => Service_appendCommonLabels s | None => [] end.

Definition endpointsWrites (eps : Endpoints) : list (string * string) :=
  registerLabelsAndAnnotations "__meta_kubernetes_endpoints" (eps_Metadata eps).

Fixpoint firstPort (cps : list ContainerPort) (port : Z) : option ContainerPort :=
  match cps with
  | [] => None
  | cp :: cps' => if bool_decide (cp_ContainerPort cp = port) then Some cp else firstPort cps' port
  end.

(** What the pod part of getEndpointLabelsForAddressAndPort assigns: the
    common labels of the pod, then, container by container, the labels of the
    first port equal to the endpoint port. *)
Definition podWrites (heap : ptr → Pod) (ea : EndpointAddress) (epp : EndpointPort)
    (p : option ptr) : list (string * string) :=
  match p with
  | Some pp =>
      if decide (or_Kind (ea_TargetRef ea) ≠ "Pod") then []
      else Pod_appendCommonLabels (heap pp) ++
           flat_map (λ c, match firstPort (c_Ports c) (epp_Port epp) with
                          | Some cp => Pod_appendContainerLabels (heap pp) c cp
                          | None => []
                          end)
                    (pspec_Containers (pod_Spec (heap pp)))
  | None => []
  end.

(** The order of the overlays in the claim's words: the initial skeleton, then
    the endpoints-metadata labels, then the service common labels. *)
Definition claimedOverlay (eps : Endpoints) (ea : EndpointAddress) (epp : EndpointPort)
    (svc : option Service) (ready : string) : labelMap :=
  setAll (serviceWrites svc)
    (setAll (endpointsWrites eps) (getEndpointLabels (eps_Metadata eps) ea epp ready)).

(** The service overlay and the endpoints-metadata overlay assign no key in
    common: the writers keep the labels of a service under the names of
    services and write those of the metadata under the prefix they are given
    (section 4.4). *)
Definition overlaysApart (eps : Endpoints) (svc : option Service) : Prop :=
  ∀ k, k ∈ (serviceWrites svc).*1 → k ∉ (endpointsWrites eps).*1.

(** The labels every skeleton holds. *)
Definition baseLabels (om : ObjectMeta) (ea : EndpointAddress) (epp : EndpointPort)
    (ready : string) : list (string * string) :=
  [("__address__", JoinHostPort (ea_IP ea) (epp_Port epp));
   ("__meta_kubernetes_namespace", om_Namespace om);
   ("__meta_kubernetes_endpoints_name", om_Name om);
   ("__meta_kubernetes_endpoint_ready", ready);
   ("__meta_kubernetes_endpoint_port_name", epp_Name epp);
   ("__meta_kubernetes_endpoint_port_protocol", epp_Protocol epp)].

(** The reduced labels of a pass-1 target, in the spec's words (section 4.4,
    steps 1, 3 and 4): the skeleton, the endpoints metadata over it, then the
    pod; no service. *)
Definition reducedTarget (podsCache : gmap string ptr) (heap : ptr → Pod)
    (eps : Endpoints) (t : EndpointAddress * EndpointPort * string) : labelMap :=
  setAll (podWrites heap t.1.1 t.1.2 (podsCache !! ObjectReference_key (ea_TargetRef t.1.1)))
    (setAll (endpointsWrites eps) (getEndpointLabels (eps_Metadata eps) t.1.1 t.1.2 t.2)).

(** The reduced pass-2 targets of a pod whose recorded ports are [ports], in
    the spec's words: for every container port not among them, the address of
    the pod at that port, the pod common labels and the container labels of
    that port; no service. *)
Definition reducedSkipped (pod : Pod) (ports : list Z) : list labelMap :=
  map (λ ccp : Container * ContainerPort,
         setAll (Pod_appendContainerLabels pod ccp.1 ccp.2)
           (setAll (Pod_appendCommonLabels pod)
              {[ "__address__" :=
                   JoinHostPort (pstat_PodIP (pod_Status pod)) (cp_ContainerPort ccp.2) ]}))
      (filter (λ ccp, cp_ContainerPort ccp.2 ∉ ports) (containerPorts pod)).

(** The keys getEndpointLabels can assign. *)
Definition skeletonKeys : list string :=
  ["__address__"; "__meta_kubernetes_namespace"; "__meta_kubernetes_endpoints_name";
   "__meta_kubernetes_endpoint_ready"; "__meta_kubernetes_endpoint_port_name";
   "__meta_kubernetes_endpoint_port_protocol";
   "__meta_kubernetes_endpoint_address_target_kind";
   "__meta_kubernetes_endpoint_address_target_name";
   "__meta_kubernetes_endpoint_node_name"; "__meta_kubernetes_endpoint_hostname"].

(** A key that the skeleton, the endpoints metadata or a pod assigns. *)
Definition nonServiceKey (heap : ptr → Pod) (eps : Endpoints) (k : string) : Prop :=
  k ∈ skeletonKeys ∨
  k ∈ (endpointsWrites eps).*1 ∨
  (∃ q, k ∈ (Pod_appendCommonLabels (heap q)).*1) ∨
  (∃ q c cp, k ∈ (Pod_appendContainerLabels (heap q) c cp).*1).

End OverlaySpec.

Definition exEndpointsLabelled : Endpoints :=
  {| eps_Metadata := {| om_Name := "svc1"; om_Namespace := "ns1"; om_UID := "";
                        om_Labels := [("app", "from-endpoints")]; om_Annotations := [] |};
     eps_Subsets := eps_Subsets exEndpoints |}.

Definition exServiceLabelled : Service :=
  {| svc_Metadata := {| om_Name := "svc1"; om_Namespace := "ns1"; om_UID := "";
                        om_Labels := [("app", "from-service")]; om_Annotations := [] |};
     svc_Spec := svc_Spec exService |}.

(** The range over podPortsSeen taken in the reverse of the map's own order. *)
Definition reverseOrder : rangeOrder := λ m, reverse (map_to_list m).

Definition exPod2 : Pod := exPod "ns1" "p2" "10.0.0.2" [exPort "http" 8080; exPort "" 9091].

(** Endpoints ns1/svc1 with two ready addresses, backed by the pods ns1/p1 and
    ns1/p2, and the port 8080; each pod exposes one more port. *)
Definition exEndpointsTwoPods : Endpoints :=
  {| eps_Metadata := exMeta "ns1" "svc1";
     eps_Subsets := [ {| ess_Addresses := [exAddress "10.0.0.1" "Pod" "ns1" "p1";
                                           exAddress "10.0.0.2" "Pod" "ns1" "p2"];
                         ess_NotReadyAddresses := [];
                         ess_Ports := [exEndpointPort "http" 8080] |} ] |}.

Definition exWorldTwoPods : World :=
  {| w_sc := {| sc_Pods := {[ "ns1/p1" := 0%nat; "ns1/p2" := 1%nat ]};
                sc_Services := ∅; sc_Endpoints := ∅; sc_EndpointsSlices := ∅ |};
     w_heap := λ q, if decide (q = 0%nat) then exPod1 else exPod2;
     w_next := 2%nat; w_ms := None; w_trace := [] |}.

(** The addresses of the targets of the events sent so far. *)
Definition sentAddresses (w : World) : list (list string) :=
  map (λ e, omap (λ m : labelMap, m !! "__address__") (elems (se_Labels e))) (sent w).

(** ** The role orchestrator *)

(** The fields of apiConfig that the orchestrator reads. [cfg_query] stands
    for [joinSelectors(objectName, nil, cfg.selectors)]: joinSelectors and the
    selectors are declared outside these files. *)
Record apiConfig := {
  cfg_setName : string;
  cfg_namespaces : list string;
  cfg_query : string → string }.

Record watchResponse := {
  wr_Action : string;
  wr_Object : string }.

(** Modelled from the spec: the API server, the JSON decoders and the target
    builders of the other kinds are outside these files. A list request
    answers with a body or fails; a decoder yields the items and the
    resourceVersion of the list metadata, or fails (section 4.5). *)
Class Cluster := {
  getBlockingAPIResponse : string → option string;
  parsePodList : string → option (list Pod * string);
  parseNodeList : string → option (list Node * string);
  parseServiceList : string → option (list Service * string);
  parseEndpointsList : string → option (list Endpoints * string);
  parseIngressList : string → option (list Ingress * string);
  parseEndpointSlicesList : string → option (list EndpointSlice * string);
  unmarshalPod : string → option Pod;
  unmarshalNode : string → option Node;
  unmarshalService : string → option Service;
  unmarshalEndpoints : string → option Endpoints;
  unmarshalIngress : string → option Ingress;
  unmarshalEndpointSlice : string → option EndpointSlice;
  Pod_appendTargetLabels : Pod → list labelMap;
  Node_appendTargetLabels : Node → list labelMap;
  Service_appendTargetLabels : Service → list labelMap;
  Ingress_appendTargetLabels : Ingress → list labelMap;
  EndpointSlice_appendTargetLabels :
    EndpointSlice → gmap string ptr → (ptr → Pod) → gmap string Service → list labelMap }.

Section Orchestrator.
Context `{W : LabelWriters} `{C : Cluster}.
(** The order the range over podPortsSeen takes in the call of a watch
    handler. *)
Variable ord : rangeOrder.
(** Every range over podPortsSeen takes an order of its own. The bootstrap of
    the role endpoints makes two per listed object, one in its direct call of
    appendTargetLabels and one inside processEndpoints, which then sends an
    event: [ordMs n] and [ordEv n] are the orders of the two made when [n]
    events have been sent. *)
Variable ordMs ordEv : nat → rangeOrder.
Variable cfg : apiConfig.

(** *** The watch handlers, one per role and watched kind *)

Definition podHandler (wr : watchResponse) (w : World) : World :=
  match unmarshalPod (wr_Object wr) with
  | None => w
  | Some p => emit (EvCall "processPods" (Pod_key p) (wr_Action wr)) w
  end.

Definition nodeHandler (wr : watchResponse) (w : World) : World :=
  match unmarshalNode (wr_Object wr) with
  | None => w
  | Some n => emit (EvCall "processNode" (Node_key n) (wr_Action wr)) w
  end.

Definition serviceHandler (wr : watchResponse) (w : World) : World :=
  match unmarshalService (wr_Object wr) with
  | None => w
  | Some s => emit (EvCall "processService" (Service_key s) (wr_Action wr)) w
  end.

Definition ingressHandler (wr : watchResponse) (w : World) : World :=
  match unmarshalIngress (wr_Object wr) with
  | None => w
  | Some i => emit (EvCall "processIngress" (Ingress_key i) (wr_Action wr)) w
  end.

(** Role endpoints, pods: the cache is updated, and on MODIFIED the Endpoints
    object cached under the key of the pod, if any, is processed again. *)
Definition endpointsPodHandler (wr : watchResponse) (w : World) : World :=
  match unmarshalPod (wr_Object wr) with
  | None => w
  | Some p =>
      let w := updatePodCache p (wr_Action wr) w in
      if decide (wr_Action wr = "MODIFIED") then
        match sc_Endpoints (w_sc w) !! Pod_key p with
        | Some ep => processEndpoints ord (cfg_setName cfg) ep (wr_Action wr) w
        | None => w
        end
      else w
  end.

Definition endpointsServiceHandler (wr : watchResponse) (w : World) : World :=
  match unmarshalService (wr_Object wr) with
  | None => w
  | Some svc =>
      let w := updateServiceCache svc (wr_Action wr) w in
      if decide (wr_Action wr = "MODIFIED") then
        match sc_Endpoints (w_sc w) !! Service_key svc with
        | Some ep => processEndpoints ord (cfg_setName cfg) ep (wr_Action wr) w
        | None => w
        end
      else w
  end.

Definition endpointsHandler (wr : watchResponse) (w : World) : World :=
  match unmarshalEndpoints (wr_Object wr) with
  | None => w
  | Some eps =>
      updateEndpointsCache eps (wr_Action wr)
        (processEndpoints ord (cfg_setName cfg) eps (wr_Action wr) w)
  end.

Definition endpointslicesPodHandler (wr : watchResponse) (w : World) : World :=
  match unmarshalPod (wr_Object wr) with
  | None => w
  | Some p =>
      let w := updatePodCache p (wr_Action wr) w in
      if decide (wr_Action wr = "MODIFIED") then
        match sc_EndpointsSlices (w_sc w) !! Pod_key p with
        | Some ep => emit (EvCall "processEndpointSlices" (EndpointSlice_key ep) (wr_Action wr)) w
        | None => w
        end
      else w
  end.

Definition endpointslicesServiceHandler (wr : watchResponse) (w : World) : World :=
  match unmarshalService (wr_Object wr) with
  | None => w
  | Some svc =>
      let w := updateServiceCache svc (wr_Action wr) w in
      if decide (wr_Action wr = "MODIFIED") then
        match sc_EndpointsSlices (w_sc w) !! Service_key svc with
        | Some ep => emit (EvCall "processEndpointSlices" (EndpointSlice_key ep) (wr_Action wr)) w
        | None => w
        end
      else w
  end.

Definition endpointslicesHandler (wr : watchResponse) (w : World) : World :=
  match unmarshalEndpointSlice (wr_Object wr) with
  | None => w
  | Some eps =>
      updateEndpointsSliceCache eps (wr_Action wr)
        (emit (EvCall "processEndpointSlices" (EndpointSlice_key eps) (wr_Action wr)) w)
  end.

(** *** The bootstrap handlers: the list body to the resourceVersion, which is
    empty when the body does not decode *)

Definition podSync (data : string) (w : World) : string * World :=
  match parsePodList data with
  | None => ("", w)
  | Some (items, rv) =>
      (rv, foldl (λ w pod,
                    emit (EvCall "processPods" (Pod_key pod) "ADDED")
                      (withMs (go_appends (w_ms w) (Pod_appendTargetLabels pod)) w))
                 w items)
  end.

Definition nodeSync (data : string) (w : World) : string * World :=
  match parseNodeList data with
  | None => ("", w)
  | Some (items, rv) =>
      (rv, foldl (λ w node,
                    let w := emit (EvCall "processNode" (Node_key node) "ADDED") w in
                    withMs (go_appends (w_ms w) (Node_appendTargetLabels node)) w)
                 w items)
  end.

Definition serviceSync (data : string) (w : World) : string * World :=
  match parseServiceList data with
  | None => ("", w)
  | Some (items, rv) =>
      (rv, foldl (λ w svc,
                    let w := emit (EvCall "processService" (Service_key svc) "ADDED") w in
                    withMs (go_appends (w_ms w) (Service_appendTargetLabels svc)) w)
                 w items)
  end.

Definition ingressSync (data : string) (w : World) : string * World :=
  match parseIngressList data with
  | None => ("", w)
  | Some (items, rv) =>
      (rv, foldl (λ w ig,
                    let w := emit (EvCall "processIngress" (Ingress_key ig) "ADDED") w in
                    withMs (go_appends (w_ms w) (Ingress_appendTargetLabels ig)) w)
                 w items)
  end.

(** The zero value of Pod. In [for _, v := range items] the variable [v] is
    one variable for the whole loop (Go before 1.22, the Go of this
    repository): it holds the zero value, every iteration assigns the next
    item to it, and [&v] is the same address each time. A cache that was
    handed [&v] by an earlier iteration leads to the current item under the
    key stored then. *)
Definition zeroPod : Pod :=
  {| pod_Metadata := {| om_Name := ""; om_Namespace := ""; om_UID := "";
                        om_Labels := []; om_Annotations := [] |};
     pod_Spec := {| pspec_NodeName := ""; pspec_Containers := [] |};
     pod_Status := {| pstat_Phase := ""; pstat_PodIP := ""; pstat_HostIP := "" |} |}.

(** Roles endpoints and endpointslices, pods: the items only go to the cache.
    The loop has one cell for its variable [pod]; each iteration writes the
    item into the cell and stores the address of the cell under the key of
    the item. *)
Definition podCacheSync (data : string) (w : World) : string * World :=
  match parsePodList data with
  | None => ("", w)
  | Some (items, rv) =>
      let qw := newPod zeroPod w in
      (rv, foldl (λ w pod, updatePodCacheAt qw.1 "ADDED" (writePod qw.1 pod w)) qw.2 items)
  end.

(** Roles endpoints and endpointslices, services: each iteration assigns the
    item to the variable [svc], which shows under the keys stored by the
    earlier iterations, and stores its address under the key of the item. *)
Definition serviceCacheSync (data : string) (w : World) : string * World :=
  match parseServiceList data with
  | None => ("", w)
  | Some (items, rv) =>
      (rv, (foldl (λ st svc,
                     (updateServiceCache svc "ADDED" (assignServiceVar st.2 svc st.1),
                      Service_key svc :: st.2))
                  (w, []) items).1)
  end.

(** Role endpoints, endpoints: each iteration assigns the item to the variable
    [ep], builds its targets twice, once for the slice returned and once for
    the event, each under an order of its own, and stores [&ep]. *)
Definition endpointsSync (data : string) (w : World) : string * World :=
  match parseEndpointsList data with
  | None => ("", w)
  | Some (items, rv) =>
      (rv, (foldl (λ st ep,
                     let w := assignEndpointsVar st.2 ep st.1 in
                     let n := length (sent w) in
                     let w := withMs (appendTargetLabels (ordMs n) ep (w_ms w)
                                        (sc_Pods (w_sc w)) (w_heap w) (sc_Services (w_sc w))) w in
                     let w := processEndpoints (ordEv n) (cfg_setName cfg) ep "ADDED" w in
                     (updateEndpointsCache ep "ADDED" w, Endpoints_key ep :: st.2))
                  (w, []) items).1)
  end.

Definition endpointslicesSync (data : string) (w : World) : string * World :=
  match parseEndpointSlicesList data with
  | None => ("", w)
  | Some (items, rv) =>
      (rv, foldl (λ w eps,
                    let w := withMs (go_appends (w_ms w)
                                       (EndpointSlice_appendTargetLabels eps (sc_Pods (w_sc w))
                                          (w_heap w) (sc_Services (w_sc w)))) w in
                    emit (EvCall "processEndpointSlices" (EndpointSlice_key eps) "ADDED") w)
                 w items)
  end.

(** *** startWatchForObject *)

(** The list and watch path of a kind, cluster-wide or for one namespace. *)
Definition objectPath (objectName : string) (ns : option string) : string :=
  let path :=
    match ns with
    | Some ns =>
        if decide (objectName = "endpointslices")
        then "/apis/discovery.k8s.io/v1beta1/namespaces/" +:+ ns +:+ "/" +:+ objectName
        else "/api/v1/namespaces/" +:+ ns +:+ "/" +:+ objectName
    | None =>
        if decide (objectName = "endpointslices")
        then "/apis/discovery.k8s.io/v1beta1/" +:+ objectName
        else "/api/v1/" +:+ objectName
    end in
  let query := cfg_query cfg objectName in
  if decide (query = "") then path else path +:+ "?" +:+ query.

(** One round of startWatchForObject: the list is fetched (an error leaves the
    body empty and is logged), the bootstrap handler folds it, and only then
    the watch goroutine is started with the version the handler returned. The
    watch handler is handed to that goroutine and does not run here. *)
Definition listAndSpawn (objectName path : string)
    (getSync : string → World → string * World) (w : World) : World :=
  let w := emit (EvList objectName path) w in
  let data := default "" (getBlockingAPIResponse path) in
  let vw := getSync data w in
  emit (EvSpawn objectName path vw.1) vw.2.

(** The paths startWatchForObject visits, in order. *)
Definition watchPaths (objectName : string) : list string :=
  match cfg_namespaces cfg with
  | [] => [objectPath objectName None]
  | nss => map (λ ns, objectPath objectName (Some ns)) nss
  end.

Definition startWatchForObject (objectName : string)
    (getSync : string → World → string * World) (w : World) : World :=
  match cfg_namespaces cfg with
  | [] => listAndSpawn objectName (objectPath objectName None) getSync w
  | nss => foldl (λ w ns, listAndSpawn objectName (objectPath objectName (Some ns)) getSync w)
                 w nss
  end.

(** *** startWatcherByRole *)

Definition startWatcherByRole (role : string) (w : World) : slice labelMap * World :=
  let w := withMs None w in
  let w :=
    if decide (role = "pod") then startWatchForObject "pods" podSync w
    else if decide (role = "node") then startWatchForObject "nodes" nodeSync w
    else if decide (role = "endpoints") then
      startWatchForObject "endpoints" endpointsSync
        (startWatchForObject "services" serviceCacheSync
           (startWatchForObject "pods" podCacheSync w))
    else if decide (role = "service") then startWatchForObject "services" serviceSync w
    else if decide (role = "ingress") then startWatchForObject "ingresses" ingressSync w
    else if decide (role = "endpointslices") then
      startWatchForObject "endpointslices" endpointslicesSync
        (startWatchForObject "services" serviceCacheSync
           (startWatchForObject "pods" podCacheSync w))
    else w in
  (w_ms w, w).

End Orchestrator.

(** ** Notions for the statements about the orchestrator *)

(** The event is a list request, a cache update or a watch start of the kind. *)
Definition aboutKind (objectName : string) (e : Event) : Prop :=
  match e with
  | EvList o _ | EvSpawn o _ _ | EvCache o _ _ => o = objectName
  | _ => False
  end.

Section OrchestratorSpec.
Context `{C : Cluster}.

(** What a list path answers, decoded; nothing when the request or the
    decoding fails. *)
Definition listedPods (path : string) : list Pod :=
  match parsePodList (default "" (getBlockingAPIResponse path)) with
  | Some (items, _) => items
  | None => []
  end.

Definition listedServices (path : string) : list Service :=
  match parseServiceList (default "" (getBlockingAPIResponse path)) with
  | Some (items, _) => items
  | None => []
  end.

Definition podsVersion (path : string) : string :=
  match parsePodList (default "" (getBlockingAPIResponse path)) with
  | Some (_, rv) => rv
  | None => ""
  end.

Definition servicesVersion (path : string) : string :=
  match parseServiceList (default "" (getBlockingAPIResponse path)) with
  | Some (_, rv) => rv
  | None => ""
  end.

(** The events of one round of startWatchForObject for pods, and for
    services, under the roles endpoints and endpointslices. *)
Definition podsBlock (path : string) : list Event :=
  EvList "pods" path ::
  map (λ p, EvCache "pods" (Pod_key p) "ADDED") (listedPods path) ++
  [EvSpawn "pods" path (podsVersion path)].

Definition servicesBlock (path : string) : list Event :=
  EvList "services" path ::
  map (λ s, EvCache "services" (Service_key s) "ADDED") (listedServices path) ++
  [EvSpawn "services" path (servicesVersion path)].

(** What the pod cache holds for the pods listed under [done]: under the key
    of each, the address of an allocated cell that holds the last item of a
    list response with an item of that key. *)
Definition podsJoined (done : list string) (w : World) : Prop :=
  ∀ path pod, path ∈ done → pod ∈ listedPods path →
    ∃ q path', sc_Pods (w_sc w) !! Pod_key pod = Some q ∧ (q < w_next w)%nat ∧
               path' ∈ done ∧ Pod_key pod ∈ map Pod_key (listedPods path') ∧
               last (listedPods path') = Some (w_heap w q).

(** What the service cache holds for the services listed under [done]: under
    the key of each, the last item of a list response with an item of that
    key. *)
Definition servicesJoined (done : list string) (w : World) : Prop :=
  ∀ path svc, path ∈ done → svc ∈ listedServices path →
    ∃ svc' path', sc_Services (w_sc w) !! Service_key svc = Some svc' ∧
                  path' ∈ done ∧
                  Service_key svc ∈ map Service_key (listedServices path') ∧
                  last (listedServices path') = Some svc'.

End OrchestratorSpec.

(** ** A small cluster for the examples *)

Definition exPod1Modified : Pod := exPod "ns1" "p1" "10.0.0.9" [exPort "http" 8080; exPort "" 9090].

Definition exSlice : EndpointSlice := {| es_Metadata := exMeta "ns1" "svc1-abcde" |}.

(** Bodies are tokens that name what they decode to: a list request answers
    with its own path, and the object of a watch frame is a name. *)
#[global] Instance exCluster : Cluster := {|
  getBlockingAPIResponse path := Some path;
  parsePodList data :=
    if decide (data = "/api/v1/pods") then Some ([exPod1; exPod2], "rv-pods") else None;
  parseNodeList _ := None;
  parseServiceList data :=
    if decide (data = "/api/v1/services") then Some ([exService], "rv-services") else None;
  parseEndpointsList data :=
    if decide (data = "/api/v1/endpoints") then Some ([exEndpointsTwoPods], "rv-endpoints")
    else None;
  parseIngressList _ := None;
  parseEndpointSlicesList data :=
    if decide (data = "/apis/discovery.k8s.io/v1beta1/endpointslices")
    then Some ([exSlice], "rv-slices") else None;
  unmarshalPod obj := if decide (obj = "pod ns1/p1") then Some exPod1Modified else None;
  unmarshalNode _ := None;
  unmarshalService _ := None;
  unmarshalEndpoints _ := None;
  unmarshalIngress _ := None;
  unmarshalEndpointSlice obj := if decide (obj = "slice ns1/svc1-abcde") then Some exSlice else None;
  Pod_appendTargetLabels _ := [];
  Node_appendTargetLabels _ := [];
  Service_appendTargetLabels _ := [];
  Ingress_appendTargetLabels _ := [];
  EndpointSlice_appendTargetLabels _ _ _ _ := [] |}.

Definition exConfig : apiConfig :=
  {| cfg_setName := "job1"; cfg_namespaces := []; cfg_query := λ _, "" |}.

(** Scenario S4: the endpoints ns1/svc1, which name the pod ns1/p1, and the
    pod are cached. *)
Definition exWorldS4 : World :=
  {| w_sc := {| sc_Pods := {[ "ns1/p1" := 0%nat ]}; sc_Services := ∅;
                sc_Endpoints := {[ "ns1/svc1" := exEndpoints ]};
                sc_EndpointsSlices := ∅ |};
     w_heap := λ _, exPod1; w_next := 1%nat; w_ms := None; w_trace := [] |}.

(** An event of the last phase of the roles endpoints and endpointslices, run
    over the pod cache [pods], the heap and the service cache [svcs]: it is
    about the kind [objectName] itself, or a call of a process function, or
    an event sent with the targets built from these caches. *)
Definition phase3Event `{W : LabelWriters} (ordEv : nat → rangeOrder)
    (pods : gmap string ptr) (heap : ptr → Pod) (svcs : gmap string Service)
    (objectName : string) (e : Event) : Prop :=
  match e with
  | EvList o _ | EvSpawn o _ _ | EvCache o _ _ => o = objectName
  | EvSend s => ∃ n ep, se_Labels s = appendTargetLabels (ordEv n) ep None pods heap svcs
  | EvCall _ _ _ => True
  end.

(** The two worlds hold the same pods and services. *)
Definition sameJoin (w w' : World) : Prop :=
  sc_Pods (w_sc w') = sc_Pods (w_sc w) ∧
  sc_Services (w_sc w') = sc_Services (w_sc w) ∧
  w_heap w' = w_heap w.

(** A step of the last phase: the pods and services stay as they are, and the
    events added are events of that phase over them. *)
Definition phase3Step `{W : LabelWriters} (ordEv : nat → rangeOrder) (objectName : string)
    (w w' : World) : Prop :=
  sameJoin w w' ∧
  ∃ t, w_trace w' = w_trace w ++ t ∧
       Forall (phase3Event ordEv (sc_Pods (w_sc w)) (w_heap w) (sc_Services (w_sc w))
                 objectName) t.

(** ** The watch client *)

(** The errors the watch client tells apart. *)
Inductive error :=
  | Canceled                 (** context.Canceled *)
  | EOF                      (** io.EOF *)
  | ErrShortBuffer           (** io.ErrShortBuffer *)
  | ErrShortBufferZero       (** "got short buffer with n=0, cap=..." *)
  | ErrOther (msg : string).

#[global] Instance error_eq_dec : EqDecision error.
Proof. solve_decision. Defined.

(** A time.Duration counts nanoseconds in an int64. *)
Definition wrapInt64 (x : Z) : Z := (x + 2 ^ 63) mod 2 ^ 64 - 2 ^ 63.

Definition Second : Z := 1000000000.

Definition maxBackOff : Z := wrapInt64 (Second * 30).

(** What a run of startWatchForResource does, in order. *)
Inductive WatchEvent :=
  | WStream (path resourceVersion : string)
      (** [wc.getStreamAPIResponse(ctx, path, initResourceVersion, wh)] *)
  | WLog (err : error)
      (** [logger.Errorf("got unexpected error : %v", err)] *)
  | WSleep (d : Z)
      (** [time.Sleep(backoff)] *)
  | WDone
      (** the deferred [wc.wg.Done()] *).

(** The loop of startWatchForResource. getStreamAPIResponse only returns with
    an error; [outcomes] lists the errors of its successive calls, and the run
    is followed for as long as the list lasts. *)
Fixpoint watchLoop (outcomes : list error) (path initResourceVersion : string)
    (backoff : Z) : list WatchEvent :=
  match outcomes with
  | [] => []
  | err :: outcomes' =>
      WStream path initResourceVersion ::
      if decide (err = Canceled) then [WDone]
      else
        (if decide (err = EOF) then [] else [WLog err]) ++
        let backoff :=
          if decide (backoff < maxBackOff) then wrapInt64 (backoff + wrapInt64 (Second * 5))
          else backoff in
        WSleep backoff :: watchLoop outcomes' path "" backoff
  end.

Definition startWatchForResource (outcomes : list error) (path initResourceVersion : string)
    : list WatchEvent :=
  watchLoop outcomes (path +:+ "?watch=1") initResourceVersion Second.

(** The durations slept, oldest first. *)
Definition sleeps (evs : list WatchEvent) : list Z :=
  omap (λ e, match e with WSleep d => Some d | _ => None end) evs.

(** The backoff of the claim, in the spec's words: it starts at 1 s, grows by
    5 s per attempt and is capped at 30 s. *)
Definition claimedBackoff (attempt : nat) : Z :=
  Z.min (1 + 5 * Z.of_nat attempt) 30 * Second.

(** ** The framed reader *)

Abbreviation byte := Byte.byte.

(** [r.Read(b[offset:])] stores the bytes read at [offset]. *)
Definition writeAt (b : list byte) (offset : nat) (data : list byte) : list byte :=
  take offset b ++ data ++ drop (offset + length data) b.

(** Modelled from the spec: bytesutil.Resize is declared outside these files;
    the buffer is doubled and the bytes already read are carried (section
    4.2). *)
Definition Resize (b : list byte) (n : nat) : list byte :=
  take n (b ++ replicate (n - length b) Byte.x00).

Section Reader.
(** An io.Reader: [Read r len] is what a call with a buffer of length [len]
    reads, the error it returns and the reader afterwards. *)
Context {R : Type} (Read : R → nat → list byte * option error * R).

(** readJSONObject; the loop runs for at most [fuel] reads. *)
Fixpoint readJSONObject_loop (fuel : nat) (r : R) (b : list byte) (offset : nat)
    : option (R * (list byte + error)) :=
  match fuel with
  | O => None
  | S fuel' =>
      let res := Read r (length b - offset) in
      let n := length res.1.1 in
      let b' := writeAt b offset res.1.1 in
      match res.1.2 with
      | Some ErrShortBuffer =>
          if decide (n = 0)%nat then Some (res.2, inr ErrShortBufferZero)
          else readJSONObject_loop fuel' res.2 (Resize b' (length b * 2)) (offset + n)
      | Some err => Some (res.2, inr err)
      | None => Some (res.2, inl (take (offset + n) b'))
      end
  end.

Definition readJSONObject (fuel : nat) (r : R) (b : list byte)
    : option (R * (list byte + error)) :=
  readJSONObject_loop fuel r b 0.

(** The loop of getStreamAPIResponse once the stream is open: a buffer of
    1024 bytes per frame, a frame that does not decode is logged and skipped,
    a decoded frame goes to the watch handler; [handled] lists the frames
    handed to the handler so far. *)
Fixpoint getStreamAPIResponse_loop (unmarshal : list byte → option watchResponse)
    (fuel : nat) (r : R) (handled : list watchResponse)
    : option (list watchResponse * error) :=
  match fuel with
  | O => None
  | S fuel' =>
      match readJSONObject fuel' r (replicate 1024 Byte.x00) with
      | None => None
      | Some (_, inr err) => Some (handled, err)
      | Some (r', inl b) =>
          match unmarshal b with
          | None => getStreamAPIResponse_loop unmarshal fuel' r' handled
          | Some wr => getStreamAPIResponse_loop unmarshal fuel' r' (handled ++ [wr])
          end
      end
  end.

End Reader.

(** Modelled from the spec: newJSONFramedReader is declared outside these
    files. The reader hands out one JSON object per call; an object longer
    than the buffer fills the buffer and signals a short buffer, and the rest
    of the object comes with the following calls; the end of the stream is
    surfaced as the error the stream ends with (sections 2 and 4.2). *)
Record framedReader := {
  fr_remaining : list byte;
  fr_frames : list (list byte);
  fr_end : error }.

Definition framedRead (r : framedReader) (len : nat)
    : list byte * option error * framedReader :=
  match fr_remaining r with
  | _ :: _ =>
      if decide (length (fr_remaining r) ≤ len)%nat
      then (fr_remaining r, None,
            {| fr_remaining := []; fr_frames := fr_frames r; fr_end := fr_end r |})
      else (take len (fr_remaining r), Some ErrShortBuffer,
            {| fr_remaining := drop len (fr_remaining r); fr_frames := fr_frames r;
               fr_end := fr_end r |})
  | [] =>
      match fr_frames r with
      | [] => ([], Some (fr_end r), r)
      | m :: frames =>
          if decide (length m ≤ len)%nat
          then (m, None, {| fr_remaining := []; fr_frames := frames; fr_end := fr_end r |})
          else (take len m, Some ErrShortBuffer,
                {| fr_remaining := drop len m; fr_frames := frames; fr_end := fr_end r |})
      end
  end.

(** The framed reader over a stream of frames that ends with [e]. *)
Definition newJSONFramedReader (frames : list (list byte)) (e : error) : framedReader :=
  {| fr_remaining := []; fr_frames := frames; fr_end := e |}.

(** A reader that signals a short buffer without reading anything. *)
Definition stuckRead (r : unit) (len : nat) : list byte * option error * unit :=
  ([], Some ErrShortBuffer, r).

(** ** Further notions: the builder *)

Section BuilderMore.
Context `{W : LabelWriters}.

(** The target of a pass-1 iteration that finds no pod: the skeleton with the
    service and the endpoints metadata written over it. *)
Definition plainTarget (eps : Endpoints) (svc : option Service)
    (t : EndpointAddress * EndpointPort * string) : labelMap :=
  setAll (endpointsWrites eps)
    (setAll (serviceWrites svc) (getEndpointLabels (eps_Metadata eps) t.1.1 t.1.2 t.2)).

End BuilderMore.

(** ** Further notions: the orchestrator *)

(** The requests of a run that reach the API server: list requests and watch
    starts, without the resource version. *)
Inductive Request :=
  | ReqList (objectName path : string)
  | ReqSpawn (objectName path : string).

Definition requestOf (e : Event) : option Request :=
  match e with
  | EvList o p => Some (ReqList o p)
  | EvSpawn o p _ => Some (ReqSpawn o p)
  | _ => None
  end.

(** The kinds that startWatcherByRole watches under a role, in the order of
    its calls of startWatchForObject. *)
Definition kindsOfRole (role : string) : list string :=
  if decide (role = "pod") then ["pods"]
  else if decide (role = "node") then ["nodes"]
  else if decide (role = "endpoints") then ["pods"; "services"; "endpoints"]
  else if decide (role = "service") then ["services"]
  else if decide (role = "ingress") then ["ingresses"]
  else if decide (role = "endpointslices") then ["pods"; "services"; "endpointslices"]
  else [].

(** The world [w'] is [w] after the events [t], whose requests are [rs]. *)
Definition tracedStep (rs : list Request) (w w' : World) : Prop :=
  ∃ t, w_trace w' = w_trace w ++ t ∧ omap requestOf t = rs.

(** The world [w'] is [w] with the events [t] added and nothing else changed
    in the caches or in the targets collected. *)
Definition onlyTrace (t : list Event) (w w' : World) : Prop :=
  w_trace w' = w_trace w ++ t ∧ w_sc w' = w_sc w ∧ w_ms w' = w_ms w.

Section OrchestratorMore.
Context `{C : Cluster}.

Definition listedEndpoints (path : string) : list Endpoints :=
  match parseEndpointsList (default "" (getBlockingAPIResponse path)) with
  | Some (items, _) => items
  | None => []
  end.

End OrchestratorMore.

(** The event processEndpoints sends for an ADDED or MODIFIED action over the
    pods, the heap and the services given. *)
Definition endpointsEvent `{W : LabelWriters} (ord : rangeOrder) (setName : string)
    (pods : gmap string ptr) (heap : ptr → Pod) (svcs : gmap string Service)
    (ep : Endpoints) : SyncEvent :=
  {| se_Key := buildSyncKey "endpoints" setName (Endpoints_key ep);
     se_Labels := appendTargetLabels ord ep None pods heap svcs;
     se_ConfigSectionSet := setName |}.

(** A cluster whose API server answers no request and whose decoders reject
    every body. *)
Definition downCluster : Cluster := {|
  getBlockingAPIResponse _ := None;
  parsePodList _ := None;
  parseNodeList _ := None;
  parseServiceList _ := None;
  parseEndpointsList _ := None;
  parseIngressList _ := None;
  parseEndpointSlicesList _ := None;
  unmarshalPod _ := None;
  unmarshalNode _ := None;
  unmarshalService _ := None;
  unmarshalEndpoints _ := None;
  unmarshalIngress _ := None;
  unmarshalEndpointSlice _ := None;
  Pod_appendTargetLabels _ := [];
  Node_appendTargetLabels _ := [];
  Service_appendTargetLabels _ := [];
  Ingress_appendTargetLabels _ := [];
  EndpointSlice_appendTargetLabels _ _ _ _ := [] |}.

(** The events the bootstrap of the role endpoints sends for the Endpoints
    objects [eps] when [n] events have been sent before: one per object, in
    order, each under the order of its own call of processEndpoints. *)
Definition bootstrapEvents `{W : LabelWriters} (ordEv : nat → rangeOrder) (setName : string)
    (pods : gmap string ptr) (heap : ptr → Pod) (svcs : gmap string Service)
    (n : nat) (eps : list Endpoints) : list SyncEvent :=
  imap (λ i, endpointsEvent (ordEv (n + i)%nat) setName pods heap svcs) eps.

(** The targets the same bootstrap collects for the slice it returns: those of
    each object, in order, each under the order of its direct call of
    appendTargetLabels. *)
Definition bootstrapTargets `{W : LabelWriters} (ordMs : nat → rangeOrder)
    (pods : gmap string ptr) (heap : ptr → Pod) (svcs : gmap string Service)
    (n : nat) (eps : list Endpoints) : list labelMap :=
  concat (imap (λ i ep, elems (appendTargetLabels (ordMs (n + i)%nat) ep None pods heap svcs))
               eps).

(** The world [w'] is [w] after the bootstrap of the Endpoints objects [eps]:
    the pods and services are as before, one event per object has been sent,
    in order, and the targets of each have been collected. *)
Definition bootstrapStep `{W : LabelWriters} (ordMs ordEv : nat → rangeOrder)
    (setName : string) (eps : list Endpoints) (w w' : World) : Prop :=
  sameJoin w w' ∧
  sent w' = sent w ++
            bootstrapEvents ordEv setName (sc_Pods (w_sc w)) (w_heap w) (sc_Services (w_sc w))
              (length (sent w)) eps ∧
  w_ms w' = go_appends (w_ms w)
              (bootstrapTargets ordMs (sc_Pods (w_sc w)) (w_heap w) (sc_Services (w_sc w))
                 (length (sent w)) eps).

(** ** Further notions: the watch client *)

(** The calls of getStreamAPIResponse of a run: path and resource version. *)
Definition streamCalls (evs : list WatchEvent) : list (string * string) :=
  omap (λ e, match e with WStream p v => Some (p, v) | _ => None end) evs.

(** The errors a run logs. *)
Definition logged (evs : list WatchEvent) : list error :=
  omap (λ e, match e with WLog err => Some err | _ => None end) evs.

(** The URL getStreamAPIResponse requests: the resource version is added to
    the path when it is not empty, and the result follows the address of the
    API server. *)
Definition streamRequestURL (apiServer path resouceVersion : string) : string :=
  apiServer +:+
  (if decide (resouceVersion ≠ "") then path +:+ "&resourceVersion=" +:+ resouceVersion
   else path).

Section ReaderMore.
Context {R : Type} (Read : R → nat → list byte * option error * R).

(** The chunks that the reads of readJSONObject return while the reader
    signals a short buffer, up to and including the chunk of the read that
    ends the loop without an error; [len] is the length of the buffer. *)
Fixpoint readChunks (fuel : nat) (r : R) (len offset : nat) : list (list byte) :=
  match fuel with
  | O => []
  | S fuel' =>
      let res := Read r (len - offset) in
      match res.1.2 with
      | Some ErrShortBuffer =>
          if decide (length res.1.1 = 0)%nat then []
          else res.1.1 :: readChunks fuel' res.2 (len * 2) (offset + length res.1.1)
      | Some _ => []
      | None => [res.1.1]
      end
  end.

End ReaderMore.

(** A reader that hands out the bytes of a list, at most [k] per read, and
    signals a short buffer while bytes are left. *)
Definition slowRead (k : nat) (r : list byte) (len : nat)
    : list byte * option error * list byte :=
  let n := Nat.min k len in
  if decide (length r ≤ n)%nat then (r, None, [])
  else (take n r, Some ErrShortBuffer, drop n r).

(** An object of eight bytes, for a run of the reader above. *)
Definition exObject : list byte :=
  [Byte.x7b; Byte.x22; Byte.x61; Byte.x22; Byte.x3a; Byte.x31; Byte.x32; Byte.x7d].

(** ** Keys *)

(** The string holds no slash. *)
Fixpoint noSlash (s : string) : bool :=
  match s with
  | EmptyString => true
  | String a s' => negb (Ascii.eqb a "/") && noSlash s'
  end.

(** ** newWatchClient *)

Definition Minute : Z := 60 * Second.

Section NewWatchClient.
(** The types of promauth, net/http and sync the function passes around:
    basic-auth settings, TLS settings, the auth config built from them, the
    TLS config of the transport, a proxy URL, a wait group. *)
Context {BasicAuthConfig TLSConfig AuthConfig AuthError TLSClientConfig URL WaitGroup : Type}.

Record SDConfig := {
  sdc_APIServer : string;
  sdc_BasicAuth : option BasicAuthConfig;
  sdc_BearerToken : string;
  sdc_BearerTokenFile : string;
  sdc_TLSConfig : option TLSConfig;
  sdc_ProxyURL : option URL
}.

Record Transport := {
  tr_TLSClientConfig : TLSClientConfig;
  tr_Proxy : option URL;
  tr_TLSHandshakeTimeout : Z;
  tr_IdleConnTimeout : Z
}.

Record watchClient := {
  wc_c : Transport;
  wc_apiServer : string;
  wc_ac : AuthConfig;
  wc_wg : WaitGroup
}.

(** The errors of newWatchClient, by the message they carry. *)
Inductive clientError :=
  | ErrParseAuthConfig (err : AuthError)
  | ErrNoServiceHost
  | ErrNoServicePort (host : string)
  | ErrServiceAccountAuth (err : AuthError).

(** promauth.NewConfig, which fails on settings it cannot load; the TLS
    settings whose only field set is the CA file; ac.NewTLSConfig;
    os.Getenv; net.JoinHostPort. *)
Variable NewConfig :
  string → option BasicAuthConfig → string → string → option TLSConfig →
  AuthConfig + AuthError.
Variable caFileOnly : string → TLSConfig.
Variable NewTLSConfig : AuthConfig → TLSClientConfig.
Variable Getenv : string → string.
Variable net_JoinHostPort : string → string → string.

Definition newWatchClient (wg : WaitGroup) (sdc : SDConfig) (baseDir : string)
    : watchClient + clientError :=
  match NewConfig baseDir (sdc_BasicAuth sdc) (sdc_BearerToken sdc)
          (sdc_BearerTokenFile sdc) (sdc_TLSConfig sdc) with
  | inr err => inr (ErrParseAuthConfig err)
  | inl ac =>
      let finish (apiServer : string) (ac : AuthConfig) : watchClient + clientError :=
        inl {| wc_c := {| tr_TLSClientConfig := NewTLSConfig ac;
                          tr_Proxy := sdc_ProxyURL sdc;
                          tr_TLSHandshakeTimeout := 10 * Second;
                          tr_IdleConnTimeout := 2 * Minute |};
               wc_apiServer := apiServer;
               wc_ac := ac;
               wc_wg := wg |} in
      if decide (String.length (sdc_APIServer sdc) = 0%nat) then
        let host := Getenv "KUBERNETES_SERVICE_HOST" in
        let port := Getenv "KUBERNETES_SERVICE_PORT" in
        if decide (String.length host = 0%nat) then inr ErrNoServiceHost
        else if decide (String.length port = 0%nat) then inr (ErrNoServicePort host)
        else
          match NewConfig "." None "" "/var/run/secrets/kubernetes.io/serviceaccount/token"
                  (Some (caFileOnly "/var/run/secrets/kubernetes.io/serviceaccount/ca.crt")) with
          | inr err => inr (ErrServiceAccountAuth err)
          | inl acNew => finish ("https://" +:+ net_JoinHostPort host port) acNew
          end
      else finish (sdc_APIServer sdc) ac
  end.

End NewWatchClient.

Arguments SDConfig : clear implicits.
Arguments Transport : clear implicits.
Arguments watchClient : clear implicits.
Arguments clientError : clear implicits.

(** A setting for newWatchClient: auth configs are the bearer token file they
    were built from, and loading never fails. *)
Definition exNewConfig (baseDir : string) (ba : option unit) (token tokenFile : string)
    (tls : option string) : string + unit :=
  inl tokenFile.

Definition exSDConfig : SDConfig unit string string :=
  {| sdc_APIServer := "";
     sdc_BasicAuth := None;
     sdc_BearerToken := "";
     sdc_BearerTokenFile := "/etc/token";
     sdc_TLSConfig := None;
     sdc_ProxyURL := None |}.

Definition exGetenv (name : string) : string :=
  if decide (name = "KUBERNETES_SERVICE_HOST") then "10.0.0.1"
  else if decide (name = "KUBERNETES_SERVICE_PORT") then "443"
  else "".

Definition exSDConfigExplicit : SDConfig unit string string :=
  {| sdc_APIServer := "https://k8s.example:6443";
     sdc_BasicAuth := None;
     sdc_BearerToken := "";
     sdc_BearerTokenFile := "/etc/token";
     sdc_TLSConfig := None;
     sdc_ProxyURL := None |}.

(** ** The watch URL of a kind with selectors *)

(** The configuration without its selectors. *)
Definition withoutSelectors (cfg : apiConfig) : apiConfig :=
  {| cfg_setName := cfg_setName cfg;
     cfg_namespaces := cfg_namespaces cfg;
     cfg_query := λ _, "" |}.

(** A configuration whose selectors give a query for pods only. *)
Definition exConfigSelectors : apiConfig :=
  {| cfg_setName := "job1";
     cfg_namespaces := [];
     cfg_query := λ objectName,
       if decide (objectName = "pods") then "labelSelector=app%3Dweb" else "" |}.


(** * Properties *)

(** ** Slices *)

Lemma elems_go_append {A} (s : slice A) x : elems (go_append s x) = elems s ++ [x].
Proof. reflexivity. Qed.

Lemma go_appends_snoc {A} (s : slice A) xs x :
  go_appends s (xs ++ [x]) = go_append (go_appends s xs) x.
Proof. unfold go_appends. by rewrite foldl_app. Qed.

Lemma go_appends_app {A} (s : slice A) xs ys :
  go_appends s (xs ++ ys) = go_appends (go_appends s xs) ys.
Proof. unfold go_appends. by rewrite foldl_app. Qed.

Lemma elems_go_appends {A} (s : slice A) xs : elems (go_appends s xs) = elems s ++ xs.
Proof.
  revert s. induction xs as [|x xs IH]; intros s; simpl.
  - by rewrite app_nil_r.
  - change (elems (go_appends (go_append s x) xs) = elems s ++ x :: xs).
    rewrite IH, elems_go_append, <- app_assoc. reflexivity.
Qed.

Lemma go_appends_cons {A} (s : slice A) x xs :
  go_appends s (x :: xs) = Some (elems s ++ x :: xs).
Proof.
  revert s x. induction xs as [|y ys IH]; intros s x.
  - reflexivity.
  - change (go_appends (go_append s x) (y :: ys) = Some (elems s ++ x :: y :: ys)).
    rewrite IH, elems_go_append, <- app_assoc. reflexivity.
Qed.

Lemma go_appends_nil_iff {A} (s : slice A) xs :
  go_appends s xs = None ↔ s = None ∧ xs = [].
Proof.
  destruct xs as [|x xs].
  - unfold go_appends; simpl. naive_solver.
  - rewrite go_appends_cons. naive_solver.
Qed.

(** A loop that appends a target or skips the element is one bulk append. *)
Lemma foldl_go_append_flat_map {A B} (f : B → list A) (g : slice A → B → slice A)
    (Hg : ∀ s b, g s b = go_appends s (f b)) (s : slice A) (bs : list B) :
  foldl g s bs = go_appends s (flat_map f bs).
Proof.
  revert s. induction bs as [|b bs IH]; intros s; simpl; [done|].
  by rewrite IH, Hg, go_appends_app.
Qed.

(** ** Label assignments *)

Lemma setAll_lookup kvs (m : labelMap) k :
  setAll kvs m !! k = match lastWrite k kvs with Some v => Some v | None => m !! k end.
Proof.
  revert m. induction kvs as [|[k' v'] kvs IH]; intros m; simpl; [done|].
  unfold setAll in *; simpl. rewrite IH.
  destruct (lastWrite k kvs); [done|].
  rewrite lookup_insert. simpl. repeat case_decide; congruence.
Qed.

Lemma lastWrite_Some k kvs v : lastWrite k kvs = Some v → (k, v) ∈ kvs.
Proof.
  induction kvs as [|[k' v'] kvs IH]; simpl; [done|].
  destruct (lastWrite k kvs) eqn:E.
  - intros [= <-]. right. by apply IH.
  - case_decide; [|done]. intros [= <-]. simpl in *. subst. left.
Qed.

Lemma lastWrite_None k kvs : lastWrite k kvs = None ↔ k ∉ kvs.*1.
Proof.
  induction kvs as [|[k' v'] kvs IH]; simpl.
  - split; [intros _; apply not_elem_of_nil|done].
  - rewrite not_elem_of_cons. destruct (lastWrite k kvs) eqn:E.
    + split; [done|]. intros [_ Hn]. apply IH in Hn. done.
    + case_decide; simpl in *; split; try done; try naive_solver.
Qed.

Lemma setAll_app kvs1 kvs2 (m : labelMap) :
  setAll (kvs1 ++ kvs2) m = setAll kvs2 (setAll kvs1 m).
Proof. unfold setAll. by rewrite foldl_app. Qed.

(** ** Pass 1 *)

Section BuilderFacts.
Context `{W : LabelWriters}.

Lemma containerPortsLoop_fst p pod c epp cps m s s' :
  (containerPortsLoop p pod c epp cps (m, s)).1 = (containerPortsLoop p pod c epp cps (m, s')).1.
Proof. induction cps as [|cp cps IH]; simpl; [done|]. by case_bool_decide. Qed.

Lemma containerPortsLoop_snd p pod c epp cps m s :
  (containerPortsLoop p pod c epp cps (m, s)).2 =
  if existsb (λ cp, bool_decide (cp_ContainerPort cp = epp_Port epp)) cps
  then <[p := default [] (s !! p) ++ [epp_Port epp]]> s else s.
Proof.
  induction cps as [|cp cps IH]; simpl; [done|].
  case_bool_decide as E; simpl; [by rewrite E|done].
Qed.

Lemma containers_fold_fst p pod epp cs m s s' :
  (foldl (λ st c, containerPortsLoop p pod c epp (c_Ports c) st) (m, s) cs).1 =
  (foldl (λ st c, containerPortsLoop p pod c epp (c_Ports c) st) (m, s') cs).1.
Proof.
  revert m s s'. induction cs as [|c cs IH]; intros m s s'; simpl; [done|].
  destruct (containerPortsLoop p pod c epp (c_Ports c) (m, s)) as [m1 s1] eqn:E1.
  destruct (containerPortsLoop p pod c epp (c_Ports c) (m, s')) as [m2 s2] eqn:E2.
  assert (m1 = m2) as ->.
  { change m1 with (m1, s1).1. rewrite <- E1. change m2 with (m2, s2).1. rewrite <- E2.
    apply containerPortsLoop_fst. }
  apply IH.
Qed.

Lemma containers_fold_seenOf p pod epp cs m s R :
  seenOf R s →
  seenOf (λ q, R q ++ if decide (q = p)
                      then flat_map (λ c, if hasPort c (epp_Port epp) then [epp_Port epp] else []) cs
                      else [])
         (foldl (λ st c, containerPortsLoop p pod c epp (c_Ports c) st) (m, s) cs).2.
Proof.
  revert m s R. induction cs as [|c cs IH]; intros m s R HR; simpl.
  - intros q. rewrite HR. case_decide; by rewrite app_nil_r.
  - destruct (containerPortsLoop p pod c epp (c_Ports c) (m, s)) as [m1 s1] eqn:E1.
    assert (Hs1 : s1 = (containerPortsLoop p pod c epp (c_Ports c) (m, s)).2) by (by rewrite E1).
    rewrite containerPortsLoop_snd in Hs1. fold (hasPort c (epp_Port epp)) in Hs1.
    specialize (IH m1 s1 (λ q, R q ++ if decide (q = p)
                   then (if hasPort c (epp_Port epp) then [epp_Port epp] else []) else [])).
    intros q. rewrite IH.
    + case_decide; [|by rewrite !app_nil_r]. by rewrite <- app_assoc.
    + intros q'. rewrite Hs1. destruct (hasPort c (epp_Port epp)).
      * rewrite lookup_insert. case_decide as Eq.
        -- subst q'. rewrite decide_True by done. rewrite HR.
           destruct (R p); simpl; done.
        -- rewrite decide_False by done. by rewrite app_nil_r, HR.
      * rewrite HR. case_decide; by rewrite app_nil_r.
Qed.

Lemma getEndpointLabelsForAddressAndPort_fst seen heap eps ea epp p svc ready :
  (getEndpointLabelsForAddressAndPort seen heap eps ea epp p svc ready).1 =
  (getEndpointLabelsForAddressAndPort ∅ heap eps ea epp p svc ready).1.
Proof.
  unfold getEndpointLabelsForAddressAndPort. destruct p as [pp|]; [|done].
  case_decide; [done|]. apply containers_fold_fst.
Qed.

Lemma seenStep_seenOf podsCache heap eps svc seen t R :
  seenOf R seen →
  seenOf (λ q, R q ++ pairHits podsCache heap t q) (seenStep podsCache heap eps svc seen t).
Proof.
  intros HR. unfold seenStep, getEndpointLabelsForAddressAndPort.
  destruct t as [[ea epp] ready]; simpl.
  assert (Hno : ∀ q, ¬ refersTo podsCache ea q →
            seen !! q = optList (R q ++ pairHits podsCache heap (ea, epp, ready) q)).
  { intros q Hn. unfold pairHits; simpl. rewrite decide_False by done.
    by rewrite app_nil_r. }
  destruct (podsCache !! ObjectReference_key (ea_TargetRef ea)) as [pp|] eqn:Ep.
  - case_decide as Ek.
    + intros q. simpl. apply Hno. unfold refersTo. naive_solver.
    + intros q.
      rewrite (containers_fold_seenOf _ _ _ _ _ _ R HR q).
      unfold pairHits; simpl.
      destruct (decide (q = pp)) as [->|Hne].
      * rewrite decide_True by done. done.
      * rewrite decide_False; [done|]. unfold refersTo. naive_solver.
  - intros q. simpl. apply Hno. unfold refersTo. naive_solver.
Qed.

Lemma foldl_seenStep_seenOf podsCache heap eps svc ts seen R :
  seenOf R seen →
  seenOf (λ q, R q ++ flat_map (λ t, pairHits podsCache heap t q) ts)
         (foldl (seenStep podsCache heap eps svc) seen ts).
Proof.
  revert seen R. induction ts as [|t ts IH]; intros seen R HR; simpl.
  - intros q. by rewrite app_nil_r.
  - intros q. rewrite (IH _ _ (seenStep_seenOf podsCache heap eps svc seen t R HR) q).
    by rewrite <- app_assoc.
Qed.

Lemma appendEndpointLabelsForAddresses_eq ms seen heap eps eas epp podsCache svc ready :
  appendEndpointLabelsForAddresses ms seen heap eps eas epp podsCache svc ready =
  (go_appends ms (map (endpointTarget podsCache heap eps svc) (map (λ ea, (ea, epp, ready)) eas)),
   foldl (seenStep podsCache heap eps svc) seen (map (λ ea, (ea, epp, ready)) eas)).
Proof.
  unfold appendEndpointLabelsForAddresses.
  revert ms seen. induction eas as [|ea eas IH]; intros ms seen; simpl; [done|].
  rewrite IH. unfold endpointTarget at 2. simpl.
  rewrite getEndpointLabelsForAddressAndPort_fst. reflexivity.
Qed.

End BuilderFacts.

Section BuilderShape.
Context `{W : LabelWriters}.

(** Pass 1 as a whole: one target per iteration, and the recorded ports. *)
Lemma pass1_eq ms heap eps podsCache svc :
  foldl (λ st ess,
           foldl (λ st epp,
                    let st := appendEndpointLabelsForAddresses st.1 st.2 heap eps
                                (ess_Addresses ess) epp podsCache svc "true" in
                    appendEndpointLabelsForAddresses st.1 st.2 heap eps
                      (ess_NotReadyAddresses ess) epp podsCache svc "false")
                 st (ess_Ports ess))
        (ms, ∅) (eps_Subsets eps) =
  (go_appends ms (map (endpointTarget podsCache heap eps svc) (pass1Pairs eps)),
   foldl (seenStep podsCache heap eps svc) ∅ (pass1Pairs eps)).
Proof.
  unfold pass1Pairs. generalize (∅ : gmap nat (list Z)) as seen. revert ms.
  induction (eps_Subsets eps) as [|ess sss IH]; intros ms seen; simpl; [done|].
  rewrite map_app, go_appends_app, foldl_app.
  match goal with |- foldl ?f (foldl ?g _ _) _ = _ =>
    assert (Hports : ∀ epps ms seen,
      foldl g (ms, seen) epps =
      (go_appends ms (map (endpointTarget podsCache heap eps svc)
         (flat_map (λ epp, map (λ ea, (ea, epp, "true")) (ess_Addresses ess) ++
                           map (λ ea, (ea, epp, "false")) (ess_NotReadyAddresses ess)) epps)),
       foldl (seenStep podsCache heap eps svc) seen
         (flat_map (λ epp, map (λ ea, (ea, epp, "true")) (ess_Addresses ess) ++
                           map (λ ea, (ea, epp, "false")) (ess_NotReadyAddresses ess)) epps)))
  end.
  { induction epps as [|epp epps IHp]; intros ms' seen'; simpl; [done|].
    rewrite !appendEndpointLabelsForAddresses_eq. simpl.
    rewrite IHp. rewrite !map_app, !go_appends_app, !foldl_app. reflexivity. }
  rewrite Hports. apply IH.
Qed.

Lemma pass1_seen heap eps podsCache svc :
  seenOf (portsHit podsCache heap eps)
         (foldl (seenStep podsCache heap eps svc) ∅ (pass1Pairs eps)).
Proof.
  intros q.
  rewrite (foldl_seenStep_seenOf podsCache heap eps svc (pass1Pairs eps) ∅ (λ _, [])); [done|].
  intros q'. by rewrite lookup_empty.
Qed.

(** Pass 2 for one pod of podPortsSeen. *)
Lemma pass2_pod_eq ms pod ports svc :
  foldl (λ ms c,
           foldl (λ ms cp,
                    if portSeen (cp_ContainerPort cp) ports then ms
                    else go_append ms (skippedPortLabels pod c cp svc))
                 ms (c_Ports c))
        ms (pspec_Containers (pod_Spec pod)) =
  go_appends ms (skippedTargets pod ports svc).
Proof.
  unfold skippedTargets, containerPorts.
  generalize (pspec_Containers (pod_Spec pod)) as cs. intros cs. revert ms.
  induction cs as [|c cs IH]; intros ms; simpl; [done|].
  rewrite flat_map_app, go_appends_app, IH. f_equal.
  generalize (c_Ports c) as cps. intros cps. revert ms. clear IH.
  induction cps as [|cp cps IH]; intros ms; simpl; [done|].
  rewrite IH. destruct (portSeen (cp_ContainerPort cp) ports); simpl; done.
Qed.

Lemma appendTargetLabels_eq ord eps ms podsCache heap servicesCache :
  let svc := servicesCache !! Endpoints_key eps in
  appendTargetLabels ord eps ms podsCache heap servicesCache =
  go_appends ms
    (map (endpointTarget podsCache heap eps svc) (pass1Pairs eps) ++
     flat_map (λ pp, skippedTargets (heap pp.1) pp.2 svc)
       (ord (foldl (seenStep podsCache heap eps svc) ∅ (pass1Pairs eps)))).
Proof.
  intros svc. unfold appendTargetLabels. fold svc. rewrite pass1_eq. simpl.
  rewrite go_appends_app.
  apply foldl_go_append_flat_map. intros s pp. apply pass2_pod_eq.
Qed.

Lemma portSeen_spec port ports : portSeen port ports = true ↔ port ∈ ports.
Proof.
  induction ports as [|p ports IH]; simpl.
  - split; [done|]. intros H. by apply elem_of_nil in H.
  - rewrite elem_of_cons. case_bool_decide; naive_solver.
Qed.

Lemma skippedTargets_length pod ports svc :
  length (skippedTargets pod ports svc) =
  length (filter (λ ccp, cp_ContainerPort ccp.2 ∉ ports) (containerPorts pod)).
Proof.
  unfold skippedTargets. induction (containerPorts pod) as [|ccp l IH]; simpl; [done|].
  rewrite filter_cons. destruct (portSeen (cp_ContainerPort ccp.2) ports) eqn:E.
  - apply portSeen_spec in E. rewrite decide_False by naive_solver. done.
  - rewrite decide_True; [simpl; by rewrite IH|].
    intros Hin. apply portSeen_spec in Hin. congruence.
Qed.

Lemma hasPort_spec c port :
  hasPort c port = true ↔ ∃ cp, cp ∈ c_Ports c ∧ cp_ContainerPort cp = port.
Proof.
  unfold hasPort. rewrite existsb_exists. split.
  - intros (cp & Hin & Hb). exists cp. split; [by apply list_elem_of_In|].
    by apply bool_decide_eq_true in Hb.
  - intros (cp & Hin & Hb). exists cp. split; [by apply list_elem_of_In|].
    by apply bool_decide_eq_true.
Qed.

Lemma containerHits_spec pod port x :
  x ∈ containerHits pod port ↔
  x = port ∧ ∃ c cp, c ∈ pspec_Containers (pod_Spec pod) ∧ cp ∈ c_Ports c ∧
                     cp_ContainerPort cp = port.
Proof.
  unfold containerHits. rewrite list_elem_of_In, in_flat_map. split.
  - intros (c & Hc & Hx). destruct (hasPort c port) eqn:E; [|done].
    destruct Hx as [<-|[]]. split; [done|].
    apply hasPort_spec in E as (cp & ? & ?). exists c, cp. by rewrite list_elem_of_In.
  - intros (-> & c & cp & Hc & Hcp & Hp). exists c. split; [by apply list_elem_of_In|].
    rewrite (proj2 (hasPort_spec c port)); [by left|]. eauto.
Qed.

Lemma portsHit_spec podsCache heap eps q port :
  port ∈ portsHit podsCache heap eps q ↔
  ∃ ea epp ready, (ea, epp, ready) ∈ pass1Pairs eps ∧ refersTo podsCache ea q ∧
    epp_Port epp = port ∧
    ∃ c cp, c ∈ pspec_Containers (pod_Spec (heap q)) ∧ cp ∈ c_Ports c ∧
            cp_ContainerPort cp = port.
Proof.
  unfold portsHit. rewrite list_elem_of_In, in_flat_map. split.
  - intros ([[ea epp] ready] & Hin & Hx). unfold pairHits in Hx. simpl in Hx.
    case_decide as Hr; [|done]. apply list_elem_of_In, containerHits_spec in Hx as [-> Hc].
    exists ea, epp, ready. by rewrite list_elem_of_In.
  - intros (ea & epp & ready & Hin & Hr & <- & Hc). exists (ea, epp, ready).
    split; [by apply list_elem_of_In|]. unfold pairHits. simpl.
    rewrite decide_True by done. apply list_elem_of_In, containerHits_spec. done.
Qed.

End BuilderShape.

Section BuilderClaims.
Context `{W : LabelWriters}.

(** What appendTargetLabels emits, whatever order the range over
    podPortsSeen takes: exactly one target per pass-1 pair (a subset port with
    a ready or not-ready address of that subset), followed, for each pod that
    pass 1 recorded, visited once, by exactly one target per container port of
    the pod that is not among the ports recorded for it. A pod is recorded
    only when it is named by an address of kind Pod, is bound in the pod
    cache, and one of its container ports equals a subset port paired with
    such an address; the recorded ports are those subset ports. A pod that no
    address names, or none of whose container ports matches, gets no pass-2
    target. *)
Theorem appendTargetLabels_targets (ord : rangeOrder) (eps : Endpoints)
    (ms : slice labelMap) (podsCache : gmap string ptr) (heap : ptr → Pod)
    (servicesCache : gmap string Service) :
  rangeAdmissible ord →
  ∃ visited : list ptr,
    NoDup visited ∧
    (∀ q, q ∈ visited ↔ portsHit podsCache heap eps q ≠ []) ∧
    elems (appendTargetLabels ord eps ms podsCache heap servicesCache) =
      elems ms ++
      map (endpointTarget podsCache heap eps (servicesCache !! Endpoints_key eps))
          (pass1Pairs eps) ++
      flat_map (λ q, skippedTargets (heap q) (portsHit podsCache heap eps q)
                       (servicesCache !! Endpoints_key eps)) visited ∧
    (∀ q, length (skippedTargets (heap q) (portsHit podsCache heap eps q)
                    (servicesCache !! Endpoints_key eps)) =
          length (filter (λ ccp, cp_ContainerPort ccp.2 ∉ portsHit podsCache heap eps q)
                         (containerPorts (heap q)))) ∧
    (∀ q port, port ∈ portsHit podsCache heap eps q ↔
       ∃ ea epp ready, (ea, epp, ready) ∈ pass1Pairs eps ∧ refersTo podsCache ea q ∧
         epp_Port epp = port ∧
         ∃ c cp, c ∈ pspec_Containers (pod_Spec (heap q)) ∧ cp ∈ c_Ports c ∧
                 cp_ContainerPort cp = port) ∧
    (∀ q, (∀ ea epp ready, (ea, epp, ready) ∈ pass1Pairs eps → ¬ refersTo podsCache ea q) →
          q ∉ visited).
Proof.
  intros Hord.
  set (svc := servicesCache !! Endpoints_key eps).
  set (seen := foldl (seenStep podsCache heap eps svc) ∅ (pass1Pairs eps)).
  assert (Hseen : seenOf (portsHit podsCache heap eps) seen) by apply pass1_seen.
  assert (Hin : ∀ q ports, (q, ports) ∈ ord seen ↔ seen !! q = Some ports).
  { intros q ports. rewrite (Hord seen). apply elem_of_map_to_list. }
  assert (Hvis : ∀ q, q ∈ (ord seen).*1 ↔ portsHit podsCache heap eps q ≠ []).
  { intros q. rewrite list_elem_of_fmap. split.
    - intros ([q' ports] & -> & Hq). apply Hin in Hq. rewrite Hseen in Hq. simpl in *.
      destruct (portsHit podsCache heap eps q'); [done|congruence].
    - intros Hne. exists (q, portsHit podsCache heap eps q). split; [done|].
      apply Hin. rewrite Hseen. destruct (portsHit podsCache heap eps q); done. }
  exists (ord seen).*1. split_and!.
  - rewrite (Hord seen). apply NoDup_fst_map_to_list.
  - apply Hvis.
  - rewrite appendTargetLabels_eq, elems_go_appends. fold svc seen. do 2 f_equal.
    assert (Hall : ∀ pp, pp ∈ ord seen → pp.2 = portsHit podsCache heap eps pp.1).
    { intros [q ports] Hq. apply Hin in Hq. rewrite Hseen in Hq. simpl.
      destruct (portsHit podsCache heap eps q); simpl in Hq; [done|congruence]. }
    clear Hin Hvis. induction (ord seen) as [|pp l IH]; simpl; [done|].
    rewrite IH by (intros; apply Hall; by right).
    rewrite (Hall pp) by left. done.
  - intros q. apply skippedTargets_length.
  - intros q port. apply portsHit_spec.
  - intros q Hno Hq. apply Hvis in Hq.
    destruct (portsHit podsCache heap eps q) as [|port l] eqn:E; [done|].
    assert (Hp : port ∈ portsHit podsCache heap eps q) by (rewrite E; left).
    apply portsHit_spec in Hp as (ea & epp & ready & Hin' & Hr & _).
    by apply (Hno ea epp ready).
Qed.

End BuilderClaims.

(** Scenario S2 under the map's own order: two targets, one from pass 1 and
    one for the skipped port 9090. *)
Lemma appendTargetLabels_targets_witness :
  rangeAdmissible map_to_list ∧
  ∃ visited : list ptr,
    NoDup visited ∧
    elems (appendTargetLabels map_to_list exEndpoints None exPodsCache exHeap exServicesCache) =
      map (endpointTarget exPodsCache exHeap exEndpoints (Some exService))
          (pass1Pairs exEndpoints) ++
      flat_map (λ q, skippedTargets (exHeap q) (portsHit exPodsCache exHeap exEndpoints q)
                       (Some exService)) visited.
Proof.
  assert (Hadm : rangeAdmissible map_to_list) by (intros m; reflexivity).
  split; [exact Hadm|].
  destruct (appendTargetLabels_targets map_to_list exEndpoints None exPodsCache exHeap
              exServicesCache Hadm) as (visited & Hnd & _ & Heq & _).
  exists visited. split; [exact Hnd|exact Heq].
Defined.

(** C1 (the code at the failing input). The pod ns1/p1 is named by the only
    address and is in the cache; its single container port, 9090, is covered
    by no recorded port, so the claim counts two targets for the pod, the
    pass-1 pair and the port. The builder emits the pass-1 target alone: no
    container port of the pod equals the endpoint port 8080, the pod never
    enters podPortsSeen, and pass 2 skips it. *)
Lemma appendTargetLabels_unmatched_pod :
  length (elems (appendTargetLabels map_to_list exEndpoints None exPodsCache
                   exHeapUnmatched ∅)) = 1%nat ∧
  portsHit exPodsCache exHeapUnmatched exEndpoints 0%nat = [] ∧
  claimedTargetsOfPod exPodsCache exHeapUnmatched exEndpoints 0%nat = 2%nat.
Proof. split_and!; vm_compute; reflexivity. Qed.

(** ** Overlays *)

Section Overlays.
Context `{W : LabelWriters}.

Lemma containerPortsLoop_labels p pod c epp cps m s :
  (containerPortsLoop p pod c epp cps (m, s)).1 =
  setAll (match firstPort cps (epp_Port epp) with
          | Some cp => Pod_appendContainerLabels pod c cp
          | None => []
          end) m.
Proof.
  induction cps as [|cp cps IH]; simpl; [done|].
  case_bool_decide; simpl; [done|]. apply IH.
Qed.

Lemma containers_fold_labels p pod epp cs m s :
  (foldl (λ st c, containerPortsLoop p pod c epp (c_Ports c) st) (m, s) cs).1 =
  setAll (flat_map (λ c, match firstPort (c_Ports c) (epp_Port epp) with
                         | Some cp => Pod_appendContainerLabels pod c cp
                         | None => []
                         end) cs) m.
Proof.
  revert m s. induction cs as [|c cs IH]; intros m s; simpl; [done|].
  destruct (containerPortsLoop p pod c epp (c_Ports c) (m, s)) as [m1 s1] eqn:E.
  rewrite IH, setAll_app. f_equal.
  change m1 with (m1, s1).1. rewrite <- E. apply containerPortsLoop_labels.
Qed.

(** The target is the skeleton with the service, the endpoints metadata and
    the pod written over it, in this order. *)
Lemma getEndpointLabelsForAddressAndPort_setAll seen heap eps ea epp p svc ready :
  (getEndpointLabelsForAddressAndPort seen heap eps ea epp p svc ready).1 =
  setAll (podWrites heap ea epp p)
    (setAll (endpointsWrites eps)
       (setAll (serviceWrites svc) (getEndpointLabels (eps_Metadata eps) ea epp ready))).
Proof.
  unfold getEndpointLabelsForAddressAndPort, podWrites, endpointsWrites.
  assert (Hsvc : match svc with
                 | Some s => setAll (Service_appendCommonLabels s)
                               (getEndpointLabels (eps_Metadata eps) ea epp ready)
                 | None => getEndpointLabels (eps_Metadata eps) ea epp ready
                 end = setAll (serviceWrites svc)
                        (getEndpointLabels (eps_Metadata eps) ea epp ready))
    by (by destruct svc).
  rewrite Hsvc. destruct p as [pp|]; [|done].
  case_decide; [done|].
  rewrite containers_fold_labels, setAll_app. done.
Qed.

Lemma setAll_swap kvs1 kvs2 (m : labelMap) :
  (∀ k, k ∈ kvs1.*1 → k ∉ kvs2.*1) →
  setAll kvs2 (setAll kvs1 m) = setAll kvs1 (setAll kvs2 m).
Proof.
  intros Hapart. apply map_eq. intros k. rewrite !setAll_lookup.
  destruct (lastWrite k kvs2) as [v2|] eqn:E2; destruct (lastWrite k kvs1) as [v1|] eqn:E1;
    try done.
  exfalso. apply (Hapart k).
  - apply lastWrite_Some in E1. apply list_elem_of_fmap. by exists (k, v1).
  - apply lastWrite_Some in E2. apply list_elem_of_fmap. by exists (k, v2).
Qed.

(** C4. Where the writers keep the keys of the service overlay and of the
    endpoints-metadata overlay apart, the target that
    getEndpointLabelsForAddressAndPort builds is the one the claimed order
    gives: the skeleton, the endpoints-metadata labels over it, the service
    common labels over these, and the pod labels last when there is a pod. A
    key written by several overlays keeps the value of the latest of them:
    service labels beat endpoints labels, which beat the skeleton. *)
Theorem getEndpointLabelsForAddressAndPort_overlays_as_claimed
    (seen : gmap ptr (list Z)) (heap : ptr → Pod) (eps : Endpoints)
    (ea : EndpointAddress) (epp : EndpointPort) (p : option ptr) (svc : option Service)
    (ready : string) :
  overlaysApart eps svc →
  (getEndpointLabelsForAddressAndPort seen heap eps ea epp p svc ready).1 =
    setAll (podWrites heap ea epp p) (claimedOverlay eps ea epp svc ready) ∧
  ∀ k,
    (getEndpointLabelsForAddressAndPort seen heap eps ea epp p svc ready).1 !! k =
    match lastWrite k (podWrites heap ea epp p) with
    | Some v => Some v
    | None =>
      match lastWrite k (serviceWrites svc) with
      | Some v => Some v
      | None =>
        match lastWrite k (endpointsWrites eps) with
        | Some v => Some v
        | None => getEndpointLabels (eps_Metadata eps) ea epp ready !! k
        end
      end
    end.
Proof.
  intros Hapart.
  assert (Heq : (getEndpointLabelsForAddressAndPort seen heap eps ea epp p svc ready).1 =
                setAll (podWrites heap ea epp p) (claimedOverlay eps ea epp svc ready)).
  { rewrite getEndpointLabelsForAddressAndPort_setAll. unfold claimedOverlay.
    f_equal. by apply setAll_swap. }
  split; [exact Heq|].
  intros k. rewrite Heq. unfold claimedOverlay. by rewrite !setAll_lookup.
Qed.

End Overlays.

(** ** Without a service *)

Section NoService.
Context `{W : LabelWriters}.

Lemma getEndpointLabels_base om ea epp ready k v :
  k ∉ ["__meta_kubernetes_endpoint_address_target_kind";
       "__meta_kubernetes_endpoint_address_target_name";
       "__meta_kubernetes_endpoint_node_name"; "__meta_kubernetes_endpoint_hostname"] →
  (setAll [("__address__", JoinHostPort (ea_IP ea) (epp_Port epp));
           ("__meta_kubernetes_namespace", om_Namespace om);
           ("__meta_kubernetes_endpoints_name", om_Name om);
           ("__meta_kubernetes_endpoint_ready", ready);
           ("__meta_kubernetes_endpoint_port_name", epp_Name epp);
           ("__meta_kubernetes_endpoint_port_protocol", epp_Protocol epp)] ∅ : labelMap) !! k = v →
  getEndpointLabels om ea epp ready !! k = v.
Proof.
  intros Hk <-. unfold getEndpointLabels.
  rewrite !not_elem_of_cons in Hk. destruct Hk as (H1 & H2 & H3 & H4 & _).
  repeat case_decide; unfold setAll; simpl;
    rewrite ?(lookup_insert_ne _ "__meta_kubernetes_endpoint_hostname") by done;
    rewrite ?(lookup_insert_ne _ "__meta_kubernetes_endpoint_node_name") by done;
    rewrite ?(lookup_insert_ne _ "__meta_kubernetes_endpoint_address_target_name") by done;
    rewrite ?(lookup_insert_ne _ "__meta_kubernetes_endpoint_address_target_kind") by done;
    reflexivity.
Qed.

(** The labels every skeleton holds are in the skeleton. *)
Lemma getEndpointLabels_baseLabels om ea epp ready k v :
  (k, v) ∈ baseLabels om ea epp ready → getEndpointLabels om ea epp ready !! k = Some v.
Proof.
  unfold baseLabels. intros Hin.
  repeat (apply elem_of_cons in Hin as [[= -> ->]|Hin];
          [apply getEndpointLabels_base;
           [solve [repeat (apply not_elem_of_cons; split; [done|]); apply not_elem_of_nil]
           |reflexivity]|]).
  by apply elem_of_nil in Hin.
Qed.

Lemma endpointTarget_None podsCache heap eps t :
  endpointTarget podsCache heap eps None t = reducedTarget podsCache heap eps t.
Proof. unfold endpointTarget, reducedTarget. by rewrite getEndpointLabelsForAddressAndPort_setAll. Qed.

Lemma skippedTargets_None pod ports :
  skippedTargets pod ports None = reducedSkipped pod ports.
Proof.
  unfold skippedTargets, reducedSkipped.
  induction (containerPorts pod) as [|ccp l IH]; [done|].
  cbn [flat_map]. rewrite IH, filter_cons.
  destruct (portSeen (cp_ContainerPort ccp.2) ports) eqn:E.
  - apply portSeen_spec in E. rewrite decide_False by naive_solver. done.
  - rewrite decide_True; [done|]. intros Hin. apply portSeen_spec in Hin. congruence.
Qed.

Lemma setAll_is_Some kvs (m : labelMap) k :
  is_Some (setAll kvs m !! k) → k ∈ kvs.*1 ∨ is_Some (m !! k).
Proof.
  rewrite setAll_lookup. destruct (lastWrite k kvs) as [v|] eqn:E; [|by right].
  intros _. left. apply lastWrite_Some in E. apply list_elem_of_fmap. by exists (k, v).
Qed.

Lemma getEndpointLabels_keys om ea epp ready k :
  is_Some (getEndpointLabels om ea epp ready !! k) → k ∈ skeletonKeys.
Proof.
  assert (Hins : ∀ (m : labelMap) k' v, k' ∈ skeletonKeys →
            (∀ k, is_Some (m !! k) → k ∈ skeletonKeys) →
            ∀ k, is_Some (<[k':=v]> m !! k) → k ∈ skeletonKeys).
  { intros m k' v Hk' Hm k0. rewrite lookup_insert_is_Some. intros [<-|[_ H]]; auto. }
  revert k. unfold getEndpointLabels, setAll. simpl.
  repeat case_decide;
    repeat (apply Hins; [unfold skeletonKeys; solve [repeat constructor]|]);
    intros k; rewrite lookup_empty; by intros [? ?].
Qed.

Lemma endpointTarget_None_keys podsCache heap eps t k :
  is_Some (endpointTarget podsCache heap eps None t !! k) → nonServiceKey heap eps k.
Proof.
  unfold endpointTarget. rewrite getEndpointLabelsForAddressAndPort_setAll. simpl.
  intros [Hk|[Hk|Hk]%setAll_is_Some]%setAll_is_Some.
  - unfold podWrites in Hk.
    destruct (podsCache !! ObjectReference_key (ea_TargetRef t.1.1)) as [pp|];
      [|by apply elem_of_nil in Hk].
    case_decide; [by apply elem_of_nil in Hk|].
    rewrite fmap_app, elem_of_app in Hk. destruct Hk as [Hk|Hk].
    + right; right; left. by exists pp.
    + right; right; right.
      apply list_elem_of_fmap in Hk as ([k' v] & -> & Hin).
      apply list_elem_of_In, in_flat_map in Hin as (c & _ & Hin).
      destruct (firstPort (c_Ports c) (epp_Port t.1.2)) as [cp|]; [|done].
      exists pp, c, cp. apply list_elem_of_fmap. exists (k', v).
      by rewrite list_elem_of_In.
  - right; left. done.
  - left. by apply getEndpointLabels_keys in Hk.
Qed.

Lemma skippedTargets_None_keys heap eps q ports m k :
  m ∈ skippedTargets (heap q) ports None → is_Some (m !! k) → nonServiceKey heap eps k.
Proof.
  unfold skippedTargets. rewrite list_elem_of_In, in_flat_map.
  intros ([c cp] & _ & Hm). simpl in Hm.
  destruct (portSeen (cp_ContainerPort cp) ports); [done|].
  destruct Hm as [<-|[]]. unfold skippedPortLabels.
  intros [Hk|[Hk|Hk]%setAll_is_Some]%setAll_is_Some.
  - right; right; right. by exists q, c, cp.
  - right; right; left. by exists q.
  - left. apply lookup_insert_is_Some in Hk as [<-|[_ Hk]].
    + unfold skeletonKeys. set_solver.
    + rewrite lookup_empty in Hk. by destruct Hk.
Qed.

(** The ports pass 1 records do not depend on the service. *)
Lemma pass1_seen_service heap eps podsCache svc svc' :
  foldl (seenStep podsCache heap eps svc) ∅ (pass1Pairs eps) =
  foldl (seenStep podsCache heap eps svc') ∅ (pass1Pairs eps).
Proof.
  apply map_eq. intros q.
  by rewrite (pass1_seen heap eps podsCache svc q), (pass1_seen heap eps podsCache svc' q).
Qed.

Lemma skippedTargets_length_service pod ports svc svc' :
  length (skippedTargets pod ports svc) = length (skippedTargets pod ports svc').
Proof. by rewrite !skippedTargets_length. Qed.

(** C8. When the service cache has no entry under the key of the Endpoints
    object, appendTargetLabels still appends its targets, as many as under any
    other content of the service cache, and with reduced labels: one target
    per pass-1 pair, holding the skeleton, the endpoints-metadata labels and
    the pod labels, and then, for every pod that pass 1 recorded, one target
    per container port not recorded, holding the address of the pod at that
    port, the pod common labels and the container labels. The labels every
    skeleton holds are in each pass-1 target unless the endpoints metadata or
    the pod writes over them, and every key of every appended target was
    assigned by the skeleton, by the endpoints metadata or by a pod: the
    service overlay contributes nothing, in pass 1 and in pass 2. *)
Theorem appendTargetLabels_without_service (ord : rangeOrder) (eps : Endpoints)
    (ms : slice labelMap) (podsCache : gmap string ptr) (heap : ptr → Pod)
    (servicesCache : gmap string Service) :
  rangeAdmissible ord →
  servicesCache !! Endpoints_key eps = None →
  ∃ visited : list ptr,
    NoDup visited ∧
    (∀ q, q ∈ visited ↔ portsHit podsCache heap eps q ≠ []) ∧
    elems (appendTargetLabels ord eps ms podsCache heap servicesCache) =
      elems ms ++
      map (reducedTarget podsCache heap eps) (pass1Pairs eps) ++
      flat_map (λ q, reducedSkipped (heap q) (portsHit podsCache heap eps q)) visited ∧
    (∀ t k v, t ∈ pass1Pairs eps →
       (k, v) ∈ baseLabels (eps_Metadata eps) t.1.1 t.1.2 t.2 →
       k ∉ (endpointsWrites eps).*1 →
       k ∉ (podWrites heap t.1.1 t.1.2
              (podsCache !! ObjectReference_key (ea_TargetRef t.1.1))).*1 →
       reducedTarget podsCache heap eps t !! k = Some v) ∧
    (∀ m k,
       m ∈ map (reducedTarget podsCache heap eps) (pass1Pairs eps) ++
           flat_map (λ q, reducedSkipped (heap q) (portsHit podsCache heap eps q)) visited →
       is_Some (m !! k) → nonServiceKey heap eps k) ∧
    (∀ servicesCache',
       length (elems (appendTargetLabels ord eps ms podsCache heap servicesCache')) =
       length (elems (appendTargetLabels ord eps ms podsCache heap servicesCache))).
Proof.
  intros Hord Hnone.
  set (seen := foldl (seenStep podsCache heap eps None) ∅ (pass1Pairs eps)).
  assert (Hseen : seenOf (portsHit podsCache heap eps) seen) by apply pass1_seen.
  assert (Hin : ∀ q ports, (q, ports) ∈ ord seen ↔ seen !! q = Some ports).
  { intros q ports. rewrite (Hord seen). apply elem_of_map_to_list. }
  assert (Hall : ∀ pp, pp ∈ ord seen → pp.2 = portsHit podsCache heap eps pp.1).
  { intros [q ports] Hq. apply Hin in Hq. rewrite Hseen in Hq. simpl.
    destruct (portsHit podsCache heap eps q); simpl in Hq; [done|congruence]. }
  assert (Hpass2 : flat_map (λ pp, skippedTargets (heap pp.1) pp.2 None) (ord seen) =
                   flat_map (λ q, reducedSkipped (heap q) (portsHit podsCache heap eps q))
                            (ord seen).*1).
  { clear Hin. induction (ord seen) as [|pp l IH]; simpl; [done|].
    rewrite IH by (intros; apply Hall; by right).
    rewrite (Hall pp) by left. by rewrite skippedTargets_None. }
  assert (Heq : elems (appendTargetLabels ord eps ms podsCache heap servicesCache) =
                elems ms ++ map (reducedTarget podsCache heap eps) (pass1Pairs eps) ++
                flat_map (λ q, reducedSkipped (heap q) (portsHit podsCache heap eps q))
                         (ord seen).*1).
  { rewrite appendTargetLabels_eq, elems_go_appends, Hnone. fold seen.
    rewrite Hpass2. do 2 f_equal.
    apply map_ext. intros t. apply endpointTarget_None. }
  exists (ord seen).*1. split_and!.
  - rewrite (Hord seen). apply NoDup_fst_map_to_list.
  - intros q. rewrite list_elem_of_fmap. split.
    + intros ([q' ports] & -> & Hq). apply Hin in Hq. rewrite Hseen in Hq. simpl in *.
      destruct (portsHit podsCache heap eps q'); [done|congruence].
    + intros Hne. exists (q, portsHit podsCache heap eps q). split; [done|].
      apply Hin. rewrite Hseen. destruct (portsHit podsCache heap eps q); done.
  - exact Heq.
  - intros t k v _ Hbase Hne Hnp. unfold reducedTarget. rewrite !setAll_lookup.
    apply lastWrite_None in Hne, Hnp. rewrite Hne, Hnp.
    by apply getEndpointLabels_baseLabels.
  - intros m k [Hm|Hm]%elem_of_app.
    + apply list_elem_of_fmap in Hm as (t & -> & _). rewrite <- endpointTarget_None.
      apply endpointTarget_None_keys.
    + apply list_elem_of_In, in_flat_map in Hm as (q & _ & Hm).
      apply list_elem_of_In in Hm. rewrite <- skippedTargets_None in Hm.
      by apply skippedTargets_None_keys with (q := q) (ports := portsHit podsCache heap eps q).
  - intros servicesCache'. rewrite !appendTargetLabels_eq, !elems_go_appends, Hnone.
    rewrite !length_app, !length_map. do 2 f_equal.
    rewrite (pass1_seen_service heap eps podsCache _ None). fold seen.
    generalize (ord seen) as l. intros l.
    induction l as [|pp l IH]; simpl; [done|].
    rewrite !length_app, IH. f_equal. apply skippedTargets_length_service.
Qed.

End NoService.

(** With the writers of the Prometheus conventions, a key that no service
    overlay assigned is outside the service name space. *)
Lemma promWriters_nonServiceKey (heap : ptr → Pod) (eps : Endpoints) (k : string) :
  nonServiceKey heap eps k → String.prefix "__meta_kubernetes_service_" k = false.
Proof.
  assert (Hmeta : ∀ om k,
    k ∈ (metaLabels "__meta_kubernetes_endpoints" om).*1 ∨
    k ∈ (metaLabels "__meta_kubernetes_pod" om).*1 →
    String.prefix "__meta_kubernetes_service_" k = false).
  { intros om k' [Hk|Hk]; unfold metaLabels in Hk;
      rewrite fmap_app, elem_of_app in Hk;
      destruct Hk as [Hk|Hk];
      apply list_elem_of_fmap in Hk as ([k1 v1] & -> & Hk);
      apply list_elem_of_In, in_flat_map in Hk as ([k2 v2] & _ & Hk);
      simpl in Hk; destruct Hk as [[= <- <-]|[[= <- <-]|[]]]; reflexivity. }
  intros [Hk|[Hk|[[q Hk]|(q & c & cp & Hk)]]].
  - unfold skeletonKeys in Hk. repeat (apply elem_of_cons in Hk as [->|Hk]; [reflexivity|]).
    by apply elem_of_nil in Hk.
  - apply (Hmeta (eps_Metadata eps)). by left.
  - simpl in Hk. repeat (apply elem_of_cons in Hk as [->|Hk]; [reflexivity|]).
    apply (Hmeta (pod_Metadata (heap q))). by right.
  - simpl in Hk. repeat (apply elem_of_cons in Hk as [->|Hk]; [reflexivity|]).
    by apply elem_of_nil in Hk.
Qed.

(** With the writers of the Prometheus conventions, every key of the service
    overlay is in the service name space. *)
Lemma promWriters_serviceKey (s : Service) (k : string) :
  k ∈ (Service_appendCommonLabels s).*1 → String.prefix "__meta_kubernetes_service_" k = true.
Proof.
  simpl. intros Hk.
  repeat (apply elem_of_cons in Hk as [->|Hk]; [reflexivity|]).
  unfold metaLabels in Hk. rewrite fmap_app, elem_of_app in Hk.
  destruct Hk as [Hk|Hk];
    apply list_elem_of_fmap in Hk as ([k1 v1] & -> & Hk);
    apply list_elem_of_In, in_flat_map in Hk as ([k2 v2] & _ & Hk);
    simpl in Hk; destruct Hk as [[= <- <-]|[[= <- <-]|[]]]; reflexivity.
Qed.

(** With these writers the service overlay and the endpoints-metadata overlay
    assign no key in common, whatever the service and the Endpoints object. *)
Lemma promWriters_overlaysApart (eps : Endpoints) (svc : option Service) :
  overlaysApart eps svc.
Proof.
  intros k Hs He. destruct svc as [s|]; [|by apply elem_of_nil in Hs].
  apply promWriters_serviceKey in Hs.
  assert (Hn : nonServiceKey (λ _, exPod1) eps k) by (right; by left).
  apply promWriters_nonServiceKey in Hn. congruence.
Qed.

(** A service and an Endpoints object that both carry the label app: each
    overlay writes it under its own name, and the target is the one of the
    claimed order. *)
Lemma getEndpointLabelsForAddressAndPort_overlays_as_claimed_witness :
  overlaysApart exEndpointsLabelled (Some exServiceLabelled) ∧
  (getEndpointLabelsForAddressAndPort ∅ exHeap exEndpointsLabelled
     (exAddress "10.0.0.1" "" "" "") (exEndpointPort "http" 8080) None
     (Some exServiceLabelled) "true").1 =
    claimedOverlay exEndpointsLabelled (exAddress "10.0.0.1" "" "" "")
      (exEndpointPort "http" 8080) (Some exServiceLabelled) "true" ∧
  claimedOverlay exEndpointsLabelled (exAddress "10.0.0.1" "" "" "")
    (exEndpointPort "http" 8080) (Some exServiceLabelled) "true"
    !! "__meta_kubernetes_service_label_app" = Some "from-service" ∧
  claimedOverlay exEndpointsLabelled (exAddress "10.0.0.1" "" "" "")
    (exEndpointPort "http" 8080) (Some exServiceLabelled) "true"
    !! "__meta_kubernetes_endpoints_label_app" = Some "from-endpoints".
Proof.
  assert (Hapart : overlaysApart exEndpointsLabelled (Some exServiceLabelled))
    by apply promWriters_overlaysApart.
  split; [exact Hapart|].
  split; [|split; vm_compute; reflexivity].
  exact (proj1 (getEndpointLabelsForAddressAndPort_overlays_as_claimed ∅ exHeap
                  exEndpointsLabelled (exAddress "10.0.0.1" "" "" "")
                  (exEndpointPort "http" 8080) None (Some exServiceLabelled) "true" Hapart)).
Defined.

(** Scenario S2 with an empty service cache: the target of the address and
    the target of the skipped port 9090, neither with a service label. *)
Lemma appendTargetLabels_without_service_witness :
  rangeAdmissible map_to_list ∧
  (∅ : gmap string Service) !! Endpoints_key exEndpoints = None ∧
  ∃ visited : list ptr,
    elems (appendTargetLabels map_to_list exEndpoints None exPodsCache exHeap ∅) =
      map (reducedTarget exPodsCache exHeap exEndpoints) (pass1Pairs exEndpoints) ++
      flat_map (λ q, reducedSkipped (exHeap q) (portsHit exPodsCache exHeap exEndpoints q))
               visited ∧
    omap (λ m : labelMap, m !! "__address__")
         (elems (appendTargetLabels map_to_list exEndpoints None exPodsCache exHeap ∅)) =
      ["10.0.0.1:8080"; "10.0.0.1:9090"] ∧
    Forall (λ m : labelMap, m !! "__meta_kubernetes_service_name" = None ∧
                            m !! "__meta_kubernetes_pod_name" = Some "p1")
           (elems (appendTargetLabels map_to_list exEndpoints None exPodsCache exHeap ∅)).
Proof.
  assert (Hadm : rangeAdmissible map_to_list) by (intros m; reflexivity).
  assert (Hnone : (∅ : gmap string Service) !! Endpoints_key exEndpoints = None)
    by reflexivity.
  split; [exact Hadm|]. split; [exact Hnone|].
  destruct (appendTargetLabels_without_service map_to_list exEndpoints None exPodsCache
              exHeap ∅ Hadm Hnone) as (visited & _ & _ & Heq & _).
  exists visited. split; [exact Heq|].
  split; [vm_compute; reflexivity|].
  vm_compute. repeat constructor.
Defined.

(** ** Event dispatch *)

Lemma sent_emit_send e w : sent (emit (EvSend e) w) = sent w ++ [e].
Proof. unfold sent, emit; simpl. by rewrite omap_app. Qed.

Lemma sent_emit_other e w :
  (∀ s, e ≠ EvSend s) → sent (emit e w) = sent w.
Proof.
  intros He. unfold sent, emit; simpl. rewrite omap_app; simpl.
  destruct e; try by rewrite app_nil_r. by destruct (He e).
Qed.

Lemma rangeAdmissible_map_to_list : rangeAdmissible map_to_list.
Proof. intros m. reflexivity. Qed.

Lemma rangeAdmissible_reverseOrder : rangeAdmissible reverseOrder.
Proof. intros m. unfold reverseOrder. by rewrite reverse_Permutation. Qed.

Section DispatchFacts.
Context `{W : LabelWriters}.

Lemma processEndpoints_sc ord setName eps action w :
  w_sc (processEndpoints ord setName eps action w) = w_sc w ∧
  w_heap (processEndpoints ord setName eps action w) = w_heap w.
Proof. unfold processEndpoints. repeat case_decide; done. Qed.

Lemma pass2_nil_of_pairs_nil ord podsCache heap eps svc :
  rangeAdmissible ord → pass1Pairs eps = [] →
  ord (foldl (seenStep podsCache heap eps svc) ∅ (pass1Pairs eps)) = [].
Proof.
  intros Hord ->. simpl. apply Permutation_nil. rewrite (Hord ∅).
  by rewrite map_to_list_empty.
Qed.

(** C7 (amended). processEndpoints sends, for DELETED, exactly one event with
    nil Labels under the key "endpoints/" + setName + "/" + namespace + "/" +
    name; for ADDED and MODIFIED exactly one event under the same key, whose
    Labels are the targets of the object and are nil exactly when the object
    has no pair of a subset port and an address; for any other action, no
    event. *)
Theorem processEndpoints_events (ord : rangeOrder) (setName : string) (eps : Endpoints)
    (action : string) (w : World) :
  rangeAdmissible ord →
  let key := "endpoints/" +:+ setName +:+ "/" +:+ om_Namespace (eps_Metadata eps)
             +:+ "/" +:+ om_Name (eps_Metadata eps) in
  (action = "DELETED" →
     sent (processEndpoints ord setName eps action w) =
     sent w ++ [ {| se_Key := key; se_Labels := None; se_ConfigSectionSet := setName |} ]) ∧
  (action = "ADDED" ∨ action = "MODIFIED" →
     ∃ lbs, sent (processEndpoints ord setName eps action w) =
            sent w ++ [ {| se_Key := key; se_Labels := lbs; se_ConfigSectionSet := setName |} ] ∧
            lbs = appendTargetLabels ord eps None (sc_Pods (w_sc w)) (w_heap w)
                    (sc_Services (w_sc w)) ∧
            (lbs = None ↔ pass1Pairs eps = [])) ∧
  (action ≠ "DELETED" → action ≠ "ADDED" → action ≠ "MODIFIED" →
     sent (processEndpoints ord setName eps action w) = sent w).
Proof.
  intros Hord key.
  assert (Hkey : buildSyncKey "endpoints" setName (Endpoints_key eps) = key) by reflexivity.
  unfold processEndpoints. rewrite Hkey. split_and!.
  - intros ->. rewrite decide_False by (intros [?|?]; discriminate).
    rewrite decide_True by done. apply sent_emit_send.
  - intros Ha. rewrite decide_True by done. eexists. split; [apply sent_emit_send|].
    split; [done|].
    rewrite appendTargetLabels_eq, go_appends_nil_iff. split.
    + intros [_ Hnil]. apply app_eq_nil in Hnil as [Hnil _].
      by apply fmap_nil_inv in Hnil.
    + intros Hnil. split; [done|].
      rewrite (pass2_nil_of_pairs_nil ord _ _ _ _ Hord Hnil). by rewrite Hnil.
  - intros H1 H2 H3. rewrite decide_False by (intros [?|?]; done).
    rewrite decide_False by done. done.
Qed.

(** C9 (amended). Processing the same ADDED event twice over unchanged caches
    sends two events with the same key whose Labels hold the same targets: the
    pass-1 targets are equal element by element, the pass-2 targets of the two
    events are a permutation of one another, following the order each run
    takes over podPortsSeen; the two lists are equal when pass 1 records at
    most one pod. *)
Theorem processEndpoints_replay (ord1 ord2 : rangeOrder) (setName : string)
    (eps : Endpoints) (w : World) :
  rangeAdmissible ord1 → rangeAdmissible ord2 →
  ∃ l1 l2 : slice labelMap,
    sent (processEndpoints ord2 setName eps "ADDED"
            (processEndpoints ord1 setName eps "ADDED" w)) =
      sent w ++
      [ {| se_Key := buildSyncKey "endpoints" setName (Endpoints_key eps);
           se_Labels := l1; se_ConfigSectionSet := setName |};
        {| se_Key := buildSyncKey "endpoints" setName (Endpoints_key eps);
           se_Labels := l2; se_ConfigSectionSet := setName |} ] ∧
    elems l1 ≡ₚ elems l2 ∧
    (l1 = None ↔ l2 = None) ∧
    take (length (pass1Pairs eps)) (elems l1) = take (length (pass1Pairs eps)) (elems l2) ∧
    length (take (length (pass1Pairs eps)) (elems l1)) = length (pass1Pairs eps) ∧
    ((∀ q q', portsHit (sc_Pods (w_sc w)) (w_heap w) eps q ≠ [] →
              portsHit (sc_Pods (w_sc w)) (w_heap w) eps q' ≠ [] → q = q') →
     l1 = l2).
Proof.
  intros H1 H2.
  set (podsCache := sc_Pods (w_sc w)). set (heap := w_heap w).
  set (svc := sc_Services (w_sc w) !! Endpoints_key eps).
  set (seen := foldl (seenStep podsCache heap eps svc) ∅ (pass1Pairs eps)).
  set (p1 := map (endpointTarget podsCache heap eps svc) (pass1Pairs eps)).
  set (p2 := λ ord : rangeOrder, flat_map (λ pp, skippedTargets (heap pp.1) pp.2 svc) (ord seen)).
  assert (Hl : ∀ ord, appendTargetLabels ord eps None podsCache heap (sc_Services (w_sc w))
                      = go_appends None (p1 ++ p2 ord)).
  { intros ord. by rewrite appendTargetLabels_eq. }
  assert (Hperm : p2 ord1 ≡ₚ p2 ord2).
  { unfold p2. apply Permutation_flat_map. by rewrite (H1 seen), (H2 seen). }
  exists (go_appends None (p1 ++ p2 ord1)), (go_appends None (p1 ++ p2 ord2)).
  split_and!.
  - unfold processEndpoints at 1. rewrite decide_True by (by left).
    rewrite sent_emit_send.
    destruct (processEndpoints_sc ord1 setName eps "ADDED" w) as [-> ->].
    fold podsCache heap. rewrite Hl.
    unfold processEndpoints. rewrite decide_True by (by left).
    rewrite sent_emit_send. fold podsCache heap. rewrite Hl.
    by rewrite <- app_assoc.
  - rewrite !elems_go_appends. simpl. by rewrite Hperm.
  - rewrite !go_appends_nil_iff. split; intros [_ Hn]; (split; [done|]);
      apply app_eq_nil in Hn as [-> Hn]; simpl.
    + symmetry in Hperm. rewrite Hn in Hperm. by apply Permutation_nil.
    + rewrite Hn in Hperm. by apply Permutation_nil.
  - rewrite !elems_go_appends. simpl.
    assert (Hlen : length (pass1Pairs eps) = length p1) by (unfold p1; by rewrite length_map).
    rewrite Hlen. by rewrite !take_app_length.
  - rewrite elems_go_appends. simpl. rewrite length_take, length_app.
    unfold p1. rewrite length_map. lia.
  - intros Hone. do 2 f_equal. unfold p2. f_equal.
    assert (Hseen : seenOf (portsHit podsCache heap eps) seen) by apply pass1_seen.
    assert (Hsmall : ∀ x y, x ∈ map_to_list seen → y ∈ map_to_list seen → x = y).
    { intros [q ports] [q' ports'] Hx Hy.
      apply elem_of_map_to_list in Hx, Hy.
      assert (q = q') as <-.
      { apply Hone.
        - rewrite Hseen in Hx. by destruct (portsHit podsCache heap eps q).
        - rewrite Hseen in Hy. by destruct (portsHit podsCache heap eps q'). }
      congruence. }
    specialize (H1 seen). specialize (H2 seen).
    destruct (map_to_list seen) as [|x [|y l]] eqn:E.
    + apply Permutation_nil_r in H1, H2. congruence.
    + apply Permutation_singleton_r in H1, H2. congruence.
    + exfalso. pose proof (NoDup_map_to_list seen) as Hnd. rewrite E in Hnd.
      assert (x = y) as -> by (apply Hsmall; set_solver).
      apply NoDup_cons in Hnd as [Hnd _]. apply Hnd. left.
Qed.

End DispatchFacts.

(** A DELETED action on the endpoints of scenario S2. *)
Lemma processEndpoints_events_witness :
  rangeAdmissible map_to_list ∧
  sent (processEndpoints map_to_list "job1" exEndpoints "DELETED" emptyWorld) =
  [ {| se_Key := "endpoints/job1/ns1/svc1"; se_Labels := None;
       se_ConfigSectionSet := "job1" |} ].
Proof.
  split; [exact rangeAdmissible_map_to_list|].
  exact (proj1 (processEndpoints_events map_to_list "job1" exEndpoints "DELETED" emptyWorld
                  rangeAdmissible_map_to_list) eq_refl).
Defined.

(** C7 as stated fails in its last part: an ADDED action for an Endpoints
    object without subsets sends an event whose Labels are nil, the same event
    as a DELETED action would send. *)
Lemma processEndpoints_added_nil_counterexample :
  sent (processEndpoints map_to_list "job1" exEndpointsEmpty "ADDED" emptyWorld) =
  [ {| se_Key := "endpoints/job1/ns1/svc1"; se_Labels := None;
       se_ConfigSectionSet := "job1" |} ] ∧
  sent (processEndpoints map_to_list "job1" exEndpointsEmpty "ADDED" emptyWorld) =
  sent (processEndpoints map_to_list "job1" exEndpointsEmpty "DELETED" emptyWorld).
Proof. split; reflexivity. Qed.

(** The replay of scenario S2 with two pods, under two orders. *)
Lemma processEndpoints_replay_witness :
  rangeAdmissible map_to_list ∧ rangeAdmissible reverseOrder ∧
  ∃ l1 l2 : slice labelMap,
    se_Labels <$> sent (processEndpoints reverseOrder "job1" exEndpointsTwoPods "ADDED"
                          (processEndpoints map_to_list "job1" exEndpointsTwoPods "ADDED"
                             exWorldTwoPods)) = [l1; l2] ∧
    elems l1 ≡ₚ elems l2.
Proof.
  split; [exact rangeAdmissible_map_to_list|].
  split; [exact rangeAdmissible_reverseOrder|].
  destruct (processEndpoints_replay map_to_list reverseOrder "job1" exEndpointsTwoPods
              exWorldTwoPods rangeAdmissible_map_to_list rangeAdmissible_reverseOrder)
    as (l1 & l2 & Hsent & Hperm & _).
  exists l1, l2. split; [|exact Hperm]. rewrite Hsent. reflexivity.
Defined.

(** C9 as stated fails: with two recorded pods, the two runs over the same
    caches may visit podPortsSeen in different orders, and the two events then
    carry the pass-2 targets in different orders. *)
Lemma processEndpoints_replay_counterexample :
  sentAddresses (processEndpoints reverseOrder "job1" exEndpointsTwoPods "ADDED"
                   (processEndpoints map_to_list "job1" exEndpointsTwoPods "ADDED"
                      exWorldTwoPods)) =
  [ ["10.0.0.1:8080"; "10.0.0.2:8080"; "10.0.0.2:9091"; "10.0.0.1:9090"];
    ["10.0.0.1:8080"; "10.0.0.2:8080"; "10.0.0.1:9090"; "10.0.0.2:9091"] ].
Proof. vm_compute. reflexivity. Qed.

(** ** The orchestrator *)

Section OrchestratorFacts.
Context `{W : LabelWriters} `{C : Cluster}.

Lemma sent_updatePodCache p action w : sent (updatePodCache p action w) = sent w.
Proof. unfold updatePodCache. by rewrite sent_emit_other. Qed.

(** C2 (the code at the failing input). The pods watch handler of the role
    endpoints looks the Endpoints cache up under the key of the modified pod
    itself: when no Endpoints object is cached under that key, a MODIFIED
    event sends nothing, whatever cached Endpoints objects name the pod. *)
Theorem endpointsPodHandler_modified_lookup (ord : rangeOrder) (cfg : apiConfig)
    (wr : watchResponse) (p : Pod) (w : World) :
  unmarshalPod (wr_Object wr) = Some p →
  wr_Action wr = "MODIFIED" →
  sc_Endpoints (w_sc w) !! Pod_key p = None →
  sent (endpointsPodHandler ord cfg wr w) = sent w.
Proof.
  intros Hp Ha Hnone. unfold endpointsPodHandler. rewrite Hp, Ha.
  rewrite decide_True by done.
  assert (Hsc : sc_Endpoints (w_sc (updatePodCache p "MODIFIED" w)) = sc_Endpoints (w_sc w))
    by reflexivity.
  rewrite Hsc, Hnone. apply sent_updatePodCache.
Qed.

(** C5 (the code at the failing input). The bootstrap handler of the
    endpointslices list never touches the EndpointSlice cache, so a listed
    slice that was not cached is still not cached after the bootstrap, whereas
    the watch handler of the same kind stores the slice of an ADDED event. *)
Theorem endpointslicesSync_skips_cache (data : string) (items : list EndpointSlice)
    (rv : string) (e : EndpointSlice) (w : World) :
  parseEndpointSlicesList data = Some (items, rv) →
  e ∈ items →
  sc_EndpointsSlices (w_sc w) !! EndpointSlice_key e = None →
  sc_EndpointsSlices (w_sc (endpointslicesSync data w).2) !! EndpointSlice_key e = None ∧
  (∀ wr, unmarshalEndpointSlice (wr_Object wr) = Some e → wr_Action wr = "ADDED" →
         sc_EndpointsSlices (w_sc (endpointslicesHandler wr w)) !! EndpointSlice_key e = Some e).
Proof.
  intros Hparse _ Hnone. split.
  - unfold endpointslicesSync. rewrite Hparse. simpl.
    assert (Hsame : ∀ l w0,
      sc_EndpointsSlices (w_sc (foldl (λ w eps,
         emit (EvCall "processEndpointSlices" (EndpointSlice_key eps) "ADDED")
           (withMs (go_appends (w_ms w)
                      (EndpointSlice_appendTargetLabels eps (sc_Pods (w_sc w)) (w_heap w)
                         (sc_Services (w_sc w)))) w)) w0 l)) =
      sc_EndpointsSlices (w_sc w0)).
    { induction l as [|x l IH]; intros w0; simpl; [done|]. by rewrite IH. }
    by rewrite Hsame.
  - intros wr He Ha. unfold endpointslicesHandler. rewrite He, Ha. simpl.
    unfold updateCache. rewrite decide_True by (by left). apply lookup_insert_eq.
Qed.

End OrchestratorFacts.

(** Scenario S4: the cached endpoints ns1/svc1 name the pod ns1/p1, the pod
    is modified, and nothing is sent. *)
Lemma endpointsPodHandler_modified_lookup_witness :
  unmarshalPod "pod ns1/p1" = Some exPod1Modified ∧
  sc_Endpoints (w_sc exWorldS4) !! "ns1/svc1" = Some exEndpoints ∧
  refersTo {[ Pod_key exPod1Modified := 0%nat ]} (exAddress "10.0.0.1" "Pod" "ns1" "p1") 0%nat ∧
  sent (endpointsPodHandler map_to_list exConfig
          {| wr_Action := "MODIFIED"; wr_Object := "pod ns1/p1" |} exWorldS4) = [].
Proof.
  split; [reflexivity|]. split; [reflexivity|]. split; [split; reflexivity|].
  apply (endpointsPodHandler_modified_lookup map_to_list exConfig
           {| wr_Action := "MODIFIED"; wr_Object := "pod ns1/p1" |} exPod1Modified exWorldS4);
    reflexivity.
Defined.

(** The bootstrap of the role endpointslices over a list of one slice. *)
Lemma endpointslicesSync_skips_cache_witness :
  parseEndpointSlicesList "/apis/discovery.k8s.io/v1beta1/endpointslices" =
    Some ([exSlice], "rv-slices") ∧
  sc_EndpointsSlices
    (w_sc (endpointslicesSync "/apis/discovery.k8s.io/v1beta1/endpointslices" emptyWorld).2)
    !! "ns1/svc1-abcde" = None ∧
  sc_EndpointsSlices
    (w_sc (endpointslicesHandler {| wr_Action := "ADDED"; wr_Object := "slice ns1/svc1-abcde" |}
             emptyWorld)) !! "ns1/svc1-abcde" = Some exSlice.
Proof.
  split; [reflexivity|].
  destruct (endpointslicesSync_skips_cache "/apis/discovery.k8s.io/v1beta1/endpointslices"
              [exSlice] "rv-slices" exSlice emptyWorld) as [Hb Hw].
  - reflexivity.
  - left.
  - reflexivity.
  - split; [exact Hb|].
    apply (Hw {| wr_Action := "ADDED"; wr_Object := "slice ns1/svc1-abcde" |}); reflexivity.
Defined.

(** ** The order of the bootstrap *)

Lemma writeThrough_lookup {V} (keys : list string) (v : V) (cache : gmap string V) k :
  writeThrough keys v cache !! k = if decide (k ∈ keys) then Some v else cache !! k.
Proof.
  unfold writeThrough. induction keys as [|k' keys IH]; simpl; [done|].
  destruct (decide (k' = k)) as [->|Hne].
  - rewrite lookup_insert_eq. by rewrite decide_True by left.
  - rewrite lookup_insert_ne by done. rewrite IH.
    destruct (decide (k ∈ keys)) as [Hin|Hnin].
    + by rewrite decide_True by (by right).
    + rewrite decide_False; [done|]. intros [->|?]%elem_of_cons; done.
Qed.

Lemma updateCache_added {V} (cache : gmap string V) (key : string) (v : V) :
  updateCache cache key v "ADDED" = <[key := v]> cache.
Proof. unfold updateCache. by rewrite decide_True by (by left). Qed.

Section Bootstrap.
Context `{W : LabelWriters} `{C : Cluster}.
Variable cfg : apiConfig.

Lemma startWatchForObject_paths objectName getSync w :
  startWatchForObject cfg objectName getSync w =
  foldl (λ w path, listAndSpawn objectName path getSync w) w (watchPaths cfg objectName).
Proof.
  unfold startWatchForObject, watchPaths.
  destruct (cfg_namespaces cfg) as [|ns nss]; [done|].
  generalize (ns :: nss) as l. intros l. revert w.
  induction l as [|x l IH]; intros w; simpl; [done|]. apply IH.
Qed.

(** *** Pods *)

(** The loop over the listed pods, with its variable at the address [q]. *)
Lemma podCacheSync_loop (q : ptr) items w :
  let w' := foldl (λ w pod, updatePodCacheAt q "ADDED" (writePod q pod w)) w items in
  w_trace w' = w_trace w ++ map (λ p, EvCache "pods" (Pod_key p) "ADDED") items ∧
  (∀ k, sc_Pods (w_sc w') !! k =
        if decide (k ∈ map Pod_key items) then Some q else sc_Pods (w_sc w) !! k) ∧
  (∀ q', w_heap w' q' =
         if decide (q' = q) then default (w_heap w q) (last items) else w_heap w q') ∧
  w_next w' = w_next w ∧
  sc_Services (w_sc w') = sc_Services (w_sc w) ∧
  sc_Endpoints (w_sc w') = sc_Endpoints (w_sc w) ∧
  sc_EndpointsSlices (w_sc w') = sc_EndpointsSlices (w_sc w) ∧
  w_ms w' = w_ms w.
Proof.
  revert w. induction items as [|p items IH]; intros w; simpl.
  - split_and!; try done; [by rewrite app_nil_r|].
    intros q'. by case_decide; subst.
  - set (w1 := updatePodCacheAt q "ADDED" (writePod q p w)).
    assert (Hkey : Pod_key (w_heap (writePod q p w) q) = Pod_key p)
      by (simpl; by rewrite decide_True).
    destruct (IH w1) as (Ht & Hpods & Hheap & Hnext & Hsvc & Hep & Hes & Hms).
    split_and!.
    + rewrite Ht. unfold w1, updatePodCacheAt. rewrite Hkey. simpl.
      by rewrite <- app_assoc.
    + intros k. rewrite Hpods. unfold w1, updatePodCacheAt. rewrite Hkey.
      cbn [w_sc emit withCache sc_Pods]. rewrite updateCache_added.
      cbn [map]. repeat case_decide; try done.
      * exfalso. match goal with H : ¬ _ |- _ => apply H end. by right.
      * match goal with H : k ∈ _ :: _ |- _ => apply elem_of_cons in H as [->|?] end;
          [apply lookup_insert_eq|done].
      * apply lookup_insert_ne. intros <-.
        match goal with H : ¬ (_ ∈ _ :: _) |- _ => apply H end. left.
    + intros q'. rewrite Hheap. simpl. rewrite last_cons.
      destruct (decide (q' = q)) as [->|Hne]; [|done].
      rewrite decide_True by done. by destruct (last items).
    + by rewrite Hnext.
    + by rewrite Hsvc.
    + by rewrite Hep.
    + by rewrite Hes.
    + by rewrite Hms.
Qed.

(** One list of pods: every listed key leads to the one cell of the loop,
    which holds the last item; what was allocated before is untouched. *)
Lemma listAndSpawn_pods path w :
  let w' := listAndSpawn "pods" path podCacheSync w in
  w_trace w' = w_trace w ++ podsBlock path ∧
  (∀ k, sc_Pods (w_sc w') !! k =
        if decide (k ∈ map Pod_key (listedPods path)) then Some (w_next w)
        else sc_Pods (w_sc w) !! k) ∧
  (∀ q', (q' < w_next w)%nat → w_heap w' q' = w_heap w q') ∧
  (∀ x, last (listedPods path) = Some x → w_heap w' (w_next w) = x) ∧
  (w_next w ≤ w_next w')%nat ∧
  (listedPods path ≠ [] → (w_next w < w_next w')%nat) ∧
  sc_Services (w_sc w') = sc_Services (w_sc w) ∧
  w_ms w' = w_ms w.
Proof.
  unfold listAndSpawn, podCacheSync, podsBlock, listedPods, podsVersion.
  destruct (parsePodList (default "" (getBlockingAPIResponse path))) as [[items rv]|]; simpl.
  - match goal with |- context [foldl ?f ?w0 items] =>
      destruct (podCacheSync_loop (w_next w) items w0)
        as (Ht & Hpods & Hheap & Hnext & Hsvc & _ & _ & Hms)
    end.
    simpl in *. split_and!.
    + rewrite Ht. simpl. by rewrite <- !app_assoc.
    + exact Hpods.
    + intros q' Hlt. rewrite Hheap. rewrite decide_False by lia.
      by rewrite decide_False by lia.
    + intros x Hx. rewrite Hheap, decide_True by done. by rewrite Hx.
    + rewrite Hnext. lia.
    + intros _. rewrite Hnext. lia.
    + exact Hsvc.
    + exact Hms.
  - split_and!; try done.
    + by rewrite <- !app_assoc.
Qed.

Lemma podsJoined_step done path w :
  podsJoined done w → podsJoined (done ++ [path]) (listAndSpawn "pods" path podCacheSync w).
Proof.
  intros Hinv path1 pod Hpath1 Hpod.
  destruct (listAndSpawn_pods path w) as (_ & Hpods & Hheap & Hlast & Hle & Hlt & _).
  destruct (decide (Pod_key pod ∈ map Pod_key (listedPods path))) as [Hin|Hnin].
  - assert (Hne : listedPods path ≠ []).
    { intros E. rewrite E in Hin. by apply elem_of_nil in Hin. }
    destruct (last (listedPods path)) as [x|] eqn:Hx;
      [|by apply last_None in Hx].
    exists (w_next w), path. split_and!.
    + rewrite Hpods. by rewrite decide_True.
    + by apply Hlt.
    + apply elem_of_app. right. left.
    + done.
    + rewrite Hx. f_equal. symmetry. by apply Hlast.
  - assert (Hold : path1 ∈ done).
    { apply elem_of_app in Hpath1 as [?|Heq]; [done|].
      apply list_elem_of_singleton in Heq as ->. exfalso. apply Hnin.
      apply list_elem_of_fmap. by exists pod. }
    destruct (Hinv path1 pod Hold Hpod) as (q & path' & Hq & Hqlt & Hp' & Hk & Hl).
    exists q, path'. split_and!.
    + rewrite Hpods. by rewrite decide_False.
    + lia.
    + apply elem_of_app. by left.
    + done.
    + rewrite Hl. f_equal. symmetry. by apply Hheap.
Qed.

Lemma startWatchForObject_pods w :
  let w' := startWatchForObject cfg "pods" podCacheSync w in
  w_trace w' = w_trace w ++ flat_map podsBlock (watchPaths cfg "pods") ∧
  podsJoined (watchPaths cfg "pods") w' ∧
  sc_Services (w_sc w') = sc_Services (w_sc w) ∧
  w_ms w' = w_ms w.
Proof.
  rewrite startWatchForObject_paths. generalize (watchPaths cfg "pods") as paths.
  intros paths.
  assert (Hgen : ∀ done w,
    podsJoined done w →
    let w' := foldl (λ w path, listAndSpawn "pods" path podCacheSync w) w paths in
    w_trace w' = w_trace w ++ flat_map podsBlock paths ∧
    podsJoined (done ++ paths) w' ∧
    sc_Services (w_sc w') = sc_Services (w_sc w) ∧
    w_ms w' = w_ms w).
  { induction paths as [|path paths IH]; intros done w0 Hinv; simpl.
    - rewrite !app_nil_r. done.
    - destruct (listAndSpawn_pods path w0) as (Ht1 & _ & _ & _ & _ & _ & Hsvc1 & Hms1).
      destruct (IH (done ++ [path]) (listAndSpawn "pods" path podCacheSync w0)
                  (podsJoined_step done path w0 Hinv)) as (Ht & Hj & Hsvc & Hms).
      split_and!.
      + rewrite Ht, Ht1. by rewrite <- app_assoc.
      + by rewrite <- app_assoc in Hj.
      + by rewrite Hsvc.
      + by rewrite Hms. }
  apply (Hgen [] w). intros path pod Hpath. by apply elem_of_nil in Hpath.
Qed.

End Bootstrap.

Section BootstrapServices.
Context `{W : LabelWriters} `{C : Cluster}.
Variable cfg : apiConfig.

(** *** Services *)

(** The loop over the listed services, whose variable is already stored under
    the keys [stored]. *)
Lemma serviceCacheSync_loop items w stored :
  let r := foldl (λ st svc,
                    (updateServiceCache svc "ADDED" (assignServiceVar st.2 svc st.1),
                     Service_key svc :: st.2))
                 (w, stored) items in
  w_trace r.1 = w_trace w ++ map (λ s, EvCache "services" (Service_key s) "ADDED") items ∧
  (∀ k, sc_Services (w_sc r.1) !! k =
        match last items with
        | Some x => if decide (k ∈ map Service_key items ∨ k ∈ stored) then Some x
                    else sc_Services (w_sc w) !! k
        | None => sc_Services (w_sc w) !! k
        end) ∧
  sc_Pods (w_sc r.1) = sc_Pods (w_sc w) ∧
  w_heap r.1 = w_heap w ∧
  w_next r.1 = w_next w ∧
  w_ms r.1 = w_ms w.
Proof.
  revert w stored. induction items as [|s items IH]; intros w stored.
  - simpl. split_and!; try done. by rewrite app_nil_r.
  - cbn [foldl]. cbn [fst snd].
    set (w1 := updateServiceCache s "ADDED" (assignServiceVar stored s w)).
    destruct (IH w1 (Service_key s :: stored)) as (Ht & Hsvc & Hpods & Hheap & Hnext & Hms).
    assert (H1 : ∀ k, sc_Services (w_sc w1) !! k =
                      if decide (k = Service_key s ∨ k ∈ stored) then Some s
                      else sc_Services (w_sc w) !! k).
    { intros k. unfold w1, updateServiceCache, assignServiceVar.
      cbn [w_sc emit withCache sc_Services]. rewrite updateCache_added.
      destruct (decide (Service_key s = k)) as [<-|Hne].
      - rewrite lookup_insert_eq. by rewrite decide_True by (by left).
      - rewrite lookup_insert_ne by done. rewrite writeThrough_lookup.
        repeat case_decide; try done; naive_solver. }
    split_and!.
    + rewrite Ht. unfold w1, updateServiceCache, assignServiceVar. simpl.
      by rewrite <- app_assoc.
    + intros k. rewrite Hsvc, last_cons. cbn [map]. destruct (last items) as [x|] eqn:Hx.
      * rewrite H1. repeat case_decide; try done;
          exfalso; set_solver.
      * rewrite H1. apply last_None in Hx as ->.
        cbn [map]. repeat case_decide; try done; exfalso; set_solver.
    + by rewrite Hpods.
    + by rewrite Hheap.
    + by rewrite Hnext.
    + by rewrite Hms.
Qed.

Lemma listAndSpawn_services path w :
  let w' := listAndSpawn "services" path serviceCacheSync w in
  w_trace w' = w_trace w ++ servicesBlock path ∧
  (∀ k, sc_Services (w_sc w') !! k =
        if decide (k ∈ map Service_key (listedServices path)) then last (listedServices path)
        else sc_Services (w_sc w) !! k) ∧
  sc_Pods (w_sc w') = sc_Pods (w_sc w) ∧
  w_heap w' = w_heap w ∧
  w_next w' = w_next w ∧
  w_ms w' = w_ms w.
Proof.
  unfold listAndSpawn, serviceCacheSync, servicesBlock, listedServices, servicesVersion.
  destruct (parseServiceList (default "" (getBlockingAPIResponse path))) as [[items rv]|];
    cbn [fst snd].
  - destruct (serviceCacheSync_loop items (emit (EvList "services" path) w) [])
      as (Ht & Hsvc & Hpods & Hheap & Hnext & Hms).
    cbn [w_trace emit w_sc w_heap w_next w_ms] in *. split_and!; try done.
    + rewrite Ht. simpl. by rewrite <- !app_assoc.
    + intros k. rewrite Hsvc. destruct (last items) as [x|] eqn:Hx.
      * repeat case_decide; try done; exfalso; set_solver.
      * apply last_None in Hx as ->. by rewrite decide_False by apply not_elem_of_nil.
  - simpl. split_and!; try done.
    + by rewrite <- !app_assoc.
Qed.

Lemma servicesJoined_step done path w :
  servicesJoined done w →
  servicesJoined (done ++ [path]) (listAndSpawn "services" path serviceCacheSync w).
Proof.
  intros Hinv path1 svc Hpath1 Hsvc.
  destruct (listAndSpawn_services path w) as (_ & Hlook & _).
  destruct (decide (Service_key svc ∈ map Service_key (listedServices path))) as [Hin|Hnin].
  - assert (Hne : listedServices path ≠ []).
    { intros E. rewrite E in Hin. by apply elem_of_nil in Hin. }
    destruct (last (listedServices path)) as [x|] eqn:Hx;
      [|by apply last_None in Hx].
    exists x, path. split_and!.
    + rewrite Hlook. rewrite decide_True by done. done.
    + apply elem_of_app. right. left.
    + done.
    + done.
  - assert (Hold : path1 ∈ done).
    { apply elem_of_app in Hpath1 as [?|Heq]; [done|].
      apply list_elem_of_singleton in Heq as ->. exfalso. apply Hnin.
      apply list_elem_of_fmap. by exists svc. }
    destruct (Hinv path1 svc Hold Hsvc) as (svc' & path' & Hq & Hp' & Hk & Hl).
    exists svc', path'. split_and!; try done.
    + rewrite Hlook. by rewrite decide_False.
    + apply elem_of_app. by left.
Qed.

Lemma startWatchForObject_services w :
  let w' := startWatchForObject cfg "services" serviceCacheSync w in
  w_trace w' = w_trace w ++ flat_map servicesBlock (watchPaths cfg "services") ∧
  servicesJoined (watchPaths cfg "services") w' ∧
  sc_Pods (w_sc w') = sc_Pods (w_sc w) ∧
  w_heap w' = w_heap w ∧
  w_next w' = w_next w ∧
  w_ms w' = w_ms w.
Proof.
  rewrite startWatchForObject_paths. generalize (watchPaths cfg "services") as paths.
  intros paths.
  assert (Hgen : ∀ done w,
    servicesJoined done w →
    let w' := foldl (λ w path, listAndSpawn "services" path serviceCacheSync w) w paths in
    w_trace w' = w_trace w ++ flat_map servicesBlock paths ∧
    servicesJoined (done ++ paths) w' ∧
    sc_Pods (w_sc w') = sc_Pods (w_sc w) ∧
    w_heap w' = w_heap w ∧
    w_next w' = w_next w ∧
    w_ms w' = w_ms w).
  { induction paths as [|path paths IH]; intros done w0 Hinv; simpl.
    - rewrite !app_nil_r. done.
    - destruct (listAndSpawn_services path w0) as (Ht1 & _ & Hp1 & Hh1 & Hn1 & Hms1).
      destruct (IH (done ++ [path]) (listAndSpawn "services" path serviceCacheSync w0)
                  (servicesJoined_step done path w0 Hinv))
        as (Ht & Hj & Hp & Hh & Hn & Hms).
      split_and!.
      + rewrite Ht, Ht1. by rewrite <- app_assoc.
      + by rewrite <- app_assoc in Hj.
      + by rewrite Hp.
      + by rewrite Hh.
      + by rewrite Hn.
      + by rewrite Hms. }
  apply (Hgen [] w). intros path svc Hpath. by apply elem_of_nil in Hpath.
Qed.

End BootstrapServices.

Section BootstrapOrder.
Context `{W : LabelWriters} `{C : Cluster}.
Variable ordMs ordEv : nat → rangeOrder.
Variable cfg : apiConfig.

Lemma sameJoin_refl w : sameJoin w w.
Proof. by split_and!. Qed.

Lemma sameJoin_trans w1 w2 w3 : sameJoin w1 w2 → sameJoin w2 w3 → sameJoin w1 w3.
Proof. intros (? & ? & ?) (? & ? & ?). split_and!; congruence. Qed.

Lemma phase3Event_sameJoin w w' objectName e :
  sameJoin w w' →
  phase3Event ordEv (sc_Pods (w_sc w')) (w_heap w') (sc_Services (w_sc w')) objectName e →
  phase3Event ordEv (sc_Pods (w_sc w)) (w_heap w) (sc_Services (w_sc w)) objectName e.
Proof. intros (-> & -> & ->). done. Qed.

Lemma phase3Step_refl objectName w : phase3Step ordEv objectName w w.
Proof. split; [apply sameJoin_refl|]. exists []. by rewrite app_nil_r. Qed.

Lemma phase3Step_trans objectName w1 w2 w3 :
  phase3Step ordEv objectName w1 w2 → phase3Step ordEv objectName w2 w3 →
  phase3Step ordEv objectName w1 w3.
Proof.
  intros [Hj1 (t1 & Ht1 & Hf1)] [Hj2 (t2 & Ht2 & Hf2)].
  split; [by eapply sameJoin_trans|].
  exists (t1 ++ t2). split; [by rewrite Ht2, Ht1, app_assoc|].
  apply Forall_app. split; [done|].
  eapply Forall_impl; [exact Hf2|]. intros e. by apply phase3Event_sameJoin.
Qed.

Lemma phase3Step_emit objectName e w :
  phase3Event ordEv (sc_Pods (w_sc w)) (w_heap w) (sc_Services (w_sc w)) objectName e →
  phase3Step ordEv objectName w (emit e w).
Proof. intros He. split; [by split_and!|]. exists [e]. split; [done|]. by constructor. Qed.

Lemma phase3Step_withMs objectName ms w : phase3Step ordEv objectName w (withMs ms w).
Proof. split; [by split_and!|]. exists []. split; [by rewrite app_nil_r|done]. Qed.

Lemma phase3Step_foldl {A} objectName (f : World → A → World) (l : list A) :
  (∀ w a, phase3Step ordEv objectName w (f w a)) →
  ∀ w, phase3Step ordEv objectName w (foldl f w l).
Proof.
  intros Hf. induction l as [|a l IH]; intros w; simpl; [apply phase3Step_refl|].
  eapply phase3Step_trans; [apply Hf|apply IH].
Qed.

(** The same for a loop that carries the keys stored for its variable. *)
Lemma phase3Step_foldl_stored {A} objectName
    (f : World * list string → A → World * list string) (l : list A) :
  (∀ st a, phase3Step ordEv objectName st.1 (f st a).1) →
  ∀ st, phase3Step ordEv objectName st.1 (foldl f st l).1.
Proof.
  intros Hf. induction l as [|a l IH]; intros st; simpl; [apply phase3Step_refl|].
  eapply phase3Step_trans; [apply Hf|apply IH].
Qed.

Lemma endpointsSync_phase3 data w :
  phase3Step ordEv "endpoints" w (endpointsSync ordMs ordEv cfg data w).2.
Proof.
  unfold endpointsSync. destruct (parseEndpointsList data) as [[items rv]|]; cbn [snd];
    [|apply phase3Step_refl].
  apply (phase3Step_foldl_stored "endpoints" _ items) with (st := (w, [])).
  intros [w0 stored] ep. cbn [fst snd].
  set (w0' := assignEndpointsVar stored ep w0).
  set (n := length (sent w0')).
  set (wa := withMs (appendTargetLabels (ordMs n) ep (w_ms w0') (sc_Pods (w_sc w0'))
                       (w_heap w0') (sc_Services (w_sc w0'))) w0').
  apply (phase3Step_trans _ w0 w0').
  { split; [by split_and!|]. exists []. split; [by rewrite app_nil_r|done]. }
  apply (phase3Step_trans _ w0' wa); [apply phase3Step_withMs|].
  apply (phase3Step_trans _ wa (processEndpoints (ordEv n) (cfg_setName cfg) ep "ADDED" wa)).
  - unfold processEndpoints. rewrite decide_True by (by left).
    apply phase3Step_emit. simpl. by exists n, ep.
  - unfold updateEndpointsCache. split; [by split_and!|].
    eexists [_]. split; [reflexivity|]. by constructor.
Qed.

Lemma endpointslicesSync_phase3 data w :
  phase3Step ordEv "endpointslices" w (endpointslicesSync data w).2.
Proof.
  unfold endpointslicesSync. destruct (parseEndpointSlicesList data) as [[items rv]|]; simpl;
    [|apply phase3Step_refl].
  apply phase3Step_foldl. intros w0 ep.
  set (wa := withMs (go_appends (w_ms w0)
                       (EndpointSlice_appendTargetLabels ep (sc_Pods (w_sc w0)) (w_heap w0)
                          (sc_Services (w_sc w0)))) w0).
  apply (phase3Step_trans _ w0 wa); [apply phase3Step_withMs|].
  by apply phase3Step_emit.
Qed.

Lemma startWatchForObject_phase3 objectName getSync w :
  (∀ data w, phase3Step ordEv objectName w (getSync data w).2) →
  phase3Step ordEv objectName w (startWatchForObject cfg objectName getSync w).
Proof.
  intros Hsync. rewrite startWatchForObject_paths.
  apply phase3Step_foldl. intros w0 path. unfold listAndSpawn.
  set (wa := emit (EvList objectName path) w0).
  apply (phase3Step_trans _ w0 wa); [by apply phase3Step_emit|].
  apply (phase3Step_trans _ wa (getSync (default "" (getBlockingAPIResponse path)) wa).2);
    [apply Hsync|]. by apply phase3Step_emit.
Qed.

(** *** The events of the role endpoints *)

Lemma appendTargetLabels_ms ord eps ms podsCache heap servicesCache :
  appendTargetLabels ord eps ms podsCache heap servicesCache =
  go_appends ms (elems (appendTargetLabels ord eps None podsCache heap servicesCache)).
Proof. rewrite !appendTargetLabels_eq. by rewrite elems_go_appends. Qed.

(** Two admissible orders give the same targets up to the order of the
    pass-2 targets. *)
Lemma appendTargetLabels_perm ord1 ord2 eps ms podsCache heap servicesCache :
  rangeAdmissible ord1 → rangeAdmissible ord2 →
  elems (appendTargetLabels ord1 eps ms podsCache heap servicesCache) ≡ₚ
  elems (appendTargetLabels ord2 eps ms podsCache heap servicesCache).
Proof.
  intros H1 H2. rewrite !appendTargetLabels_eq, !elems_go_appends.
  do 2 apply Permutation_app_head.
  apply Permutation_flat_map. by rewrite (H1 _), (H2 _).
Qed.

Lemma bootstrapStep_refl w : bootstrapStep ordMs ordEv (cfg_setName cfg) [] w w.
Proof. split_and!; [apply sameJoin_refl|by rewrite app_nil_r|done]. Qed.

Lemma bootstrapStep_trans eps1 eps2 w1 w2 w3 :
  bootstrapStep ordMs ordEv (cfg_setName cfg) eps1 w1 w2 →
  bootstrapStep ordMs ordEv (cfg_setName cfg) eps2 w2 w3 →
  bootstrapStep ordMs ordEv (cfg_setName cfg) (eps1 ++ eps2) w1 w3.
Proof.
  intros (Hj1 & Hs1 & Hm1) (Hj2 & Hs2 & Hm2).
  split; [by eapply sameJoin_trans|].
  destruct Hj1 as (Hp & Hsv & Hh). rewrite Hp, Hsv, Hh in Hs2, Hm2.
  assert (Hlen : length (sent w2) = (length (sent w1) + length eps1)%nat).
  { rewrite Hs1, length_app. unfold bootstrapEvents. by rewrite length_imap. }
  rewrite Hlen in Hs2, Hm2.
  split.
  - rewrite Hs2, Hs1, <- app_assoc. f_equal. unfold bootstrapEvents.
    rewrite imap_app. f_equal. apply imap_ext. intros i ep _. simpl.
    by rewrite Nat.add_assoc.
  - rewrite Hm2, Hm1, <- go_appends_app. f_equal. unfold bootstrapTargets.
    rewrite imap_app, concat_app. f_equal. f_equal. apply imap_ext. intros i ep _. simpl.
    by rewrite Nat.add_assoc.
Qed.

Lemma bootstrapStep_silent w w' :
  sameJoin w w' → sent w' = sent w → w_ms w' = w_ms w →
  bootstrapStep ordMs ordEv (cfg_setName cfg) [] w w'.
Proof. intros Hj Hs Hm. split_and!; [done|by rewrite Hs, app_nil_r|by rewrite Hm]. Qed.

Lemma sent_updateEndpointsCache e action w : sent (updateEndpointsCache e action w) = sent w.
Proof. unfold updateEndpointsCache. by rewrite sent_emit_other. Qed.

Lemma endpointsSync_item stored ep w :
  bootstrapStep ordMs ordEv (cfg_setName cfg) [ep] w
    (let w0 := assignEndpointsVar stored ep w in
     let n := length (sent w0) in
     updateEndpointsCache ep "ADDED"
       (processEndpoints (ordEv n) (cfg_setName cfg) ep "ADDED"
          (withMs (appendTargetLabels (ordMs n) ep (w_ms w0) (sc_Pods (w_sc w0)) (w_heap w0)
                     (sc_Services (w_sc w0))) w0))).
Proof.
  cbn zeta. change (sent (assignEndpointsVar stored ep w)) with (sent w).
  set (n := length (sent w)).
  set (wa := withMs _ (assignEndpointsVar stored ep w)).
  split_and!.
  - unfold processEndpoints. rewrite decide_True by (by left). by split_and!.
  - rewrite sent_updateEndpointsCache. unfold processEndpoints.
    rewrite decide_True by (by left). rewrite sent_emit_send.
    change (sent wa) with (sent w). f_equal.
    unfold bootstrapEvents. simpl. fold n. by rewrite Nat.add_0_r.
  - unfold processEndpoints. rewrite decide_True by (by left).
    unfold bootstrapTargets. simpl. fold n. rewrite app_nil_r, Nat.add_0_r.
    apply appendTargetLabels_ms.
Qed.

Lemma endpointsSync_bootstrap data w :
  bootstrapStep ordMs ordEv (cfg_setName cfg)
    (match parseEndpointsList data with Some (items, _) => items | None => [] end)
    w (endpointsSync ordMs ordEv cfg data w).2.
Proof.
  unfold endpointsSync. destruct (parseEndpointsList data) as [[items rv]|]; cbn [snd];
    [|apply bootstrapStep_refl].
  generalize (@nil string) as stored. revert w.
  induction items as [|ep items IH]; intros w stored; [apply bootstrapStep_refl|].
  cbn [foldl]. cbn [fst snd].
  apply (bootstrapStep_trans [ep] items w _ _ (endpointsSync_item stored ep w)). apply IH.
Qed.

Lemma startWatchForObject_endpoints_bootstrap w :
  bootstrapStep ordMs ordEv (cfg_setName cfg)
    (flat_map listedEndpoints (watchPaths cfg "endpoints"))
    w (startWatchForObject cfg "endpoints" (endpointsSync ordMs ordEv cfg) w).
Proof.
  rewrite startWatchForObject_paths.
  generalize (watchPaths cfg "endpoints") as paths. intros paths. revert w.
  induction paths as [|path paths IH]; intros w; simpl; [apply bootstrapStep_refl|].
  apply (bootstrapStep_trans (listedEndpoints path) _ w
           (listAndSpawn "endpoints" path (endpointsSync ordMs ordEv cfg) w)); [|apply IH].
  unfold listAndSpawn.
  set (wa := emit (EvList "endpoints" path) w).
  set (wb := (endpointsSync ordMs ordEv cfg (default "" (getBlockingAPIResponse path)) wa).2).
  assert (Ha : bootstrapStep ordMs ordEv (cfg_setName cfg) [] w wa).
  { apply bootstrapStep_silent; [by split_and!|by apply sent_emit_other|done]. }
  assert (Hb : bootstrapStep ordMs ordEv (cfg_setName cfg) (listedEndpoints path) wa wb)
    by apply endpointsSync_bootstrap.
  assert (Hc : bootstrapStep ordMs ordEv (cfg_setName cfg) [] wb
                 (emit (EvSpawn "endpoints" path
                          (endpointsSync ordMs ordEv cfg
                             (default "" (getBlockingAPIResponse path)) wa).1)
                       wb)).
  { apply bootstrapStep_silent; [by split_and!|by apply sent_emit_other|done]. }
  pose proof (bootstrapStep_trans _ _ _ _ _ Ha (bootstrapStep_trans _ _ _ _ _ Hb Hc)) as H.
  simpl in H. by rewrite app_nil_r in H.
Qed.

(** A run that adds no event sent leaves the events sent as they are. *)
Lemma sent_quiet_trace w w' t :
  w_trace w' = w_trace w ++ t → Forall (λ e, ∀ s, e ≠ EvSend s) t → sent w' = sent w.
Proof.
  intros Ht Hq. unfold sent. rewrite Ht, omap_app.
  assert (Hnil : omap (λ e, match e with EvSend s => Some s | _ => None end) t = []).
  { clear Ht. induction t as [|e t IH]; [done|].
    apply Forall_cons in Hq as [He Hq]. destruct e; try (by apply IH).
    by destruct (He e). }
  by rewrite Hnil, app_nil_r.
Qed.

Lemma podsBlock_quiet paths : Forall (λ e, ∀ s, e ≠ EvSend s) (flat_map podsBlock paths).
Proof.
  apply Forall_forall. intros e He s ->.
  apply list_elem_of_In, in_flat_map in He as (path & _ & He).
  unfold podsBlock in He. destruct He as [He|He]; [done|].
  apply in_app_or in He as [He|[He|[]]]; [|done].
  apply in_map_iff in He as (p & He & _). done.
Qed.

Lemma servicesBlock_quiet paths :
  Forall (λ e, ∀ s, e ≠ EvSend s) (flat_map servicesBlock paths).
Proof.
  apply Forall_forall. intros e He s ->.
  apply list_elem_of_In, in_flat_map in He as (path & _ & He).
  unfold servicesBlock in He. destruct He as [He|He]; [done|].
  apply in_app_or in He as [He|[He|[]]]; [|done].
  apply in_map_iff in He as (p & He & _). done.
Qed.

(** C10 (what the code does). Under the roles endpoints and endpointslices
    the orchestrator first runs startWatchForObject for pods and then for
    services: for each path the list is fetched, its items are folded into
    the cache, and only then the watch of that path is started; every one of
    these events precedes the first event of the endpoints (or endpointslices)
    phase, which leaves both caches as they are and builds the targets of
    every event it sends from them, one event per listed Endpoints object
    under the role endpoints. But each loop stores the address of its
    one loop variable: when the last phase starts, the pod cache holds under
    the key of every listed pod the address of a cell whose pod is the last
    item of a list response with an item of that key, and the service cache
    likewise holds the last item of such a response. The join sees the last
    listed pod and the last listed service under every listed key, not the
    pods and services that were listed. *)
Theorem startWatcherByRole_join_sees_last_listed (role : string) (w : World) :
  role = "endpoints" ∨ role = "endpointslices" →
  let w2 := startWatchForObject cfg "services" serviceCacheSync
              (startWatchForObject cfg "pods" podCacheSync (withMs None w)) in
  let w3 := (startWatcherByRole ordMs ordEv cfg role w).2 in
  ∃ t3,
    w_trace w2 = w_trace w ++ flat_map podsBlock (watchPaths cfg "pods") ++
                 flat_map servicesBlock (watchPaths cfg "services") ∧
    w_trace w3 = w_trace w2 ++ t3 ∧
    Forall (λ e, ¬ aboutKind "pods" e ∧ ¬ aboutKind "services" e) t3 ∧
    podsJoined (watchPaths cfg "pods") w2 ∧
    servicesJoined (watchPaths cfg "services") w2 ∧
    sameJoin w2 w3 ∧
    (∀ s, EvSend s ∈ t3 →
          ∃ n ep, se_Labels s = appendTargetLabels (ordEv n) ep None (sc_Pods (w_sc w2))
                                  (w_heap w2) (sc_Services (w_sc w2))) ∧
    (role = "endpoints" →
     sent w3 = sent w ++
               bootstrapEvents ordEv (cfg_setName cfg) (sc_Pods (w_sc w2)) (w_heap w2)
                 (sc_Services (w_sc w2)) (length (sent w))
                 (flat_map listedEndpoints (watchPaths cfg "endpoints"))).
Proof.
  intros Hrole w2 w3.
  set (w1 := startWatchForObject cfg "pods" podCacheSync (withMs None w)).
  destruct (startWatchForObject_pods cfg (withMs None w)) as (Ht1 & Hj1 & _ & _).
  destruct (startWatchForObject_services cfg w1) as (Ht2 & Hj2 & Hpods2 & Hheap2 & Hnext2 & _).
  fold w1 in Ht1, Hj1. change (startWatchForObject cfg "services" serviceCacheSync w1)
    with w2 in Ht2, Hj2, Hpods2, Hheap2, Hnext2.
  assert (H3 : ∃ objectName, (objectName = "endpoints" ∨ objectName = "endpointslices") ∧
                             phase3Step ordEv objectName w2 w3).
  { destruct Hrole as [-> | ->].
    - exists "endpoints". split; [by left|].
      apply (startWatchForObject_phase3 "endpoints" (endpointsSync ordMs ordEv cfg) w2).
      apply endpointsSync_phase3.
    - exists "endpointslices". split; [by right|].
      apply (startWatchForObject_phase3 "endpointslices" endpointslicesSync w2).
      apply endpointslicesSync_phase3. }
  destruct H3 as (objectName & Hobj & Hjoin & t3 & Ht3 & Hf3).
  exists t3. split_and!.
  - rewrite Ht2, Ht1. simpl. by rewrite <- app_assoc.
  - done.
  - eapply Forall_impl; [exact Hf3|]. intros e He.
    destruct e; simpl in *; destruct Hobj; subst; split; intros Hk;
      first [done | congruence].
  - intros path pod Hpath Hpod.
    destruct (Hj1 path pod Hpath Hpod) as (q & path' & Hq & Hlt & Hp' & Hk & Hl).
    exists q, path'. rewrite Hpods2, Hheap2, Hnext2. done.
  - done.
  - done.
  - intros s Hs. rewrite Forall_forall in Hf3. exact (Hf3 (EvSend s) Hs).
  - intros ->.
    assert (Hs1 : sent w1 = sent w).
    { apply (sent_quiet_trace (withMs None w) w1 _ Ht1), podsBlock_quiet. }
    assert (Hs2 : sent w2 = sent w).
    { rewrite <- Hs1. apply (sent_quiet_trace w1 w2 _ Ht2), servicesBlock_quiet. }
    destruct (startWatchForObject_endpoints_bootstrap w2) as (_ & Hs3 & _).
    rewrite Hs2 in Hs3. exact Hs3.
Qed.

End BootstrapOrder.

(** The role endpoints over the example cluster, whose pod list holds the
    pods ns1/p1 and ns1/p2 in this order: both keys lead to the one cell of
    the loop, which holds ns1/p2, and the event of the Endpoints object that
    names both pods has three targets, all with the labels of ns1/p2, where
    a join over the listed pods gives four. *)
Lemma startWatcherByRole_join_sees_last_listed_witness :
  let w2 := startWatchForObject exConfig "services" serviceCacheSync
              (startWatchForObject exConfig "pods" podCacheSync (withMs None emptyWorld)) in
  let w3 := (startWatcherByRole (λ _, map_to_list) (λ _, map_to_list) exConfig
               "endpoints" emptyWorld).2 in
  ("endpoints" = "endpoints" ∨ "endpoints" = "endpointslices") ∧
  (∃ t3,
    w_trace w3 =
      [ EvList "pods" "/api/v1/pods";
        EvCache "pods" "ns1/p1" "ADDED"; EvCache "pods" "ns1/p2" "ADDED";
        EvSpawn "pods" "/api/v1/pods" "rv-pods";
        EvList "services" "/api/v1/services";
        EvCache "services" "ns1/svc1" "ADDED";
        EvSpawn "services" "/api/v1/services" "rv-services" ] ++ t3 ∧
    Forall (λ e, ¬ aboutKind "pods" e ∧ ¬ aboutKind "services" e) t3) ∧
  listedPods "/api/v1/pods" = [exPod1; exPod2] ∧
  sc_Pods (w_sc w2) !! Pod_key exPod1 = Some 0%nat ∧
  sc_Pods (w_sc w2) !! Pod_key exPod2 = Some 0%nat ∧
  w_heap w2 0%nat = exPod2 ∧
  sentAddresses w3 = [["10.0.0.1:8080"; "10.0.0.2:8080"; "10.0.0.2:9091"]] ∧
  map (λ e, omap (λ m : labelMap, m !! "__meta_kubernetes_pod_name") (elems (se_Labels e)))
      (sent w3) = [["p2"; "p2"; "p2"]] ∧
  omap (λ m : labelMap, m !! "__address__")
       (elems (appendTargetLabels map_to_list exEndpointsTwoPods None
                 (sc_Pods (w_sc exWorldTwoPods)) (w_heap exWorldTwoPods) ∅)) =
    ["10.0.0.1:8080"; "10.0.0.2:8080"; "10.0.0.2:9091"; "10.0.0.1:9090"].
Proof.
  intros w2 w3.
  split; [by left|].
  destruct (startWatcherByRole_join_sees_last_listed (λ _, map_to_list) (λ _, map_to_list)
              exConfig "endpoints" emptyWorld)
    as (t3 & Ht2 & Ht3 & Hf & _); [by left|].
  split.
  { exists t3. split; [|exact Hf]. fold w3 in Ht3. rewrite Ht3, Ht2. reflexivity. }
  split_and!; vm_compute; reflexivity.
Defined.

(** ** The reconnect loop *)

Lemma wrapInt64_small x :
  -9223372036854775808 ≤ x < 9223372036854775808 → wrapInt64 x = x.
Proof.
  intros Hx. unfold wrapInt64.
  change (2 ^ 63) with 9223372036854775808.
  change (2 ^ 64) with 18446744073709551616.
  rewrite Z.mod_small; lia.
Qed.

(** The backoff held by the loop after [n] failed attempts. *)
Lemma watchLoop_sleeps outcomes path version (n : nat) :
  Forall (λ err, err ≠ Canceled) outcomes →
  sleeps (watchLoop outcomes path version (Z.min (1 + 5 * Z.of_nat n) 31 * Second)) =
  map (λ i : nat, Z.min (6 + 5 * Z.of_nat (n + i)) 31 * Second) (seq 0 (length outcomes)).
Proof.
  revert path version n.
  induction outcomes as [|err outcomes IH]; intros path version n Hall; [done|].
  apply Forall_cons in Hall as [Herr Hall]. simpl.
  rewrite decide_False by done.
  assert (Hstep : (if decide (Z.min (1 + 5 * Z.of_nat n) 31 * Second < maxBackOff)
                   then wrapInt64 (Z.min (1 + 5 * Z.of_nat n) 31 * Second + wrapInt64 (Second * 5))
                   else Z.min (1 + 5 * Z.of_nat n) 31 * Second) =
                  Z.min (1 + 5 * Z.of_nat (S n)) 31 * Second).
  { unfold maxBackOff.
    rewrite (wrapInt64_small (Second * 5)), (wrapInt64_small (Second * 30))
      by (unfold Second; lia).
    unfold Second. case_decide.
    - rewrite wrapInt64_small by lia. lia.
    - lia. }
  rewrite Hstep.
  change (sleeps (WStream path version ::
                    (if decide (err = EOF) then [] else [WLog err]) ++
                    WSleep (Z.min (1 + 5 * Z.of_nat (S n)) 31 * Second) ::
                    watchLoop outcomes path "" (Z.min (1 + 5 * Z.of_nat (S n)) 31 * Second)) =
          Z.min (6 + 5 * Z.of_nat (n + 0)) 31 * Second ::
          map (λ i : nat, Z.min (6 + 5 * Z.of_nat (n + i)) 31 * Second)
              (seq 1 (length outcomes))).
  assert (Hsl : ∀ l, sleeps (WStream path version ::
                       (if decide (err = EOF) then [] else [WLog err]) ++
                       WSleep (Z.min (1 + 5 * Z.of_nat (S n)) 31 * Second) :: l) =
                     Z.min (1 + 5 * Z.of_nat (S n)) 31 * Second :: sleeps l)
    by (intros l; destruct (decide (err = EOF)); reflexivity).
  rewrite Hsl, (IH path "" (S n) Hall). f_equal.
  - f_equal. lia.
  - rewrite <- seq_shift, map_map. apply map_ext. intros i. do 2 f_equal. lia.
Qed.

(** C3 (the code under continuous failure). While getStreamAPIResponse keeps
    failing with an error other than cancellation, the k-th sleep of
    startWatchForResource, counted from zero, lasts min(6 + 5k, 31) seconds:
    6, 11, 16, 21, 26, 31, 31, ... The backoff is raised before the sleep, so
    no sleep lasts 1 s, and the raise from 26 s passes the bound of 30 s. *)
Theorem startWatchForResource_sleeps (outcomes : list error) (path version : string) :
  Forall (λ err, err ≠ Canceled) outcomes →
  sleeps (startWatchForResource outcomes path version) =
  map (λ k : nat, Z.min (6 + 5 * Z.of_nat k) 31 * Second) (seq 0 (length outcomes)).
Proof.
  intros Hall. unfold startWatchForResource.
  exact (watchLoop_sleeps outcomes (path +:+ "?watch=1") version 0 Hall).
Qed.

(** Eight failed attempts in a row: the sleeps of the code, next to the
    sequence of the claim. *)
Lemma startWatchForResource_sleeps_witness :
  Forall (λ err, err ≠ Canceled) (replicate 8 (ErrOther "connection refused")) ∧
  sleeps (startWatchForResource (replicate 8 (ErrOther "connection refused"))
            "/api/v1/pods" "rv-pods") =
    map (λ s, s * Second) [6; 11; 16; 21; 26; 31; 31; 31] ∧
  map claimedBackoff (seq 0 8) = map (λ s, s * Second) [1; 6; 11; 16; 21; 26; 30; 30].
Proof.
  assert (Hall : Forall (λ err, err ≠ Canceled) (replicate 8 (ErrOther "connection refused")))
    by (repeat constructor; discriminate).
  split; [exact Hall|]. split; [|reflexivity].
  rewrite (startWatchForResource_sleeps _ "/api/v1/pods" "rv-pods" Hall). reflexivity.
Defined.

(** ** The framed reader *)

Lemma length_writeAt b offset data :
  (offset + length data ≤ length b)%nat → length (writeAt b offset data) = length b.
Proof.
  intros H. unfold writeAt. rewrite !length_app, length_take, length_drop. lia.
Qed.

Lemma take_writeAt b offset data :
  (offset + length data ≤ length b)%nat →
  take (offset + length data) (writeAt b offset data) = take offset b ++ data.
Proof.
  intros H. unfold writeAt. rewrite app_assoc.
  rewrite take_app_length'; [done|]. rewrite length_app, length_take. lia.
Qed.

Lemma length_Resize b n : length (Resize b n) = n.
Proof.
  unfold Resize. rewrite length_take, length_app, length_replicate. lia.
Qed.

Lemma take_Resize b n k : (k ≤ length b)%nat → (k ≤ n)%nat → take k (Resize b n) = take k b.
Proof.
  intros Hk Hn. unfold Resize. rewrite take_take, Nat.min_l by done.
  by rewrite take_app_le.
Qed.

Section AnyReader.
Context {R : Type} (Read : R → nat → list byte * option error * R).

(** One read that signals a short buffer after reading something: the loop
    goes on with a buffer twice as long that starts with the bytes read so
    far. *)
Lemma readJSONObject_loop_short fuel r b offset data r' :
  Read r (length b - offset) = (data, Some ErrShortBuffer, r') →
  data ≠ [] →
  readJSONObject_loop Read (S fuel) r b offset =
  readJSONObject_loop Read fuel r'
    (Resize (writeAt b offset data) (length b * 2))
    (offset + length data).
Proof.
  intros HR Hne. simpl. rewrite HR. simpl.
  rewrite decide_False; [done|]. by destruct data.
Qed.

Lemma readJSONObject_loop_short_zero fuel r b offset r' :
  Read r (length b - offset) = ([], Some ErrShortBuffer, r') →
  readJSONObject_loop Read (S fuel) r b offset = Some (r', inr ErrShortBufferZero).
Proof. intros HR. simpl. rewrite HR. reflexivity. Qed.

Lemma readJSONObject_loop_done fuel r b offset data r' :
  Read r (length b - offset) = (data, None, r') →
  readJSONObject_loop Read (S fuel) r b offset =
  Some (r', inl (take (offset + length data) (writeAt b offset data))).
Proof. intros HR. simpl. rewrite HR. reflexivity. Qed.

End AnyReader.

Lemma framedRead_rest_fit rem frames e len :
  rem ≠ [] → (length rem ≤ len)%nat →
  framedRead {| fr_remaining := rem; fr_frames := frames; fr_end := e |} len =
  (rem, None, newJSONFramedReader frames e).
Proof.
  intros Hne Hfit. unfold framedRead. simpl. destruct rem; [done|].
  by rewrite decide_True.
Qed.

Lemma framedRead_rest_short rem frames e len :
  rem ≠ [] → ¬ (length rem ≤ len)%nat →
  framedRead {| fr_remaining := rem; fr_frames := frames; fr_end := e |} len =
  (take len rem, Some ErrShortBuffer,
   {| fr_remaining := drop len rem; fr_frames := frames; fr_end := e |}).
Proof.
  intros Hne Hfit. unfold framedRead. simpl. destruct rem; [done|].
  by rewrite decide_False.
Qed.

Lemma framedRead_start_fit m frames e len :
  (length m ≤ len)%nat →
  framedRead (newJSONFramedReader (m :: frames) e) len =
  (m, None, newJSONFramedReader frames e).
Proof. intros Hfit. unfold framedRead. simpl. by rewrite decide_True. Qed.

Lemma framedRead_start_short m frames e len :
  ¬ (length m ≤ len)%nat →
  framedRead (newJSONFramedReader (m :: frames) e) len =
  (take len m, Some ErrShortBuffer,
   {| fr_remaining := drop len m; fr_frames := frames; fr_end := e |}).
Proof. intros Hfit. unfold framedRead. simpl. by rewrite decide_False. Qed.

(** While the framed reader is inside the frame [m], of which the first
    [offset] bytes are in the buffer, readJSONObject returns the whole frame,
    given one unit of fuel for every byte that is left and one more. *)
Lemma readJSONObject_loop_framed_rest fuel m frames e b offset :
  (0 < offset)%nat → (offset < length m)%nat → (offset < length b)%nat →
  take offset b = take offset m →
  (length m - offset < fuel)%nat →
  readJSONObject_loop framedRead fuel
    {| fr_remaining := drop offset m; fr_frames := frames; fr_end := e |} b offset =
  Some (newJSONFramedReader frames e, inl m).
Proof.
  revert b offset. induction fuel as [|fuel IH]; intros b offset Hpos Hlt Hb Hpre Hfuel; [lia|].
  assert (Hrem : ∃ x rem, drop offset m = x :: rem).
  { destruct (drop offset m) as [|x rem] eqn:E; [|by eauto].
    apply (f_equal length) in E. rewrite length_drop in E. simpl in E. lia. }
  destruct Hrem as (x & rem & Hrem).
  assert (Hlen : length (drop offset m) = (length m - offset)%nat) by apply length_drop.
  destruct (decide (length (drop offset m) ≤ length b - offset)%nat) as [Hfit|Hnofit].
  - rewrite (readJSONObject_loop_done framedRead fuel _ b offset (drop offset m)
               (newJSONFramedReader frames e))
      by (apply framedRead_rest_fit; [by rewrite Hrem|done]).
    rewrite take_writeAt by lia. rewrite Hpre, take_drop. reflexivity.
  - set (n := (length b - offset)%nat).
    assert (Hn : (0 < n ∧ offset + n = length b)%nat) by (unfold n; lia).
    assert (Hdata : length (take n (drop offset m)) = n) by (rewrite length_take; lia).
    assert (Hw : length (writeAt b offset (take n (drop offset m))) = length b)
      by (apply length_writeAt; lia).
    rewrite (readJSONObject_loop_short framedRead fuel _ b offset (take n (drop offset m))
               {| fr_remaining := drop n (drop offset m); fr_frames := frames; fr_end := e |}).
    + rewrite Hdata, drop_drop.
      apply IH.
      * lia.
      * lia.
      * rewrite length_Resize. lia.
      * rewrite take_Resize by lia.
        replace (offset + n)%nat with (offset + length (take n (drop offset m)))%nat at 1
          by (by rewrite Hdata).
        rewrite take_writeAt by lia. rewrite Hpre.
        apply take_take_drop.
      * lia.
    + apply framedRead_rest_short; [by rewrite Hrem|done].
    + intros Hnil. apply (f_equal length) in Hnil. rewrite Hdata in Hnil. simpl in Hnil. lia.
Qed.

(** From a buffer that is not empty, the framed reader at the start of the
    frame [m] makes readJSONObject return the whole frame. *)
Lemma readJSONObject_framed_frame fuel m frames e b :
  (0 < length b)%nat → (length m < fuel)%nat →
  readJSONObject framedRead fuel (newJSONFramedReader (m :: frames) e) b =
  Some (newJSONFramedReader frames e, inl m).
Proof.
  intros Hb Hfuel. unfold readJSONObject. destruct fuel as [|fuel]; [lia|].
  destruct (decide (length m ≤ length b)%nat) as [Hfit|Hnofit].
  - rewrite (readJSONObject_loop_done framedRead fuel _ b 0 m (newJSONFramedReader frames e))
      by (apply framedRead_start_fit; lia).
    rewrite take_writeAt by (simpl; lia). reflexivity.
  - assert (Hdata : length (take (length b) m) = length b) by (rewrite length_take; lia).
    assert (Hw : length (writeAt b 0 (take (length b) m)) = length b)
      by (apply length_writeAt; simpl; lia).
    rewrite (readJSONObject_loop_short framedRead fuel _ b 0 (take (length b) m)
               {| fr_remaining := drop (length b) m; fr_frames := frames; fr_end := e |}).
    + rewrite Hdata. simpl.
      apply readJSONObject_loop_framed_rest.
      * lia.
      * lia.
      * rewrite length_Resize. lia.
      * rewrite take_Resize by lia.
        replace (length b) with (0 + length (take (length b) m))%nat at 1
          by (by rewrite Hdata).
        rewrite take_writeAt by (simpl; lia). reflexivity.
      * lia.
    + rewrite Nat.sub_0_r. apply framedRead_start_short. lia.
    + intros Hnil. apply (f_equal length) in Hnil. rewrite Hdata in Hnil. simpl in Hnil. lia.
Qed.

Lemma readJSONObject_framed_end fuel e b :
  e ≠ ErrShortBuffer →
  readJSONObject framedRead (S fuel) (newJSONFramedReader [] e) b =
  Some (newJSONFramedReader [] e, inr e).
Proof. intros He. unfold readJSONObject. simpl. by destruct e. Qed.

(** Over the framed reader, the loop of getStreamAPIResponse hands every frame
    that decodes to the handler, in order, and returns what the stream ends
    with. *)
Lemma getStreamAPIResponse_loop_framed unmarshal frames e handled fuel :
  e ≠ ErrShortBuffer →
  (length frames + max_list (length <$> frames) + 2 ≤ fuel)%nat →
  getStreamAPIResponse_loop framedRead unmarshal fuel (newJSONFramedReader frames e) handled =
  Some (handled ++ omap unmarshal frames, e).
Proof.
  intros He. revert fuel handled.
  induction frames as [|m frames IH]; intros fuel handled Hfuel.
  - destruct fuel as [|[|fuel]]; [simpl in Hfuel; lia..|].
    simpl in *. by rewrite (readJSONObject_framed_end fuel e _ He), app_nil_r.
  - destruct fuel as [|fuel]; [simpl in Hfuel; lia|].
    rewrite fmap_cons in Hfuel. simpl in Hfuel.
    cbn [getStreamAPIResponse_loop].
    rewrite readJSONObject_framed_frame by (rewrite ?length_replicate; lia).
    simpl. destruct (unmarshal m) as [wr|].
    + rewrite IH by lia. by rewrite <- app_assoc.
    + rewrite IH by lia. done.
Qed.

(** C6 (amended). For any reader, a read that signals a short buffer after
    reading at least one byte makes readJSONObject go on with a buffer of
    twice the length that starts with the bytes read so far; a read that
    signals a short buffer without having read a byte makes readJSONObject
    return an error. Over the framed reader the second case does not arise:
    from the buffer of 1024 bytes readJSONObject returns a frame of any
    length whole, and the loop of getStreamAPIResponse hands every frame that
    decodes to the handler and returns what the stream ends with. *)
Theorem readJSONObject_short_buffer :
  (∀ (R : Type) (Read : R → nat → list byte * option error * R)
     (fuel : nat) (r : R) (b : list byte) (offset : nat) (data : list byte) (r' : R),
     Read r (length b - offset)%nat = (data, Some ErrShortBuffer, r') →
     (offset + length data ≤ length b)%nat →
     if decide (data = []) then
       readJSONObject_loop Read (S fuel) r b offset = Some (r', inr ErrShortBufferZero)
     else
       ∃ b', readJSONObject_loop Read (S fuel) r b offset =
             readJSONObject_loop Read fuel r' b' (offset + length data)%nat ∧
             length b' = (length b * 2)%nat ∧
             take (offset + length data)%nat b' = take offset b ++ data) ∧
  (∀ (m : list byte) (frames : list (list byte)) (e : error) (fuel : nat),
     (length m < fuel)%nat →
     readJSONObject framedRead fuel (newJSONFramedReader (m :: frames) e)
       (replicate 1024 Byte.x00) =
     Some (newJSONFramedReader frames e, inl m)) ∧
  (∀ (unmarshal : list byte → option watchResponse) (frames : list (list byte))
     (e : error) (fuel : nat),
     e ≠ ErrShortBuffer →
     (length frames + max_list (length <$> frames) + 2 ≤ fuel)%nat →
     getStreamAPIResponse_loop framedRead unmarshal fuel (newJSONFramedReader frames e) [] =
     Some (omap unmarshal frames, e)).
Proof.
  split_and!.
  - intros R Read fuel r b offset data r' HR Hle. case_decide as Hd.
    + subst data. by apply readJSONObject_loop_short_zero.
    + eexists. split; [by apply readJSONObject_loop_short|].
      split; [apply length_Resize|].
      rewrite take_Resize by (rewrite ?length_writeAt; lia).
      by apply take_writeAt.
  - intros m frames e fuel Hfuel. apply readJSONObject_framed_frame; [|done].
    rewrite length_replicate. lia.
  - intros unmarshal frames e fuel He Hfuel.
    by rewrite getStreamAPIResponse_loop_framed.
Qed.

(** A frame of 3000 bytes is read whole from the buffer of 1024 bytes. *)
Lemma readJSONObject_short_buffer_witness :
  (length (replicate 3000 Byte.x7b) < 3001)%nat ∧
  readJSONObject framedRead 3001 (newJSONFramedReader [replicate 3000 Byte.x7b] EOF)
    (replicate 1024 Byte.x00) =
  Some (newJSONFramedReader [] EOF, inl (replicate 3000 Byte.x7b)).
Proof.
  assert (Hlen : (length (replicate 3000 Byte.x7b) < 3001)%nat)
    by (rewrite length_replicate; lia).
  split; [exact Hlen|].
  exact (proj1 (proj2 readJSONObject_short_buffer) (replicate 3000 Byte.x7b) [] EOF 3001%nat Hlen).
Defined.

(** C6 as stated fails: a reader that signals a short buffer without reading
    anything makes readJSONObject return an error to its caller. *)
Lemma readJSONObject_short_buffer_counterexample :
  readJSONObject stuckRead 1 () (replicate 1024 Byte.x00) = Some ((), inr ErrShortBufferZero).
Proof. reflexivity. Qed.

(** ** More on the builder *)

Section BuilderExtra.
Context `{W : LabelWriters}.

(** The labels of the skeleton: the six labels of the address and port are
    always there; the kind and the name of the target reference are there
    exactly when the kind is not empty, the node name and the host name
    exactly when they are not empty; and no other key is. *)
Theorem getEndpointLabels_lookup (om : ObjectMeta) (ea : EndpointAddress)
    (epp : EndpointPort) (ready : string) :
  let m := getEndpointLabels om ea epp ready in
  m !! "__address__" = Some (JoinHostPort (ea_IP ea) (epp_Port epp)) ∧
  m !! "__meta_kubernetes_namespace" = Some (om_Namespace om) ∧
  m !! "__meta_kubernetes_endpoints_name" = Some (om_Name om) ∧
  m !! "__meta_kubernetes_endpoint_ready" = Some ready ∧
  m !! "__meta_kubernetes_endpoint_port_name" = Some (epp_Name epp) ∧
  m !! "__meta_kubernetes_endpoint_port_protocol" = Some (epp_Protocol epp) ∧
  m !! "__meta_kubernetes_endpoint_address_target_kind" =
    (if decide (or_Kind (ea_TargetRef ea) = "") then None
     else Some (or_Kind (ea_TargetRef ea))) ∧
  m !! "__meta_kubernetes_endpoint_address_target_name" =
    (if decide (or_Kind (ea_TargetRef ea) = "") then None
     else Some (or_Name (ea_TargetRef ea))) ∧
  m !! "__meta_kubernetes_endpoint_node_name" =
    (if decide (ea_NodeName ea = "") then None else Some (ea_NodeName ea)) ∧
  m !! "__meta_kubernetes_endpoint_hostname" =
    (if decide (ea_Hostname ea = "") then None else Some (ea_Hostname ea)) ∧
  (∀ k, is_Some (m !! k) → k ∈ skeletonKeys).
Proof.
  intros m. split_and!;
    try (apply getEndpointLabels_base; [solve [repeat (apply not_elem_of_cons; split; [done|]); apply not_elem_of_nil]|reflexivity]).
  - unfold m, getEndpointLabels, setAll. repeat case_decide; simpl; try done.
  - unfold m, getEndpointLabels, setAll. repeat case_decide; simpl; try done.
  - unfold m, getEndpointLabels, setAll. repeat case_decide; simpl; try done.
  - unfold m, getEndpointLabels, setAll. repeat case_decide; simpl; try done.
  - intros k. apply getEndpointLabels_keys.
Qed.

End BuilderExtra.

Section BuilderNoPod.
Context `{W : LabelWriters}.

Lemma endpointTarget_plain podsCache heap eps svc t :
  (or_Kind (ea_TargetRef t.1.1) ≠ "Pod" ∨
   podsCache !! ObjectReference_key (ea_TargetRef t.1.1) = None) →
  endpointTarget podsCache heap eps svc t = plainTarget eps svc t.
Proof.
  intros Hno. unfold endpointTarget, plainTarget.
  rewrite getEndpointLabelsForAddressAndPort_setAll.
  assert (Hpod : podWrites heap t.1.1 t.1.2
                   (podsCache !! ObjectReference_key (ea_TargetRef t.1.1)) = []).
  { unfold podWrites. destruct Hno as [Hk| ->]; [|done].
    destruct (podsCache !! _); [|done]. by rewrite decide_True. }
  by rewrite Hpod.
Qed.

Lemma portsHit_nil podsCache heap eps q :
  (∀ ea epp ready, (ea, epp, ready) ∈ pass1Pairs eps → ¬ refersTo podsCache ea q) →
  portsHit podsCache heap eps q = [].
Proof.
  intros Hno. destruct (portsHit podsCache heap eps q) as [|port l] eqn:E; [done|].
  assert (Hp : port ∈ portsHit podsCache heap eps q) by (rewrite E; left).
  apply portsHit_spec in Hp as (ea & epp & ready & Hin & Hr & _).
  by destruct (Hno ea epp ready Hin).
Qed.

(** When no address of the Endpoints object names a cached pod (its target
    reference is not of kind Pod, or its key is not in the pod cache, as with
    an empty cache), appendTargetLabels appends exactly one target per pass-1
    pair, each the skeleton with the service and endpoints-metadata labels
    and no pod label, and pass 2 adds nothing. *)
Theorem appendTargetLabels_no_pod (ord : rangeOrder) (eps : Endpoints)
    (ms : slice labelMap) (podsCache : gmap string ptr) (heap : ptr → Pod)
    (servicesCache : gmap string Service) :
  rangeAdmissible ord →
  (∀ ea epp ready, (ea, epp, ready) ∈ pass1Pairs eps →
     or_Kind (ea_TargetRef ea) ≠ "Pod" ∨
     podsCache !! ObjectReference_key (ea_TargetRef ea) = None) →
  appendTargetLabels ord eps ms podsCache heap servicesCache =
  go_appends ms (map (plainTarget eps (servicesCache !! Endpoints_key eps)) (pass1Pairs eps)).
Proof.
  intros Hord Hno. rewrite appendTargetLabels_eq.
  set (svc := servicesCache !! Endpoints_key eps).
  assert (Hseen : foldl (seenStep podsCache heap eps svc) ∅ (pass1Pairs eps) = ∅).
  { apply map_eq. intros q. rewrite (pass1_seen heap eps podsCache svc q), lookup_empty.
    rewrite portsHit_nil; [done|].
    intros ea epp ready Hin [Hk Hq]. destruct (Hno ea epp ready Hin); congruence. }
  rewrite Hseen.
  assert (Hnil : ord ∅ = []).
  { apply Permutation_nil_r. rewrite (Hord ∅). by rewrite map_to_list_empty. }
  rewrite Hnil. simpl. rewrite app_nil_r. f_equal.
  apply map_ext_in. intros [[ea epp] ready] Hin. apply endpointTarget_plain. simpl.
  apply (Hno ea epp ready). by apply list_elem_of_In.
Qed.

End BuilderNoPod.

(** Scenario S2 over an empty pod cache: the single target of pass 1. *)
Lemma appendTargetLabels_no_pod_witness :
  rangeAdmissible map_to_list ∧
  (∀ ea epp ready, (ea, epp, ready) ∈ pass1Pairs exEndpoints →
     or_Kind (ea_TargetRef ea) ≠ "Pod" ∨
     (∅ : gmap string ptr) !! ObjectReference_key (ea_TargetRef ea) = None) ∧
  appendTargetLabels map_to_list exEndpoints None ∅ exHeap exServicesCache =
  Some [plainTarget exEndpoints (Some exService)
          (exAddress "10.0.0.1" "Pod" "ns1" "p1", exEndpointPort "http" 8080, "true")].
Proof.
  assert (Hno : ∀ ea epp ready, (ea, epp, ready) ∈ pass1Pairs exEndpoints →
     or_Kind (ea_TargetRef ea) ≠ "Pod" ∨
     (∅ : gmap string ptr) !! ObjectReference_key (ea_TargetRef ea) = None)
    by (intros; right; reflexivity).
  split; [exact rangeAdmissible_map_to_list|]. split; [exact Hno|].
  exact (appendTargetLabels_no_pod map_to_list exEndpoints None ∅ exHeap exServicesCache
           rangeAdmissible_map_to_list Hno).
Defined.

(** ** The requests of a role *)

Lemma tracedStep_refl w : tracedStep [] w w.
Proof. exists []. by rewrite app_nil_r. Qed.

Lemma tracedStep_trans rs1 rs2 w1 w2 w3 :
  tracedStep rs1 w1 w2 → tracedStep rs2 w2 w3 → tracedStep (rs1 ++ rs2) w1 w3.
Proof.
  intros (t1 & Ht1 & Hr1) (t2 & Ht2 & Hr2). exists (t1 ++ t2).
  split; [by rewrite Ht2, Ht1, app_assoc|]. by rewrite omap_app, Hr1, Hr2.
Qed.

Lemma tracedStep_quiet_trans w1 w2 w3 :
  tracedStep [] w1 w2 → tracedStep [] w2 w3 → tracedStep [] w1 w3.
Proof. intros H1 H2. exact (tracedStep_trans [] [] w1 w2 w3 H1 H2). Qed.

Lemma tracedStep_emit e w : tracedStep (option_list (requestOf e)) w (emit e w).
Proof. exists [e]. split; [done|]. simpl. by destruct (requestOf e). Qed.

Lemma tracedStep_same_trace w w' : w_trace w' = w_trace w → tracedStep [] w w'.
Proof. intros H. exists []. by rewrite H, app_nil_r. Qed.

Lemma tracedStep_foldl {A} (f : World → A → World) (l : list A) :
  (∀ w a, tracedStep [] w (f w a)) → ∀ w, tracedStep [] w (foldl f w l).
Proof.
  intros Hf. induction l as [|a l IH]; intros w; simpl; [apply tracedStep_refl|].
  eapply tracedStep_quiet_trans; [apply Hf|apply IH].
Qed.

Lemma tracedStep_foldl_stored {A} (f : World * list string → A → World * list string)
    (l : list A) :
  (∀ st a, tracedStep [] st.1 (f st a).1) → ∀ st, tracedStep [] st.1 (foldl f st l).1.
Proof.
  intros Hf. induction l as [|a l IH]; intros st; simpl; [apply tracedStep_refl|].
  eapply tracedStep_quiet_trans; [apply Hf|apply IH].
Qed.

Section Requests.
Context `{W : LabelWriters} `{C : Cluster}.
Variable ordMs ordEv : nat → rangeOrder.
Variable cfg : apiConfig.

Lemma processEndpoints_quiet ord setName ep action w :
  tracedStep [] w (processEndpoints ord setName ep action w).
Proof.
  unfold processEndpoints. repeat case_decide;
    first [apply (tracedStep_emit (EvSend _)) | apply tracedStep_refl].
Qed.

Lemma updatePodCache_quiet p action w : tracedStep [] w (updatePodCache p action w).
Proof. exists [EvCache "pods" (Pod_key p) action]. by split. Qed.

Lemma updateServiceCache_quiet s action w : tracedStep [] w (updateServiceCache s action w).
Proof. exists [EvCache "services" (Service_key s) action]. by split. Qed.

Lemma updateEndpointsCache_quiet e action w : tracedStep [] w (updateEndpointsCache e action w).
Proof. exists [EvCache "endpoints" (Endpoints_key e) action]. by split. Qed.

Lemma withMs_quiet ms w : tracedStep [] w (withMs ms w).
Proof. by apply tracedStep_same_trace. Qed.

Lemma emit_call_quiet fn key action w : tracedStep [] w (emit (EvCall fn key action) w).
Proof. apply (tracedStep_emit (EvCall fn key action)). Qed.

(** The bootstrap handlers send no request of their own. *)
Lemma podSync_quiet data w : tracedStep [] w (podSync data w).2.
Proof.
  unfold podSync. destruct (parsePodList data) as [[items rv]|]; simpl;
    [|apply tracedStep_refl].
  apply tracedStep_foldl. intros w0 a.
  eapply tracedStep_quiet_trans; [apply withMs_quiet|apply emit_call_quiet].
Qed.

Lemma nodeSync_quiet data w : tracedStep [] w (nodeSync data w).2.
Proof.
  unfold nodeSync. destruct (parseNodeList data) as [[items rv]|]; simpl;
    [|apply tracedStep_refl].
  apply tracedStep_foldl. intros w0 a.
  eapply tracedStep_quiet_trans; [apply emit_call_quiet|apply withMs_quiet].
Qed.

Lemma serviceSync_quiet data w : tracedStep [] w (serviceSync data w).2.
Proof.
  unfold serviceSync. destruct (parseServiceList data) as [[items rv]|]; simpl;
    [|apply tracedStep_refl].
  apply tracedStep_foldl. intros w0 a.
  eapply tracedStep_quiet_trans; [apply emit_call_quiet|apply withMs_quiet].
Qed.

Lemma ingressSync_quiet data w : tracedStep [] w (ingressSync data w).2.
Proof.
  unfold ingressSync. destruct (parseIngressList data) as [[items rv]|]; simpl;
    [|apply tracedStep_refl].
  apply tracedStep_foldl. intros w0 a.
  eapply tracedStep_quiet_trans; [apply emit_call_quiet|apply withMs_quiet].
Qed.

Lemma podCacheSync_quiet data w : tracedStep [] w (podCacheSync data w).2.
Proof.
  unfold podCacheSync. destruct (parsePodList data) as [[items rv]|]; cbn [snd];
    [|apply tracedStep_refl].
  apply (tracedStep_quiet_trans w (newPod zeroPod w).2); [by apply tracedStep_same_trace|].
  apply tracedStep_foldl. intros w0 a.
  exists [EvCache "pods" (Pod_key (w_heap (writePod (newPod zeroPod w).1 a w0)
                                     (newPod zeroPod w).1)) "ADDED"].
  by split.
Qed.

Lemma serviceCacheSync_quiet data w : tracedStep [] w (serviceCacheSync data w).2.
Proof.
  unfold serviceCacheSync. destruct (parseServiceList data) as [[items rv]|]; cbn [snd];
    [|apply tracedStep_refl].
  apply (tracedStep_foldl_stored _ items) with (st := (w, [])).
  intros [w0 stored] a. cbn [fst snd].
  apply (tracedStep_quiet_trans w0 (assignServiceVar stored a w0));
    [by apply tracedStep_same_trace|apply updateServiceCache_quiet].
Qed.

Lemma endpointsSync_quiet data w :
  tracedStep [] w (endpointsSync ordMs ordEv cfg data w).2.
Proof.
  unfold endpointsSync. destruct (parseEndpointsList data) as [[items rv]|]; cbn [snd];
    [|apply tracedStep_refl].
  apply (tracedStep_foldl_stored _ items) with (st := (w, [])).
  intros [w0 stored] a. cbn [fst snd].
  apply (tracedStep_quiet_trans w0 (assignEndpointsVar stored a w0));
    [by apply tracedStep_same_trace|].
  eapply tracedStep_quiet_trans; [apply withMs_quiet|].
  eapply tracedStep_quiet_trans; [apply processEndpoints_quiet|apply updateEndpointsCache_quiet].
Qed.

Lemma endpointslicesSync_quiet data w : tracedStep [] w (endpointslicesSync data w).2.
Proof.
  unfold endpointslicesSync. destruct (parseEndpointSlicesList data) as [[items rv]|]; simpl;
    [|apply tracedStep_refl].
  apply tracedStep_foldl. intros w0 a.
  eapply tracedStep_quiet_trans; [apply withMs_quiet|apply emit_call_quiet].
Qed.

Lemma startWatchForObject_requests objectName getSync w :
  (∀ data w, tracedStep [] w (getSync data w).2) →
  tracedStep (flat_map (λ path, [ReqList objectName path; ReqSpawn objectName path])
                       (watchPaths cfg objectName))
             w (startWatchForObject cfg objectName getSync w).
Proof.
  intros Hsync. rewrite startWatchForObject_paths.
  generalize (watchPaths cfg objectName) as paths. intros paths. revert w.
  induction paths as [|path paths IH]; intros w; simpl; [apply tracedStep_refl|].
  apply (tracedStep_trans [ReqList objectName path; ReqSpawn objectName path] _ w
           (listAndSpawn objectName path getSync w)); [|apply IH].
  unfold listAndSpawn.
  set (wa := emit (EvList objectName path) w).
  set (wb := (getSync (default "" (getBlockingAPIResponse path)) wa).2).
  apply (tracedStep_trans [ReqList objectName path] [ReqSpawn objectName path] w wa);
    [apply (tracedStep_emit (EvList objectName path))|].
  apply (tracedStep_trans [] [ReqSpawn objectName path] wa wb); [apply Hsync|].
  apply (tracedStep_emit (EvSpawn objectName path _)).
Qed.

(** Whatever the role, the configuration and the answers of the API server,
    startWatcherByRole sends, for each kind of the role in turn and for each
    path of that kind (one per configured namespace, or the cluster-wide
    one), exactly one list request followed by exactly one watch start for
    the same path: one watcher per kind and namespace, three kinds for the
    roles endpoints and endpointslices, and none for an unknown role. *)
Theorem startWatcherByRole_requests (role : string) (w : World) :
  ∃ t, w_trace (startWatcherByRole ordMs ordEv cfg role w).2 = w_trace w ++ t ∧
       omap requestOf t =
       flat_map (λ objectName,
                   flat_map (λ path, [ReqList objectName path; ReqSpawn objectName path])
                            (watchPaths cfg objectName))
                (kindsOfRole role).
Proof.
  assert (Hone : ∀ objectName getSync w0,
            (∀ data w, tracedStep [] w (getSync data w).2) →
            tracedStep (flat_map (λ o, flat_map (λ path, [ReqList o path; ReqSpawn o path])
                                            (watchPaths cfg o)) [objectName])
                       w0 (startWatchForObject cfg objectName getSync w0)).
  { intros o gs w0 Hgs. simpl. rewrite app_nil_r. by apply startWatchForObject_requests. }
  assert (Hthree : ∀ objectName getSync w0,
            (∀ data w, tracedStep [] w (getSync data w).2) →
            tracedStep (flat_map (λ o, flat_map (λ path, [ReqList o path; ReqSpawn o path])
                                            (watchPaths cfg o))
                          ["pods"; "services"; objectName])
                       w0 (startWatchForObject cfg objectName getSync
                             (startWatchForObject cfg "services" serviceCacheSync
                                (startWatchForObject cfg "pods" podCacheSync w0)))).
  { intros o gs w0 Hgs. simpl. rewrite app_nil_r.
    eapply tracedStep_trans;
      [apply startWatchForObject_requests, podCacheSync_quiet|].
    eapply tracedStep_trans;
      [apply startWatchForObject_requests, serviceCacheSync_quiet|].
    by apply startWatchForObject_requests. }
  assert (Hms : ∀ rs w', tracedStep rs (withMs None w) w' → tracedStep rs w w').
  { intros rs w' (t & Ht & Hr). by exists t. }
  apply Hms. unfold startWatcherByRole, kindsOfRole. simpl.
  repeat case_decide.
  - apply Hone, podSync_quiet.
  - apply Hone, nodeSync_quiet.
  - apply Hthree, endpointsSync_quiet.
  - apply Hone, serviceSync_quiet.
  - apply Hone, ingressSync_quiet.
  - apply Hthree, endpointslicesSync_quiet.
  - apply tracedStep_refl.
Qed.

End Requests.

(** ** The bootstrap when the API server is down *)

Lemma onlyTrace_refl w : onlyTrace [] w w.
Proof. split_and!; [by rewrite app_nil_r|done|done]. Qed.

Lemma onlyTrace_trans t1 t2 w1 w2 w3 :
  onlyTrace t1 w1 w2 → onlyTrace t2 w2 w3 → onlyTrace (t1 ++ t2) w1 w3.
Proof.
  intros (Ht1 & Hs1 & Hm1) (Ht2 & Hs2 & Hm2).
  split_and!; [by rewrite Ht2, Ht1, app_assoc|congruence|congruence].
Qed.

Section ApiDown.
Context `{W : LabelWriters} `{C : Cluster}.
Variable ordMs ordEv : nat → rangeOrder.
Variable cfg : apiConfig.
Hypothesis Hdown : ∀ path, getBlockingAPIResponse path = None.

Lemma startWatchForObject_down objectName getSync w :
  (∀ w, getSync "" w = ("", w)) →
  onlyTrace (flat_map (λ path, [EvList objectName path; EvSpawn objectName path ""])
                      (watchPaths cfg objectName))
            w (startWatchForObject cfg objectName getSync w).
Proof.
  intros Hsync. rewrite startWatchForObject_paths.
  generalize (watchPaths cfg objectName) as paths. intros paths. revert w.
  induction paths as [|path paths IH]; intros w; simpl; [apply onlyTrace_refl|].
  apply (onlyTrace_trans [EvList objectName path; EvSpawn objectName path ""] _ w
           (listAndSpawn objectName path getSync w)); [|apply IH].
  unfold listAndSpawn. rewrite Hdown. simpl. rewrite Hsync. simpl.
  split_and!; [|done|done]. simpl. by rewrite <- app_assoc.
Qed.

(** When every list request fails and the decoders reject the empty body,
    the bootstrap changes no cache and collects no target, and still starts
    every watch of the role, each with an empty resource version. *)
Theorem startWatcherByRole_api_down (role : string) (w : World) :
  parsePodList "" = None → parseNodeList "" = None → parseServiceList "" = None →
  parseEndpointsList "" = None → parseIngressList "" = None →
  parseEndpointSlicesList "" = None →
  (startWatcherByRole ordMs ordEv cfg role w).1 = None ∧
  w_sc (startWatcherByRole ordMs ordEv cfg role w).2 = w_sc w ∧
  w_trace (startWatcherByRole ordMs ordEv cfg role w).2 =
    w_trace w ++
    flat_map (λ objectName,
                flat_map (λ path, [EvList objectName path; EvSpawn objectName path ""])
                         (watchPaths cfg objectName))
             (kindsOfRole role).
Proof.
  intros Hp Hn Hs He Hi Hes.
  assert (Hgoal : onlyTrace
            (flat_map (λ objectName,
                flat_map (λ path, [EvList objectName path; EvSpawn objectName path ""])
                         (watchPaths cfg objectName)) (kindsOfRole role))
            (withMs None w) (startWatcherByRole ordMs ordEv cfg role w).2).
  { assert (Hone : ∀ objectName getSync w0, (∀ w, getSync "" w = ("", w)) →
              onlyTrace (flat_map (λ o, flat_map (λ path, [EvList o path; EvSpawn o path ""])
                                             (watchPaths cfg o)) [objectName])
                        w0 (startWatchForObject cfg objectName getSync w0)).
    { intros o gs w0 Hgs. simpl. rewrite app_nil_r. by apply startWatchForObject_down. }
    assert (Hpc : ∀ w0, podCacheSync "" w0 = ("", w0))
      by (intros; unfold podCacheSync; by rewrite Hp).
    assert (Hsc : ∀ w0, serviceCacheSync "" w0 = ("", w0))
      by (intros; unfold serviceCacheSync; by rewrite Hs).
    assert (Hthree : ∀ objectName getSync w0, (∀ w, getSync "" w = ("", w)) →
              onlyTrace (flat_map (λ o, flat_map (λ path, [EvList o path; EvSpawn o path ""])
                                             (watchPaths cfg o))
                           ["pods"; "services"; objectName])
                        w0 (startWatchForObject cfg objectName getSync
                              (startWatchForObject cfg "services" serviceCacheSync
                                 (startWatchForObject cfg "pods" podCacheSync w0)))).
    { intros o gs w0 Hgs. simpl. rewrite app_nil_r.
      eapply onlyTrace_trans; [exact (startWatchForObject_down "pods" podCacheSync w0 Hpc)|].
      eapply onlyTrace_trans;
        [exact (startWatchForObject_down "services" serviceCacheSync _ Hsc)|].
      exact (startWatchForObject_down o gs _ Hgs). }
    unfold startWatcherByRole, kindsOfRole. simpl. repeat case_decide.
    - apply Hone. intros. unfold podSync. by rewrite Hp.
    - apply Hone. intros. unfold nodeSync. by rewrite Hn.
    - apply Hthree. intros. unfold endpointsSync. by rewrite He.
    - apply Hone. intros. unfold serviceSync. by rewrite Hs.
    - apply Hone. intros. unfold ingressSync. by rewrite Hi.
    - apply Hthree. intros. unfold endpointslicesSync. by rewrite Hes.
    - apply onlyTrace_refl. }
  destruct Hgoal as (Ht & Hsc & Hms). split_and!; [exact Hms|exact Hsc|exact Ht].
Qed.

End ApiDown.

(** The role endpoints over a cluster that is down. *)
Lemma startWatcherByRole_api_down_witness :
  (∀ path, @getBlockingAPIResponse downCluster path = None) ∧
  @parsePodList downCluster "" = None ∧
  w_trace (@startWatcherByRole promWriters downCluster (λ _, map_to_list)
             (λ _, map_to_list) exConfig "endpoints" emptyWorld).2 =
    [ EvList "pods" "/api/v1/pods"; EvSpawn "pods" "/api/v1/pods" "";
      EvList "services" "/api/v1/services"; EvSpawn "services" "/api/v1/services" "";
      EvList "endpoints" "/api/v1/endpoints"; EvSpawn "endpoints" "/api/v1/endpoints" "" ].
Proof.
  split; [intros path; reflexivity|]. split; [reflexivity|].
  destruct (@startWatcherByRole_api_down promWriters downCluster (λ _, map_to_list)
              (λ _, map_to_list) exConfig (λ _, eq_refl) "endpoints" emptyWorld
              eq_refl eq_refl eq_refl eq_refl eq_refl eq_refl) as (_ & _ & Ht).
  rewrite Ht. reflexivity.
Defined.

(** ** The bootstrap of the role endpoints *)

Section EndpointsBootstrap.
Context `{W : LabelWriters} `{C : Cluster}.
Variable ordMs ordEv : nat → rangeOrder.
Variable cfg : apiConfig.

(** Under the role endpoints the bootstrap sends exactly one event per
    Endpoints object of the decoded list responses, in the order of the paths
    and of the items, each with the targets built over the pods and services
    as the two earlier phases left them in the caches, under the order of its
    own range; the slice that startWatcherByRole returns holds the targets of
    the same objects over the same caches, each under the order of the direct
    call, so that it holds the targets of these events up to the order of the
    pass-2 targets of each object. *)
Theorem startWatcherByRole_endpoints_bootstrap (w : World) :
  (∀ n, rangeAdmissible (ordMs n)) → (∀ n, rangeAdmissible (ordEv n)) →
  let w2 := startWatchForObject cfg "services" serviceCacheSync
              (startWatchForObject cfg "pods" podCacheSync (withMs None w)) in
  let listed := flat_map listedEndpoints (watchPaths cfg "endpoints") in
  let r := startWatcherByRole ordMs ordEv cfg "endpoints" w in
  sent r.2 =
    sent w ++ bootstrapEvents ordEv (cfg_setName cfg) (sc_Pods (w_sc w2)) (w_heap w2)
                (sc_Services (w_sc w2)) (length (sent w)) listed ∧
  elems r.1 =
    bootstrapTargets ordMs (sc_Pods (w_sc w2)) (w_heap w2) (sc_Services (w_sc w2))
      (length (sent w)) listed ∧
  elems r.1 ≡ₚ flat_map (λ e, elems (se_Labels e)) (drop (length (sent w)) (sent r.2)).
Proof.
  intros HMs HEv w2 listed r.
  set (w1 := startWatchForObject cfg "pods" podCacheSync (withMs None w)).
  destruct (startWatchForObject_pods cfg (withMs None w)) as (Ht1 & _ & _ & Hm1).
  destruct (startWatchForObject_services cfg w1) as (Ht2 & _ & _ & _ & _ & Hm2).
  fold w1 in Ht1, Hm1.
  change (startWatchForObject cfg "services" serviceCacheSync w1) with w2 in Ht2, Hm2.
  assert (Hs1 : sent w1 = sent w).
  { apply (sent_quiet_trace (withMs None w) w1 _ Ht1), podsBlock_quiet. }
  assert (Hs2 : sent w2 = sent w).
  { rewrite <- Hs1. apply (sent_quiet_trace w1 w2 _ Ht2), servicesBlock_quiet. }
  destruct (startWatchForObject_endpoints_bootstrap ordMs ordEv cfg w2) as (_ & Hs3 & Hm3).
  assert (Hfinal : r.2 = startWatchForObject cfg "endpoints" (endpointsSync ordMs ordEv cfg) w2)
    by reflexivity.
  assert (Hret : r.1 = w_ms (startWatchForObject cfg "endpoints"
                               (endpointsSync ordMs ordEv cfg) w2)) by reflexivity.
  rewrite Hs2 in Hs3, Hm3. rewrite Hm2, Hm1 in Hm3. simpl in Hm3.
  rewrite Hfinal, Hret, Hs3, Hm3.
  split; [done|]. split; [by rewrite elems_go_appends|].
  rewrite drop_app_length, elems_go_appends. simpl.
  unfold bootstrapTargets, bootstrapEvents.
  assert (Hgen : ∀ (l : list Endpoints) (f : nat → Endpoints → list labelMap)
                   (g : nat → Endpoints → SyncEvent),
            (∀ i ep, f i ep ≡ₚ elems (se_Labels (g i ep))) →
            concat (imap f l) ≡ₚ flat_map (λ e, elems (se_Labels e)) (imap g l)).
  { induction l as [|ep l IH]; intros f g Hfg; [done|].
    cbn [imap concat flat_map]. apply Permutation_app; [apply Hfg|].
    apply IH. intros i ep'. apply Hfg. }
  apply Hgen. intros i ep. simpl.
  apply appendTargetLabels_perm; [apply HMs|apply HEv].
Qed.

End EndpointsBootstrap.

(** The role endpoints over the example cluster, the direct calls ranging in
    the map's own order and the calls inside processEndpoints in the reverse
    order: one event, and the slice returned holds its targets. *)
Lemma startWatcherByRole_endpoints_bootstrap_witness :
  let r := startWatcherByRole (λ _, map_to_list) (λ _, reverseOrder) exConfig
             "endpoints" emptyWorld in
  length (sent r.2) = 1%nat ∧
  elems r.1 ≡ₚ flat_map (λ e, elems (se_Labels e)) (drop 0 (sent r.2)).
Proof.
  intros r. split; [vm_compute; reflexivity|].
  exact (proj2 (proj2 (startWatcherByRole_endpoints_bootstrap
                         (λ _, map_to_list) (λ _, reverseOrder) exConfig emptyWorld
                         (λ _, rangeAdmissible_map_to_list)
                         (λ _, rangeAdmissible_reverseOrder)))).
Defined.

(** ** The services watch handler of the role endpoints *)

Section ServiceHandler.
Context `{W : LabelWriters} `{C : Cluster}.

(** A frame whose object does not decode changes nothing. Otherwise the
    service cache is updated first; an action other than MODIFIED sends
    nothing; a MODIFIED action sends exactly one event when an Endpoints
    object is cached under the key of the service, none otherwise, and the
    event is built over the service cache as updated, in which the key of
    the service holds the service of the frame. *)
Theorem endpointsServiceHandler_events (ord : rangeOrder) (cfg : apiConfig)
    (wr : watchResponse) (w : World) :
  match unmarshalService (wr_Object wr) with
  | None => endpointsServiceHandler ord cfg wr w = w
  | Some svc =>
      let w1 := updateServiceCache svc (wr_Action wr) w in
      sent (endpointsServiceHandler ord cfg wr w) =
        sent w ++
        (if decide (wr_Action wr = "MODIFIED") then
           match sc_Endpoints (w_sc w) !! Service_key svc with
           | Some ep => [endpointsEvent ord (cfg_setName cfg) (sc_Pods (w_sc w)) (w_heap w)
                           (sc_Services (w_sc w1)) ep]
           | None => []
           end
         else []) ∧
      (wr_Action wr = "MODIFIED" → sc_Services (w_sc w1) !! Service_key svc = Some svc)
  end.
Proof.
  unfold endpointsServiceHandler.
  destruct (unmarshalService (wr_Object wr)) as [svc|]; [|done].
  assert (Hsent : sent (updateServiceCache svc (wr_Action wr) w) = sent w)
    by (unfold updateServiceCache; by rewrite sent_emit_other).
  simpl. split.
  - case_decide as Ha.
    + change (sc_Endpoints (w_sc (updateServiceCache svc (wr_Action wr) w)))
        with (sc_Endpoints (w_sc w)).
      destruct (sc_Endpoints (w_sc w) !! Service_key svc) as [ep|].
      * unfold processEndpoints. rewrite decide_True by (by right).
        rewrite sent_emit_send, Hsent. reflexivity.
      * by rewrite Hsent, app_nil_r.
    + by rewrite Hsent, app_nil_r.
  - intros Ha. unfold updateCache. rewrite decide_True by (by right).
    apply lookup_insert_eq.
Qed.

End ServiceHandler.

(** ** The watch loop: cancellation, requests and logs *)

Lemma append_cons (a : ascii) (s t : string) : String a s +:+ t = String a (s +:+ t).
Proof. reflexivity. Qed.

Lemma append_assoc (s t u : string) : (s +:+ t) +:+ u = s +:+ t +:+ u.
Proof. induction s as [|a s IH]; [done|]. by rewrite !append_cons, IH. Qed.

Lemma map_replicate {A B} (f : A → B) (n : nat) (x : A) :
  map f (replicate n x) = replicate n (f x).
Proof. induction n as [|n IH]; [done|]. simpl. by rewrite IH. Qed.

Lemma watchLoop_cons_retry err outcomes path version backoff :
  err ≠ Canceled →
  watchLoop (err :: outcomes) path version backoff =
  WStream path version ::
  (if decide (err = EOF) then [] else [WLog err]) ++
  WSleep (if decide (backoff < maxBackOff)
          then wrapInt64 (backoff + wrapInt64 (Second * 5)) else backoff) ::
  watchLoop outcomes path ""
    (if decide (backoff < maxBackOff)
     then wrapInt64 (backoff + wrapInt64 (Second * 5)) else backoff).
Proof. intros Herr. simpl. by rewrite decide_False. Qed.

Lemma watchLoop_cancel pre post path version backoff :
  Forall (λ err, err ≠ Canceled) pre →
  ∃ backoff',
    watchLoop (pre ++ Canceled :: post) path version backoff =
    watchLoop pre path version backoff ++
    watchLoop (Canceled :: post) path (if pre is [] then version else "") backoff'.
Proof.
  revert version backoff.
  induction pre as [|err pre IH]; intros version backoff Hall.
  - by exists backoff.
  - apply Forall_cons in Hall as [Herr Hall].
    set (backoff1 := if decide (backoff < maxBackOff)
                     then wrapInt64 (backoff + wrapInt64 (Second * 5)) else backoff).
    destruct (IH "" backoff1 Hall) as [backoff' IH'].
    exists backoff'.
    rewrite <- app_comm_cons, !watchLoop_cons_retry by done.
    fold backoff1. rewrite IH'.
    assert (Hv : (if pre is [] then "" else "") = "") by (by destruct pre).
    rewrite Hv, <- app_comm_cons. f_equal.
    rewrite <- app_assoc. reflexivity.
Qed.

Lemma watchLoop_not_done outcomes path version backoff :
  Forall (λ err, err ≠ Canceled) outcomes →
  WDone ∉ watchLoop outcomes path version backoff.
Proof.
  revert version backoff.
  induction outcomes as [|err outcomes IH]; intros version backoff Hall.
  - apply not_elem_of_nil.
  - apply Forall_cons in Hall as [Herr Hall].
    rewrite watchLoop_cons_retry by done.
    intros Hin. apply elem_of_cons in Hin as [Hin|Hin]; [done|].
    apply elem_of_app in Hin as [Hin|Hin].
    + case_decide; [by apply elem_of_nil in Hin|].
      apply list_elem_of_singleton in Hin. done.
    + apply elem_of_cons in Hin as [Hin|Hin]; [done|].
      by apply IH in Hin.
Qed.

(** The watch of a resource ends only when a call of getStreamAPIResponse
    returns the cancellation of the context. With [pre] the errors of the
    calls before, none of them the cancellation, the run is the run over
    [pre], one more call, and the release of the wait group; the calls that
    would follow are never made, and the wait group is not released before.
    The last call carries the initial resource version only when it is the
    first call. *)
Theorem startWatchForResource_cancel (pre post : list error)
    (path initResourceVersion : string) :
  Forall (λ err, err ≠ Canceled) pre →
  startWatchForResource (pre ++ Canceled :: post) path initResourceVersion =
    startWatchForResource pre path initResourceVersion ++
    [WStream (path +:+ "?watch=1") (if pre is [] then initResourceVersion else ""); WDone] ∧
  WDone ∉ startWatchForResource pre path initResourceVersion.
Proof.
  intros Hall. unfold startWatchForResource. split.
  - destruct (watchLoop_cancel pre post (path +:+ "?watch=1") initResourceVersion Second Hall)
      as [backoff' ->].
    reflexivity.
  - by apply watchLoop_not_done.
Qed.

Lemma startWatchForResource_cancel_witness :
  startWatchForResource ([EOF; ErrOther "reset"] ++ Canceled :: [EOF]) "/api/v1/pods" "7" =
    startWatchForResource [EOF; ErrOther "reset"] "/api/v1/pods" "7" ++
    [WStream ("/api/v1/pods" +:+ "?watch=1") ""; WDone] ∧
  WDone ∉ startWatchForResource [EOF; ErrOther "reset"] "/api/v1/pods" "7".
Proof.
  apply (startWatchForResource_cancel [EOF; ErrOther "reset"] [EOF] "/api/v1/pods" "7").
  repeat constructor; discriminate.
Defined.

Lemma streamCalls_watchLoop outcomes path version backoff :
  Forall (λ err, err ≠ Canceled) outcomes →
  streamCalls (watchLoop outcomes path version backoff) =
  match outcomes with
  | [] => []
  | _ :: outcomes' => (path, version) :: replicate (length outcomes') (path, "")
  end.
Proof.
  revert version backoff.
  induction outcomes as [|err outcomes IH]; intros version backoff Hall; [done|].
  apply Forall_cons in Hall as [Herr Hall].
  rewrite watchLoop_cons_retry by done.
  set (backoff1 := if decide (backoff < maxBackOff)
                   then wrapInt64 (backoff + wrapInt64 (Second * 5)) else backoff).
  assert (Hc : ∀ l, streamCalls (WStream path version ::
                      (if decide (err = EOF) then [] else [WLog err]) ++ WSleep backoff1 :: l) =
                    (path, version) :: streamCalls l)
    by (intros l; by case_decide).
  rewrite Hc, (IH "" backoff1 Hall). f_equal.
  by destruct outcomes.
Qed.

(** While the context is not cancelled, every failed call is followed by
    another: there are as many requests as errors. The first request carries
    the resource version of the list response when there is one; every later
    request is for the path with ?watch=1 alone, without a resource
    version. *)
Theorem startWatchForResource_requests (outcomes : list error)
    (apiServer path initResourceVersion : string) :
  Forall (λ err, err ≠ Canceled) outcomes →
  map (λ c, streamRequestURL apiServer c.1 c.2)
      (streamCalls (startWatchForResource outcomes path initResourceVersion)) =
  match outcomes with
  | [] => []
  | _ :: outcomes' =>
      (apiServer +:+ path +:+ "?watch=1" +:+
         (if decide (initResourceVersion = "") then ""
          else "&resourceVersion=" +:+ initResourceVersion)) ::
      replicate (length outcomes') (apiServer +:+ path +:+ "?watch=1")
  end.
Proof.
  intros Hall. unfold startWatchForResource.
  rewrite streamCalls_watchLoop by done.
  destruct outcomes as [|err outcomes]; [done|].
  rewrite map_cons, map_replicate. unfold streamRequestURL. simpl.
  f_equal.
  destruct (decide (initResourceVersion = "")) as [->|Hv].
  - rewrite decide_False by (intros H; by apply H). reflexivity.
  - rewrite decide_True by done. f_equal. apply append_assoc.
Qed.

Lemma startWatchForResource_requests_witness :
  map (λ c, streamRequestURL "https://k8s" c.1 c.2)
      (streamCalls (startWatchForResource [EOF; ErrOther "reset"; EOF] "/api/v1/pods" "7")) =
  [ "https://k8s/api/v1/pods?watch=1&resourceVersion=7";
    "https://k8s/api/v1/pods?watch=1"; "https://k8s/api/v1/pods?watch=1" ].
Proof.
  apply (startWatchForResource_requests [EOF; ErrOther "reset"; EOF]
           "https://k8s" "/api/v1/pods" "7").
  repeat constructor; discriminate.
Defined.

Lemma logged_watchLoop outcomes path version backoff :
  Forall (λ err, err ≠ Canceled) outcomes →
  logged (watchLoop outcomes path version backoff) =
  filter (λ err, err ≠ EOF) outcomes.
Proof.
  revert version backoff.
  induction outcomes as [|err outcomes IH]; intros version backoff Hall; [done|].
  apply Forall_cons in Hall as [Herr Hall].
  rewrite watchLoop_cons_retry by done.
  set (backoff1 := if decide (backoff < maxBackOff)
                   then wrapInt64 (backoff + wrapInt64 (Second * 5)) else backoff).
  rewrite filter_cons.
  destruct (decide (err = EOF)) as [->|Hne].
  - rewrite decide_False by (by intros H). simpl.
    change (logged (watchLoop outcomes path "" backoff1) = filter (λ err, err ≠ EOF) outcomes).
    by apply IH.
  - rewrite decide_True by done. simpl.
    change (err :: logged (watchLoop outcomes path "" backoff1) =
            err :: filter (λ err, err ≠ EOF) outcomes).
    f_equal. by apply IH.
Qed.

(** The errors logged by the watch of a resource are the errors of the
    calls other than the end of the stream, in order; the cancellation that
    ends the watch is not logged either. *)
Theorem startWatchForResource_logged (pre post : list error)
    (path initResourceVersion : string) :
  Forall (λ err, err ≠ Canceled) pre →
  logged (startWatchForResource pre path initResourceVersion) =
    filter (λ err, err ≠ EOF) pre ∧
  logged (startWatchForResource (pre ++ Canceled :: post) path initResourceVersion) =
    filter (λ err, err ≠ EOF) pre.
Proof.
  intros Hall. unfold startWatchForResource.
  assert (H1 := logged_watchLoop pre (path +:+ "?watch=1") initResourceVersion Second Hall).
  split; [done|].
  destruct (watchLoop_cancel pre post (path +:+ "?watch=1") initResourceVersion Second Hall)
    as [backoff' ->].
  unfold logged in *. rewrite omap_app, H1. simpl. apply app_nil_r.
Qed.

Lemma startWatchForResource_logged_witness :
  logged (startWatchForResource [EOF; ErrOther "reset"; EOF] "/api/v1/pods" "7") =
    [ErrOther "reset"] ∧
  logged (startWatchForResource ([EOF; ErrOther "reset"; EOF] ++ Canceled :: [EOF])
            "/api/v1/pods" "7") = [ErrOther "reset"].
Proof.
  apply (startWatchForResource_logged [EOF; ErrOther "reset"; EOF] [EOF] "/api/v1/pods" "7").
  repeat constructor; discriminate.
Defined.

(** ** readJSONObject over any reader *)

Section ReaderAny.
Context {R : Type} (Read : R → nat → list byte * option error * R).

Lemma readJSONObject_loop_error (fuel : nat) (r : R) (b : list byte) (offset : nat)
    (r' : R) (e : error) :
  readJSONObject_loop Read fuel r b offset = Some (r', inr e) →
  e ≠ ErrShortBuffer.
Proof.
  revert r b offset.
  induction fuel as [|fuel IH]; intros r b offset Hrun; [done|].
  simpl in Hrun.
  destruct (Read r (length b - offset)%nat) as [[data err] r1] eqn:Hread.
  simpl in Hrun.
  destruct err as [[| | | |msg]|]; try (by inversion Hrun).
  case_decide; [by inversion Hrun|]. by eapply IH.
Qed.

(** Whatever the reader does, readJSONObject never returns
    io.ErrShortBuffer to its caller: a short buffer either makes it read
    again into a doubled buffer or, with no byte read, becomes an error of
    its own. *)
Theorem readJSONObject_never_short_buffer (fuel : nat) (r : R) (b : list byte)
    (r' : R) (e : error) :
  readJSONObject Read fuel r b = Some (r', inr e) →
  e ≠ ErrShortBuffer.
Proof. apply readJSONObject_loop_error. Qed.

Lemma readJSONObject_loop_chunks (fuel : nat) (r : R) (b : list byte) (offset : nat)
    (r' : R) (out : list byte) :
  (∀ r n, (length (Read r n).1.1 ≤ n)%nat) →
  (offset ≤ length b)%nat →
  readJSONObject_loop Read fuel r b offset = Some (r', inl out) →
  out = take offset b ++ concat (readChunks Read fuel r (length b) offset).
Proof.
  intros Hlen. revert r b offset.
  induction fuel as [|fuel IH]; intros r b offset Hoff Hrun; [done|].
  simpl in Hrun |- *.
  pose proof (Hlen r (length b - offset)%nat) as Hn.
  destruct (Read r (length b - offset)%nat) as [[data err] r1] eqn:Hread.
  simpl in Hrun, Hn |- *.
  destruct err as [[| | | |msg]|]; try (by inversion Hrun).
  - case_decide as Hz; [by inversion Hrun|].
    apply IH in Hrun.
    + rewrite Hrun, length_Resize, take_Resize, take_writeAt
        by (rewrite ?length_writeAt; lia).
      simpl. by rewrite <- app_assoc.
    + rewrite length_Resize. lia.
  - inversion Hrun; subst. rewrite take_writeAt by lia.
    simpl. by rewrite app_nil_r.
Qed.

(** For a reader that never returns more bytes than the buffer it is
    given has room for, the object readJSONObject returns is the
    concatenation of the chunks read, in order: the bytes read before a
    short buffer are kept when the buffer is doubled, nothing is lost and
    nothing of the initial buffer remains. *)
Theorem readJSONObject_chunks (fuel : nat) (r : R) (b : list byte)
    (r' : R) (out : list byte) :
  (∀ r n, (length (Read r n).1.1 ≤ n)%nat) →
  readJSONObject Read fuel r b = Some (r', inl out) →
  out = concat (readChunks Read fuel r (length b) 0).
Proof.
  intros Hlen Hrun.
  apply readJSONObject_loop_chunks in Hrun; [|done|lia].
  by rewrite take_0 in Hrun.
Qed.

End ReaderAny.

Lemma slowRead_length (k : nat) (r : list byte) (n : nat) :
  (length (slowRead k r n).1.1 ≤ n)%nat.
Proof.
  unfold slowRead. case_decide; simpl; [lia|].
  rewrite length_take. lia.
Qed.

Lemma readJSONObject_chunks_witness :
  readJSONObject (slowRead 3) 10 exObject (replicate 4 Byte.x00) = Some ([], inl exObject) ∧
  exObject = concat (readChunks (slowRead 3) 10 exObject 4 0) ∧
  length (readChunks (slowRead 3) 10 exObject 4 0) = 3%nat.
Proof.
  assert (Hrun : readJSONObject (slowRead 3) 10 exObject (replicate 4 Byte.x00)
                 = Some ([], inl exObject)) by reflexivity.
  split; [exact Hrun|]. split; [|reflexivity].
  exact (readJSONObject_chunks (slowRead 3) 10 exObject (replicate 4 Byte.x00) [] exObject
           (slowRead_length 3) Hrun).
Defined.

Lemma readJSONObject_never_short_buffer_witness :
  readJSONObject (slowRead 0) 10 exObject (replicate 4 Byte.x00)
    = Some (exObject, inr ErrShortBufferZero) ∧
  ErrShortBufferZero ≠ ErrShortBuffer.
Proof.
  assert (Hrun : readJSONObject (slowRead 0) 10 exObject (replicate 4 Byte.x00)
                 = Some (exObject, inr ErrShortBufferZero)) by reflexivity.
  split; [exact Hrun|].
  exact (readJSONObject_never_short_buffer (slowRead 0) 10 exObject (replicate 4 Byte.x00)
           exObject ErrShortBufferZero Hrun).
Defined.

(** ** Keys *)

Lemma noSlash_cons (a : ascii) (s : string) :
  noSlash (String a s) = true → a ≠ "/"%char ∧ noSlash s = true.
Proof.
  simpl. intros H. apply andb_true_iff in H as [Ha Hs]. split; [|done].
  intros ->. by rewrite Ascii.eqb_refl in Ha.
Qed.

(** Two strings without a slash that are followed by a slash and anything
    are split the same way. *)
Lemma split_slash_inj (a a' b b' : string) :
  noSlash a = true → noSlash a' = true →
  a +:+ "/" +:+ b = a' +:+ "/" +:+ b' → a = a' ∧ b = b'.
Proof.
  revert a'. induction a as [|c a IH]; intros [|c' a'] Ha Ha' Heq.
  - split; [done|]. by inversion Heq.
  - apply noSlash_cons in Ha' as [Hc _]. rewrite append_cons in Heq.
    inversion Heq; subst. done.
  - apply noSlash_cons in Ha as [Hc _]. rewrite append_cons in Heq.
    inversion Heq; subst. done.
  - apply noSlash_cons in Ha as [_ Ha]. apply noSlash_cons in Ha' as [_ Ha'].
    rewrite !append_cons in Heq. inversion Heq; subst.
    destruct (IH a' Ha Ha' ltac:(done)) as [-> ->]. done.
Qed.

(** The key of a sync event tells its parts apart: when the object types
    and the set names hold no slash, two events with the same key have the
    same object type, the same set name and the same object key. *)
Theorem buildSyncKey_inj (objType setName objKey objType' setName' objKey' : string) :
  noSlash objType = true → noSlash objType' = true →
  noSlash setName = true → noSlash setName' = true →
  buildSyncKey objType setName objKey = buildSyncKey objType' setName' objKey' →
  objType = objType' ∧ setName = setName' ∧ objKey = objKey'.
Proof.
  intros Ht Ht' Hs Hs' Heq. unfold buildSyncKey in Heq.
  apply split_slash_inj in Heq as [-> Heq]; [|done..].
  apply split_slash_inj in Heq as [-> ->]; done.
Qed.

Lemma buildSyncKey_inj_witness :
  noSlash "endpoints" = true ∧ noSlash "job1" = true ∧
  ("endpoints" = "endpoints" ∧ "job1" = "job1" ∧
   Endpoints_key exEndpoints = Endpoints_key exEndpointsEmpty).
Proof.
  split; [reflexivity|]. split; [reflexivity|].
  apply (buildSyncKey_inj "endpoints" "job1" (Endpoints_key exEndpoints)
           "endpoints" "job1" (Endpoints_key exEndpointsEmpty)); reflexivity.
Defined.

(** The key of an Endpoints object and the key of an object reference
    name one namespace and one name: when the namespaces hold no slash, two
    Endpoints objects have the same key exactly when they have the same
    namespace and the same name, and so have two object references. *)
Theorem Endpoints_key_inj (eps eps' : Endpoints) (o o' : ObjectReference) :
  noSlash (om_Namespace (eps_Metadata eps)) = true →
  noSlash (om_Namespace (eps_Metadata eps')) = true →
  noSlash (or_Namespace o) = true →
  noSlash (or_Namespace o') = true →
  (Endpoints_key eps = Endpoints_key eps' ↔
     om_Namespace (eps_Metadata eps) = om_Namespace (eps_Metadata eps') ∧
     om_Name (eps_Metadata eps) = om_Name (eps_Metadata eps')) ∧
  (ObjectReference_key o = ObjectReference_key o' ↔
     or_Namespace o = or_Namespace o' ∧ or_Name o = or_Name o').
Proof.
  intros H H' Ho Ho'. unfold Endpoints_key, ObjectReference_key.
  split; (split; [intros Heq; by apply split_slash_inj in Heq | by intros [-> ->]]).
Qed.

Lemma Endpoints_key_inj_witness :
  (Endpoints_key exEndpoints = Endpoints_key exEndpointsEmpty ↔
     om_Namespace (eps_Metadata exEndpoints) = om_Namespace (eps_Metadata exEndpointsEmpty) ∧
     om_Name (eps_Metadata exEndpoints) = om_Name (eps_Metadata exEndpointsEmpty)) ∧
  (ObjectReference_key (ea_TargetRef (exAddress "10.0.0.1" "Pod" "ns1" "p1")) =
     ObjectReference_key (ea_TargetRef (exAddress "10.0.0.2" "Pod" "ns1" "p2")) ↔
     "ns1" = "ns1" ∧ "p1" = "p2").
Proof.
  apply (Endpoints_key_inj exEndpoints exEndpointsEmpty
           (ea_TargetRef (exAddress "10.0.0.1" "Pod" "ns1" "p1"))
           (ea_TargetRef (exAddress "10.0.0.2" "Pod" "ns1" "p2"))); reflexivity.
Defined.

(** ** newWatchClient *)

Lemma length_zero_iff (s : string) : String.length s = 0%nat ↔ s = "".
Proof. by destruct s. Qed.

Section NewWatchClientProps.
Context {BasicAuthConfig TLSConfig AuthConfig AuthError TLSClientConfig URL WaitGroup : Type}.
Variable NewConfig :
  string → option BasicAuthConfig → string → string → option TLSConfig →
  AuthConfig + AuthError.
Variable caFileOnly : string → TLSConfig.
Variable NewTLSConfig : AuthConfig → TLSClientConfig.

(** A client that newWatchClient returns. The auth settings of the
    configuration were loaded without error, also when they are not used;
    the TLS config of the transport is made from the auth config the client
    keeps; the address of the API server is not empty. With api_server set,
    it is the address and the auth config is the one of the configuration.
    Without it, both environment variables are set, the address is https
    with their host and port, and the auth config is the one of the service
    account: the auth settings of the configuration are dropped. *)
Theorem newWatchClient_success (Getenv : string → string)
    (net_JoinHostPort : string → string → string) (wg : WaitGroup)
    (sdc : SDConfig BasicAuthConfig TLSConfig URL) (baseDir : string)
    (wc : watchClient AuthConfig TLSClientConfig URL WaitGroup) :
  newWatchClient NewConfig caFileOnly NewTLSConfig Getenv net_JoinHostPort wg sdc baseDir
    = inl wc →
  tr_TLSClientConfig (wc_c wc) = NewTLSConfig (wc_ac wc) ∧
  wc_apiServer wc ≠ "" ∧
  ∃ ac, NewConfig baseDir (sdc_BasicAuth sdc) (sdc_BearerToken sdc)
          (sdc_BearerTokenFile sdc) (sdc_TLSConfig sdc) = inl ac ∧
    if decide (sdc_APIServer sdc = "") then
      Getenv "KUBERNETES_SERVICE_HOST" ≠ "" ∧
      Getenv "KUBERNETES_SERVICE_PORT" ≠ "" ∧
      wc_apiServer wc =
        "https://" +:+ net_JoinHostPort (Getenv "KUBERNETES_SERVICE_HOST")
                         (Getenv "KUBERNETES_SERVICE_PORT") ∧
      NewConfig "." None "" "/var/run/secrets/kubernetes.io/serviceaccount/token"
        (Some (caFileOnly "/var/run/secrets/kubernetes.io/serviceaccount/ca.crt"))
        = inl (wc_ac wc)
    else wc_apiServer wc = sdc_APIServer sdc ∧ wc_ac wc = ac.
Proof.
  unfold newWatchClient. intros Hrun.
  destruct (NewConfig baseDir _ _ _ _) as [ac|err]; [|done].
  destruct (decide (String.length (sdc_APIServer sdc) = 0%nat)) as [Hz|Hnz].
  - apply length_zero_iff in Hz.
    destruct (decide (String.length (Getenv "KUBERNETES_SERVICE_HOST") = 0%nat))
      as [|Hh]; [done|].
    destruct (decide (String.length (Getenv "KUBERNETES_SERVICE_PORT") = 0%nat))
      as [|Hp]; [done|].
    destruct (NewConfig "." _ _ _ _) as [acNew|err]; [|done].
    inversion Hrun; subst; simpl. split_and!; [done|done|].
    exists ac. split; [done|]. rewrite decide_True by done.
    split_and!; [| |done..].
    + intros H. by apply Hh, length_zero_iff.
    + intros H. by apply Hp, length_zero_iff.
  - inversion Hrun; subst; simpl. split_and!; [done| |].
    + intros H. by apply Hnz, length_zero_iff.
    + exists ac. split; [done|]. rewrite decide_False; [done|].
      intros H. by apply Hnz, length_zero_iff.
Qed.

(** With api_server set, newWatchClient depends on what is outside the
    configuration only through the loading of the auth settings of the
    configuration: the environment, the join of host and port and the
    files of the service account are not looked at. *)
Theorem newWatchClient_explicit_api_server
    (NewConfig' : string → option BasicAuthConfig → string → string → option TLSConfig →
                  AuthConfig + AuthError)
    (Getenv Getenv' : string → string)
    (net_JoinHostPort net_JoinHostPort' : string → string → string) (wg : WaitGroup)
    (sdc : SDConfig BasicAuthConfig TLSConfig URL) (baseDir : string) :
  sdc_APIServer sdc ≠ "" →
  NewConfig baseDir (sdc_BasicAuth sdc) (sdc_BearerToken sdc)
    (sdc_BearerTokenFile sdc) (sdc_TLSConfig sdc) =
  NewConfig' baseDir (sdc_BasicAuth sdc) (sdc_BearerToken sdc)
    (sdc_BearerTokenFile sdc) (sdc_TLSConfig sdc) →
  newWatchClient NewConfig caFileOnly NewTLSConfig Getenv net_JoinHostPort wg sdc baseDir =
  newWatchClient NewConfig' caFileOnly NewTLSConfig Getenv' net_JoinHostPort' wg sdc baseDir.
Proof.
  intros Hs Hcfg. unfold newWatchClient. rewrite <- Hcfg.
  destruct (NewConfig baseDir _ _ _ _) as [ac|err]; [|done].
  destruct (decide (String.length (sdc_APIServer sdc) = 0%nat)) as [Hz|]; [|done].
  by apply length_zero_iff in Hz.
Qed.

End NewWatchClientProps.

Lemma newWatchClient_success_witness :
  let wc := {| wc_c := {| tr_TLSClientConfig := "/var/run/secrets/kubernetes.io/serviceaccount/token";
                          tr_Proxy := None;
                          tr_TLSHandshakeTimeout := 10 * Second;
                          tr_IdleConnTimeout := 2 * Minute |};
               wc_apiServer := "https://10.0.0.1:443";
               wc_ac := "/var/run/secrets/kubernetes.io/serviceaccount/token";
               wc_wg := tt |} in
  newWatchClient exNewConfig id id exGetenv (λ h p, h +:+ ":" +:+ p) tt exSDConfig "/etc"
    = inl wc ∧
  wc_apiServer wc ≠ "" ∧
  exNewConfig "." None "" "/var/run/secrets/kubernetes.io/serviceaccount/token"
    (Some "/var/run/secrets/kubernetes.io/serviceaccount/ca.crt") = inl (wc_ac wc).
Proof.
  intros wc.
  assert (Hrun : newWatchClient exNewConfig id id exGetenv (λ h p, h +:+ ":" +:+ p) tt
                   exSDConfig "/etc" = inl wc) by reflexivity.
  destruct (newWatchClient_success exNewConfig id id exGetenv (λ h p, h +:+ ":" +:+ p) tt
              exSDConfig "/etc" wc Hrun) as (_ & Hne & ac & _ & Hcase).
  split; [exact Hrun|]. split; [exact Hne|].
  rewrite decide_True in Hcase by reflexivity.
  destruct Hcase as (_ & _ & _ & Hsa). exact Hsa.
Defined.

Lemma newWatchClient_explicit_api_server_witness :
  newWatchClient exNewConfig id id exGetenv (λ h p, h +:+ ":" +:+ p) tt
    exSDConfigExplicit "/etc" =
  newWatchClient (λ dir ba token tokenFile tls,
                    if decide (dir = ".") then inr tt else inl tokenFile)
    id id (λ _, "") (λ h p, h +:+ p) tt exSDConfigExplicit "/etc".
Proof.
  apply (newWatchClient_explicit_api_server exNewConfig id id
           (λ dir ba token tokenFile tls, if decide (dir = ".") then inr tt else inl tokenFile)
           exGetenv (λ _, "") (λ h p, h +:+ ":" +:+ p) (λ h p, h +:+ p) tt
           exSDConfigExplicit "/etc"); [discriminate | reflexivity].
Defined.

(** ** The watch URL of a kind with selectors *)

(** When the selectors of a kind give a query, startWatchForObject puts it on
    the path after a question mark and hands that path to the watch, which
    adds ?watch=1 behind it: the URL of the first watch request is the path
    of the kind, a question mark and the query, then ?watch=1 with a second
    question mark, then the resource version of the list if there is one. *)
Theorem startWatchForResource_url_with_selectors (cfg : apiConfig)
    (objectName : string) (ns : option string) (apiServer initResourceVersion : string)
    (err : error) (outcomes : list error) :
  cfg_query cfg objectName ≠ "" →
  err ≠ Canceled →
  head (map (λ c, streamRequestURL apiServer c.1 c.2)
          (streamCalls (startWatchForResource (err :: outcomes)
                          (objectPath cfg objectName ns) initResourceVersion))) =
  Some (apiServer +:+ objectPath (withoutSelectors cfg) objectName ns +:+
        "?" +:+ cfg_query cfg objectName +:+ "?watch=1" +:+
        (if decide (initResourceVersion = "") then ""
         else "&resourceVersion=" +:+ initResourceVersion)).
Proof.
  intros Hq Herr. unfold startWatchForResource.
  rewrite watchLoop_cons_retry by done.
  assert (Hc : ∀ p v b l, streamCalls (WStream p v ::
                      (if decide (err = EOF) then [] else [WLog err]) ++ WSleep b :: l) =
                    (p, v) :: streamCalls l)
    by (intros p v b l; by case_decide).
  rewrite Hc. simpl. f_equal. unfold streamRequestURL. simpl. f_equal.
  assert (Hpath : objectPath cfg objectName ns =
                  objectPath (withoutSelectors cfg) objectName ns +:+
                  "?" +:+ cfg_query cfg objectName).
  { unfold objectPath. simpl. by rewrite decide_False by done. }
  rewrite Hpath.
  destruct (decide (initResourceVersion = "")) as [->|Hv].
  - rewrite decide_False by (intros H; by apply H).
    by rewrite !append_assoc.
  - rewrite decide_True by done. by rewrite !append_assoc.
Qed.

Lemma startWatchForResource_url_with_selectors_witness :
  head (map (λ c, streamRequestURL "https://k8s" c.1 c.2)
          (streamCalls (startWatchForResource [EOF] (objectPath exConfigSelectors "pods" None)
                          "7"))) =
  Some "https://k8s/api/v1/pods?labelSelector=app%3Dweb?watch=1&resourceVersion=7".
Proof.
  apply (startWatchForResource_url_with_selectors exConfigSelectors "pods" None
           "https://k8s" "7" EOF []); discriminate.
Defined.
